(** * thread_pool.py: a shallow embedding of [ThreadPool]

    The Python objects of [thread_pool.py] (queues, pools, threads) live in a
    store indexed by locations, so that two pools that hold the same queue
    really share it.  Methods are functions in a state-and-exception monad;
    the loops run by threads ([_thread_run], [_consume]) are given one
    iteration at a time, and [_thread_run] also one blocking call at a time,
    so that other threads can be scheduled in between. *)

From stdpp Require Import gmap strings list fin_maps.
From Stdlib Require Import ZArith Lia.

#[local] Set Warnings "-register-all".
#[local] Open Scope Z_scope.

(** ** Python values and exceptions *)

Definition loc := nat.

(** The values that reach the pool: jobs are tuples
    [(callback, arg_list, kwargs_dict)], sources are iterables, queues or
    pools. A callable is named by an index into a table of functions. *)
Inductive value : Type :=
| VNone
| VInt (z : Z)
| VStr (s : string)
| VTuple (items : list value)
| VDict (entries : list (string * value))
| VFun (f : nat)
| VList (items : list value)
| VIter (items : list value)
| VQueue (q : loc)
| VPool (p : loc).

Inductive exn : Type :=
| Full
| Empty
| ValueError
| TypeError
| AttributeError
| IndexError
| KeyError
| RuntimeError
| DanglingRef
| JobError (code : nat).

Definition exn_eqb (a b : exn) : bool :=
  match a, b with
  | Full, Full | Empty, Empty | ValueError, ValueError
  | TypeError, TypeError | AttributeError, AttributeError
  | IndexError, IndexError | KeyError, KeyError
  | RuntimeError, RuntimeError | DanglingRef, DanglingRef => true
  | JobError m, JobError n => Nat.eqb m n
  | _, _ => false
  end.

(** What a call does: return, raise, or block for ever on a condition that
    only another thread can change ([Queue.join]). *)
Inductive outcome (A : Type) : Type :=
| Ok (a : A)
| Raise (e : exn)
| Blocked.
Arguments Ok {A} a.
Arguments Raise {A} e.
Arguments Blocked {A}.

(** ** Queue.Queue *)

(** [maxsize <= 0] means an unbounded queue; [unfinished_tasks] is the count
    that [task_done] decrements and [join] waits on. *)
Record Queue : Type := mkQueue {
  maxsize : Z;
  queue : list value;
  unfinished_tasks : Z
}.

Definition Queue_new (maxsize : Z) : Queue := mkQueue maxsize [] 0.

Definition qsize (q : Queue) : Z := Z.of_nat (length (queue q)).

Definition full (q : Queue) : bool :=
  (0 <? maxsize q) && (qsize q =? maxsize q).

(** ** Threads and pools *)

(** Where a thread stands in the function it runs. In [_thread_run]: at
    the head of the [while True]; inside the call of [get], on the queue
    that [self._queue] was when the call began; with a job in hand, before
    it is called; inside the call of [put] on the output queue, with the
    result; or at the [finally] clause, with the exception, if any, that is
    on its way out. In [_consume]: before the source is iterated, at the
    head of the [for] loop, or at the head of the retry loop for one job. *)
Inductive frame : Type :=
| WorkerLoop (p : loc)
| WorkerGet (p q : loc) (timeout : Z)
| WorkerCall (p : loc) (job : value)
| WorkerPut (p qo : loc) (timeout : Z) (result : value)
| WorkerFinally (p : loc) (raised : option exn)
| ConsumeStart (p : loc)
| ConsumeNext (p : loc) (rest : list value)
| ConsumeTry (p : loc) (job : value) (rest : list value).

Inductive run_state : Type :=
| Unstarted
| Alive
| Returned
| Died (e : exn).

Record Thread : Type := mkThread {
  thread_frame : frame;
  thread_state : run_state
}.

Record ThreadPool : Type := mkPool {
  _pool_size : Z;
  _pool : list loc;
  _queue : loc;
  _queue_capacity : Z;
  _queue_timeout : Z;
  _source : value;
  _queue_out : option loc;
  _start_time : option Z;
  _end_time : option Z
}.

(** Attribute writes [self.x = v]. *)
Definition set__pool (v : list loc) (P : ThreadPool) : ThreadPool :=
  mkPool (_pool_size P) v (_queue P) (_queue_capacity P) (_queue_timeout P)
         (_source P) (_queue_out P) (_start_time P) (_end_time P).
Definition set__queue (v : loc) (P : ThreadPool) : ThreadPool :=
  mkPool (_pool_size P) (_pool P) v (_queue_capacity P) (_queue_timeout P)
         (_source P) (_queue_out P) (_start_time P) (_end_time P).
Definition set__source (v : value) (P : ThreadPool) : ThreadPool :=
  mkPool (_pool_size P) (_pool P) (_queue P) (_queue_capacity P) (_queue_timeout P)
         v (_queue_out P) (_start_time P) (_end_time P).
Definition set__queue_out (v : option loc) (P : ThreadPool) : ThreadPool :=
  mkPool (_pool_size P) (_pool P) (_queue P) (_queue_capacity P) (_queue_timeout P)
         (_source P) v (_start_time P) (_end_time P).
Definition set__start_time (v : Z) (P : ThreadPool) : ThreadPool :=
  mkPool (_pool_size P) (_pool P) (_queue P) (_queue_capacity P) (_queue_timeout P)
         (_source P) (_queue_out P) (Some v) (_end_time P).
Definition set__end_time (v : Z) (P : ThreadPool) : ThreadPool :=
  mkPool (_pool_size P) (_pool P) (_queue P) (_queue_capacity P) (_queue_timeout P)
         (_source P) (_queue_out P) (_start_time P) (Some v).

(** What the program does that an observer can count: queue calls, job
    calls, sleeps and log lines, in the order they happen. *)
Inductive event : Type :=
| EPut (q : loc) (item : value)
| EPutFull (q : loc)
| EGet (q : loc) (item : value)
| EGetEmpty (q : loc)
| ETaskDone (q : loc)
| ECall (job : value)
| ESleep
| ELog (msg : string).

Record heap : Type := mkHeap {
  queues : gmap loc Queue;
  pools : gmap loc ThreadPool;
  threads : gmap loc Thread;
  trace : list event
}.

Definition empty_heap : heap := mkHeap ∅ ∅ ∅ [].

Definition with_queues (f : gmap loc Queue → gmap loc Queue) (σ : heap) : heap :=
  mkHeap (f (queues σ)) (pools σ) (threads σ) (trace σ).
Definition with_pools (f : gmap loc ThreadPool → gmap loc ThreadPool) (σ : heap) : heap :=
  mkHeap (queues σ) (f (pools σ)) (threads σ) (trace σ).
Definition with_threads (f : gmap loc Thread → gmap loc Thread) (σ : heap) : heap :=
  mkHeap (queues σ) (pools σ) (f (threads σ)) (trace σ).
Definition with_trace (f : list event → list event) (σ : heap) : heap :=
  mkHeap (queues σ) (pools σ) (threads σ) (f (trace σ)).

(** ** The monad of methods *)

Definition M (A : Type) : Type := heap → outcome A * heap.

#[global] Instance M_ret : MRet M := λ A a σ, (Ok a, σ).
#[global] Instance M_bind : MBind M := λ A B k m σ,
  match m σ with
  | (Ok a, σ') => k a σ'
  | (Raise e, σ') => (Raise e, σ')
  | (Blocked, σ') => (Blocked, σ')
  end.

Definition raise {A} (e : exn) : M A := λ σ, (Raise e, σ).
Definition block {A} : M A := λ σ, (Blocked, σ).

Definition lift {A} (o : outcome A) : M A := λ σ, (o, σ).

(** [try: body finally: fin]: [fin] runs whether [body] returned or raised;
    an exception of [fin] replaces that of [body]. *)
Definition try_finally {A} (body : M A) (fin : M unit) : M A := λ σ,
  match body σ with
  | (Blocked, σ') => (Blocked, σ')
  | (r, σ') =>
      match fin σ' with
      | (Ok _, σ'') => (r, σ'')
      | (Raise e, σ'') => (Raise e, σ'')
      | (Blocked, σ'') => (Blocked, σ'')
      end
  end.

(** [try: body except exc: handler]. *)
Definition try_except {A} (body : M A) (exc : exn) (handler : M A) : M A := λ σ,
  match body σ with
  | (Raise e, σ') => if exn_eqb e exc then handler σ' else (Raise e, σ')
  | r => r
  end.

(** [rescue m] runs [m] and holds the exception that [m] raised, if any,
    for a [finally] clause that has still to run. *)
Definition rescue {A} (m : M A) : M (A + exn) := λ σ,
  match m σ with
  | (Ok a, σ') => (Ok (inl a), σ')
  | (Raise e, σ') => (Ok (inr e), σ')
  | (Blocked, σ') => (Blocked, σ')
  end.

Definition log (e : event) : M unit := λ σ, (Ok tt, with_trace (λ t, t ++ [e]) σ).

(** ** Objects in the store *)

Definition alloc_queue (Q : Queue) : M loc := λ σ,
  let q := fresh (dom (queues σ)) in (Ok q, with_queues <[q := Q]> σ).
Definition alloc_pool (P : ThreadPool) : M loc := λ σ,
  let p := fresh (dom (pools σ)) in (Ok p, with_pools <[p := P]> σ).
Definition alloc_thread (T : Thread) : M loc := λ σ,
  let t := fresh (dom (threads σ)) in (Ok t, with_threads <[t := T]> σ).

Definition get_pool (p : loc) : M ThreadPool := λ σ,
  match pools σ !! p with
  | Some P => (Ok P, σ)
  | None => (Raise DanglingRef, σ)
  end.

Definition update_pool (p : loc) (f : ThreadPool → ThreadPool) : M unit := λ σ,
  match pools σ !! p with
  | Some P => (Ok tt, with_pools <[p := f P]> σ)
  | None => (Raise DanglingRef, σ)
  end.

Definition get_queue (q : loc) : M Queue := λ σ,
  match queues σ !! q with
  | Some Q => (Ok Q, σ)
  | None => (Raise DanglingRef, σ)
  end.

(** ** Queue.Queue methods (Python 2.7 [Queue] module)

    A call with a timeout is resolved at the moment it either finds room
    (an item) or gives up: the wait itself is the other threads' steps. *)

Definition Queue_put (q : loc) (item : value) (timeout : Z) : M unit := λ σ,
  match queues σ !! q with
  | None => (Raise DanglingRef, σ)
  | Some Q =>
      if (0 <? maxsize Q) && (timeout <? 0) then (Raise ValueError, σ)
      else if full Q then (Raise Full, with_trace (λ t, t ++ [EPutFull q]) σ)
      else (Ok tt,
            with_trace (λ t, t ++ [EPut q item])
              (with_queues
                 <[q := mkQueue (maxsize Q) (queue Q ++ [item]) (unfinished_tasks Q + 1)]> σ))
  end.

Definition Queue_get (q : loc) (timeout : Z) : M value := λ σ,
  match queues σ !! q with
  | None => (Raise DanglingRef, σ)
  | Some Q =>
      if timeout <? 0 then (Raise ValueError, σ)
      else match queue Q with
           | [] => (Raise Empty, with_trace (λ t, t ++ [EGetEmpty q]) σ)
           | item :: rest =>
               (Ok item,
                with_trace (λ t, t ++ [EGet q item])
                  (with_queues <[q := mkQueue (maxsize Q) rest (unfinished_tasks Q)]> σ))
           end
  end.

Definition Queue_task_done (q : loc) : M unit := λ σ,
  match queues σ !! q with
  | None => (Raise DanglingRef, σ)
  | Some Q =>
      let σ1 := with_trace (λ t, t ++ [ETaskDone q]) σ in
      let unfinished := unfinished_tasks Q - 1 in
      if unfinished <? 0 then (Raise ValueError, σ1)
      else (Ok tt, with_queues <[q := mkQueue (maxsize Q) (queue Q) unfinished]> σ1)
  end.

Definition Queue_join (q : loc) : M unit :=
  Q ← get_queue q;
  if unfinished_tasks Q =? 0 then mret tt else block.

Definition Queue_qsize (q : loc) : M Z :=
  Q ← get_queue q; mret (qsize Q).

(** ** Built-ins applied to values *)

Definition chars (s : string) : list value :=
  (λ c, VStr (String c EmptyString)) <$> String.list_ascii_of_string s.

(** [len(v)]. [Queue.Queue] is an old-style class without [__len__]. *)
Definition py_len (v : value) : outcome Z :=
  match v with
  | VStr s => Ok (Z.of_nat (String.length s))
  | VTuple l | VList l => Ok (Z.of_nat (length l))
  | VDict d => Ok (Z.of_nat (length d))
  | VQueue _ => Raise AttributeError
  | VNone | VInt _ | VFun _ | VIter _ | VPool _ => Raise TypeError
  end.

(** [v[i]] for a literal index [i]. *)
Definition py_getitem (v : value) (i : nat) : outcome value :=
  match v with
  | VTuple l | VList l =>
      match l !! i with Some x => Ok x | None => Raise IndexError end
  | VStr s =>
      match chars s !! i with Some x => Ok x | None => Raise IndexError end
  | VDict _ => Raise KeyError
  | VQueue _ => Raise AttributeError
  | VNone | VInt _ | VFun _ | VIter _ | VPool _ => Raise TypeError
  end.

(** The items [for x in v] (and [*v] in a call) go through. An iterator is
    given by the items it yields. *)
Definition py_iter (v : value) : outcome (list value) :=
  match v with
  | VTuple l | VList l | VIter l => Ok l
  | VStr s => Ok (chars s)
  | VDict d => Ok ((λ kv, VStr kv.1) <$> d)
  | VNone | VInt _ | VFun _ | VQueue _ | VPool _ => Raise TypeError
  end.

(** [**v] in a call. *)
Definition py_mapping (v : value) : outcome (list (string * value)) :=
  match v with
  | VDict d => Ok d
  | _ => Raise TypeError
  end.

Definition is_none (v : value) : bool :=
  match v with VNone => true | _ => false end.

Definition has_key (k : string) (d : list (string * value)) : bool :=
  existsb (λ kv, String.eqb kv.1 k) d.

(** ** ThreadPool methods *)

Definition job_tuple (callback : value) (args : list value)
    (kwargs : list (string * value)) : value :=
  VTuple [callback; VTuple args; VDict kwargs].

(** [add(self, callback, *args, **kwargs)], called with the positional
    arguments [callback] and [args] and the keywords [kwargs]. A keyword
    named [self] or [callback] gives that parameter a second value, which is
    a [TypeError] of the call, raised before the body runs. *)
Definition add (p : loc) (callback : value) (args : list value)
    (kwargs : list (string * value)) : M loc :=
  if has_key "self" kwargs || has_key "callback" kwargs then raise TypeError
  else
    P ← get_pool p;
    Queue_put (_queue P) (job_tuple callback args kwargs) (_queue_timeout P);;
    mret p.

(** [start(self)]; [now] is what [datetime.now()] returns. *)
Definition start (now : Z) (p : loc) : M unit :=
  update_pool p (set__start_time now);;
  log (ELog "Starting.").

(** [finish(self)]: the end time is assigned, then the log line reads
    [self._end_time] and [self._start_time]. *)
Definition finish (now : Z) (p : loc) : M unit :=
  update_pool p (set__end_time now);;
  P ← get_pool p;
  match _end_time P, _start_time P with
  | Some _, Some _ => log (ELog "Finished in %s.")
  | _, _ => raise AttributeError
  end.

(** [wait(self)] *)
Definition wait (now : Z) (p : loc) : M loc :=
  P ← get_pool p;
  Queue_join (_queue P);;
  finish now p;;
  mret p.

(** [Thread.start()]: a thread object can be started once. *)
Definition Thread_start (t : loc) : M unit := λ σ,
  match threads σ !! t with
  | Some (mkThread fr Unstarted) => (Ok tt, with_threads <[t := mkThread fr Alive]> σ)
  | Some _ => (Raise RuntimeError, σ)
  | None => (Raise DanglingRef, σ)
  end.

(** The body of the [for n in xrange(self._pool_size)] loop of
    [_build_pool], [n] times. *)
Fixpoint spawn_workers (n : nat) (p : loc) : M unit :=
  match n with
  | O => mret tt
  | S n' =>
      thread ← alloc_thread (mkThread (WorkerLoop p) Unstarted);
      update_pool p (λ P, set__pool (_pool P ++ [thread]) P);;
      Thread_start thread;;
      spawn_workers n' p
  end.

Definition _build_pool (p : loc) : M loc :=
  update_pool p (set__pool []);;
  P ← get_pool p;
  spawn_workers (Z.to_nat (_pool_size P)) p;;
  mret p.

(** [run(self)] *)
Definition run (now : Z) (p : loc) : M loc :=
  start now p;;
  _build_pool p;;
  P ← get_pool p;
  (if is_none (_source P) then mret tt
   else
     consumer ← alloc_thread (mkThread (ConsumeStart p) Unstarted);
     update_pool p (λ P, set__pool (_pool P ++ [consumer]) P);;
     Thread_start consumer);;
  mret p.

(** [set_source(self, source)] for a [source] that is not a [ThreadPool]:
    the branch [isinstance(source, Queue)] and the [else] branch. *)
Definition set_source_nonpool (p : loc) (source : value) : M unit :=
  match source with
  | VQueue q => update_pool p (set__queue q)
  | _ => update_pool p (set__source source)
  end.

Definition attr_value (o : option loc) : value :=
  match o with Some q => VQueue q | None => VNone end.

(** [forward(self, other)]: [other.set_source(self._queue_out)] is handed
    the queue just stored, never a pool. *)
Definition forward (p other : loc) : M loc :=
  P ← get_pool p;
  q ← alloc_queue (Queue_new (_queue_capacity P));
  update_pool p (set__queue_out (Some q));;
  P' ← get_pool p;
  set_source_nonpool other (attr_value (_queue_out P'));;
  mret p.

(** [set_source(self, source)] *)
Definition set_source (p : loc) (source : value) : M unit :=
  match source with
  | VPool s => forward s p;; mret tt
  | _ => set_source_nonpool p source
  end.

(** [__rshift__(self, other)] *)
Definition rshift (p other : loc) : M loc := forward p other.

(** [ThreadPool(pool_size, source, queue_capacity, queue_timeout)] *)
Definition __init__ (pool_size : Z) (source : value) (queue_capacity : Z)
    (queue_timeout : Z) : M loc :=
  q ← alloc_queue (Queue_new queue_capacity);
  p ← alloc_pool (mkPool pool_size [] q queue_capacity queue_timeout VNone None None None);
  set_source p source;;
  mret p.

(** [jobs_count(self)]: [len(self._pool) + len(self._queue.qsize())] *)
Definition jobs_count (p : loc) : M Z :=
  P ← get_pool p;
  let a := Z.of_nat (length (_pool P)) in
  n ← Queue_qsize (_queue P);
  b ← lift (py_len (VInt n));
  mret (a + b).

Definition is_alive (σ : heap) (t : loc) : bool :=
  match threads σ !! t with
  | Some (mkThread _ Alive) => true
  | _ => false
  end.

(** [_clean_pool(self)] *)
Definition _clean_pool (p : loc) : M loc := λ σ,
  (update_pool p (λ P, set__pool (filter (λ t, is_alive σ t = true) (_pool P)) P);;
   mret p) σ.

(** ** The source consumer: [_consume] *)

(** The call [self.add(job[0], *job[1], **job[2])]: the three subscripts,
    the unpacking of [**] and [*], then the call of [add]. *)
Definition call_add (p : loc) (job : value) : M loc :=
  callback ← lift (py_getitem job 0);
  star ← lift (py_getitem job 1);
  dstar ← lift (py_getitem job 2);
  kwargs ← lift (py_mapping dstar);
  args ← lift (py_iter star);
  add p callback args kwargs.

(** One step of [_consume]; [None] is [return self]. A worker's frame is
    not a frame of [_consume] and is left alone ([thread_step] runs it). *)
Definition consume_step (fr : frame) : M (option frame) :=
  match fr with
  | ConsumeStart p =>
      P ← get_pool p;
      items ← lift (py_iter (_source P));
      mret (Some (ConsumeNext p items))
  | ConsumeNext p [] => mret None
  | ConsumeNext p (job :: rest) =>
      n ← lift (py_len job);
      if negb (n =? 3) then raise ValueError
      else mret (Some (ConsumeTry p job rest))
  | ConsumeTry p job rest =>
      try_except
        (call_add p job;; mret (Some (ConsumeNext p rest)))
        Full
        (log ESleep;; mret (Some (ConsumeTry p job rest)))
  | _ => mret (Some fr)
  end.

(** ** The worker: [_thread_run] *)

Section Workers.

(** The callables are outside the pool: [call_fun f args kwargs] is what
    calling function [f] gives, a value returned or an exception raised. *)
Variable call_fun : nat → list value → list (string * value) → value + exn.

Definition py_call (callee : value) (args : list value)
    (kwargs : list (string * value)) : outcome value :=
  match callee with
  | VFun f =>
      match call_fun f args kwargs with
      | inl v => Ok v
      | inr e => Raise e
      end
  | VQueue _ => Raise AttributeError
  | _ => Raise TypeError
  end.

(** The call of [job[0]] with [*job[1]] and [**job[2]]. *)
Definition call_job (job : value) : M value :=
  callee ← lift (py_getitem job 0);
  star ← lift (py_getitem job 1);
  dstar ← lift (py_getitem job 2);
  kwargs ← lift (py_mapping dstar);
  args ← lift (py_iter star);
  log (ECall job);;
  lift (py_call callee args kwargs).

(** One turn of the [while True] of [_thread_run]; [None] is [break]. *)
Definition _thread_run_iter (p : loc) : M (option frame) :=
  try_except
    (P ← get_pool p;
     job ← Queue_get (_queue P) (_queue_timeout P);
     try_finally
       (log (ELog "Running job.");;
        result ← call_job job;
        P1 ← get_pool p;
        match _queue_out P1 with
        | Some qo => Queue_put qo result (_queue_timeout P1)
        | None => mret tt
        end)
       (P2 ← get_pool p; Queue_task_done (_queue P2));;
     mret (Some (WorkerLoop p)))
    Empty
    (log (ELog "No jobs, quitting.");; mret None).

(** The same loop, one blocking call at a time, so that other threads can
    run while the worker waits in [get], runs the job or waits in [put].
    The queue of [get], and that of [put], is the object that the attribute
    held when the call began; [task_done] goes to what [self._queue] is when
    the [finally] clause runs. [None] is [break]. A consumer's frame is left
    alone. *)
Definition worker_step (fr : frame) : M (option frame) :=
  match fr with
  | WorkerLoop p =>
      P ← get_pool p;
      mret (Some (WorkerGet p (_queue P) (_queue_timeout P)))
  | WorkerGet p q timeout =>
      try_except
        (job ← Queue_get q timeout; mret (Some (WorkerCall p job)))
        Empty
        (log (ELog "No jobs, quitting.");; mret None)
  | WorkerCall p job =>
      r ← rescue (log (ELog "Running job.");;
                  result ← call_job job;
                  P1 ← get_pool p;
                  mret (result, P1));
      match r with
      | inl (result, P1) =>
          match _queue_out P1 with
          | Some qo => mret (Some (WorkerPut p qo (_queue_timeout P1) result))
          | None => mret (Some (WorkerFinally p None))
          end
      | inr e => mret (Some (WorkerFinally p (Some e)))
      end
  | WorkerPut p qo timeout result =>
      r ← rescue (Queue_put qo result timeout);
      match r with
      | inl _ => mret (Some (WorkerFinally p None))
      | inr e => mret (Some (WorkerFinally p (Some e)))
      end
  | WorkerFinally p raised =>
      try_except
        (P2 ← get_pool p;
         Queue_task_done (_queue P2);;
         match raised with
         | Some e => raise e
         | None => mret (Some (WorkerLoop p))
         end)
        Empty
        (log (ELog "No jobs, quitting.");; mret None)
  | _ => mret (Some fr)
  end.

(** What a thread does when it runs alone for one turn of its loop: a
    worker at the head of its loop goes through a whole iteration, a worker
    inside an iteration takes its next step, and a consumer one step. *)
Definition thread_step (fr : frame) : M (option frame) :=
  match fr with
  | WorkerLoop p => _thread_run_iter p
  | WorkerGet _ _ _ | WorkerCall _ _ | WorkerPut _ _ _ _ | WorkerFinally _ _ =>
      worker_step fr
  | _ => consume_step fr
  end.

(** What a thread does up to its next blocking call. *)
Definition small_step (fr : frame) : M (option frame) :=
  match fr with
  | ConsumeStart _ | ConsumeNext _ _ | ConsumeTry _ _ _ => consume_step fr
  | _ => worker_step fr
  end.

(** The scheduler gives thread [t] one turn. Only a live thread runs; a
    target that returns or raises ends its thread, and the exception goes
    no further. *)
Definition sched (t : loc) : M unit := λ σ,
  match threads σ !! t with
  | Some (mkThread fr Alive) =>
      match thread_step fr σ with
      | (Ok (Some fr'), σ') => (Ok tt, with_threads <[t := mkThread fr' Alive]> σ')
      | (Ok None, σ') => (Ok tt, with_threads <[t := mkThread fr Returned]> σ')
      | (Raise e, σ') => (Ok tt, with_threads <[t := mkThread fr (Died e)]> σ')
      | (Blocked, σ') => (Ok tt, σ')
      end
  | _ => (Ok tt, σ)
  end.

(** The scheduler gives thread [t] one step, and may give the next one to
    any other thread. *)
Definition step (t : loc) : M unit := λ σ,
  match threads σ !! t with
  | Some (mkThread fr Alive) =>
      match small_step fr σ with
      | (Ok (Some fr'), σ') => (Ok tt, with_threads <[t := mkThread fr' Alive]> σ')
      | (Ok None, σ') => (Ok tt, with_threads <[t := mkThread fr Returned]> σ')
      | (Raise e, σ') => (Ok tt, with_threads <[t := mkThread fr (Died e)]> σ')
      | (Blocked, σ') => (Ok tt, σ')
      end
  | _ => (Ok tt, σ)
  end.

(** ** Histories: calls from any thread, in any order *)

Inductive op : Type :=
| OInit (pool_size : Z) (source : value) (queue_capacity queue_timeout : Z)
| ONewQueue (maxsize : Z)
| OAdd (p : loc) (callback : value) (args : list value) (kwargs : list (string * value))
| OWait (now : Z) (p : loc)
| ORun (now : Z) (p : loc)
| OStart (now : Z) (p : loc)
| OFinish (now : Z) (p : loc)
| OForward (p other : loc)
| OSetSource (p : loc) (source : value)
| OJobsCount (p : loc)
| OBuildPool (p : loc)
| OCleanPool (p : loc)
| OPut (q : loc) (item : value) (timeout : Z)
| OGet (q : loc) (timeout : Z)
| OTaskDone (q : loc)
| OSched (t : loc)
| OStep (t : loc).

Definition exec {A} (m : M A) (σ : heap) : heap := (m σ).2.

Definition exec_op (o : op) : heap → heap :=
  match o with
  | OInit n s c t => exec (__init__ n s c t)
  | ONewQueue n => exec (alloc_queue (Queue_new n))
  | OAdd p f a k => exec (add p f a k)
  | OWait now p => exec (wait now p)
  | ORun now p => exec (run now p)
  | OStart now p => exec (start now p)
  | OFinish now p => exec (finish now p)
  | OForward p o => exec (forward p o)
  | OSetSource p s => exec (set_source p s)
  | OJobsCount p => exec (jobs_count p)
  | OBuildPool p => exec (_build_pool p)
  | OCleanPool p => exec (_clean_pool p)
  | OPut q x t => exec (Queue_put q x t)
  | OGet q t => exec (Queue_get q t)
  | OTaskDone q => exec (Queue_task_done q)
  | OSched t => exec (sched t)
  | OStep t => exec (step t)
  end.

Definition exec_ops (os : list op) (σ : heap) : heap :=
  foldl (λ s o, exec_op o s) σ os.

End Workers.

(** ** Sample runs *)

Module Samples.

(** Function 0 doubles its argument, function 1 raises, any other returns
    [None]. *)
Definition funs (f : nat) (args : list value) (kwargs : list (string * value))
    : value + exn :=
  match f, args with
  | O, [VInt x] => inl (VInt (2 * x))
  | 1%nat, _ => inr (JobError 7)
  | _, _ => inl VNone
  end.

Definition two_pools : heap :=
  exec_ops funs [OInit 2 VNone 3 500; OInit 2 VNone 1 500] empty_heap.

Definition three_pools : heap :=
  exec_ops funs [OInit 2 VNone 3 500; OInit 2 VNone 1 500; OInit 1 VNone 5 500]
    empty_heap.

(** Pool 0 is fed and forwarded to pool 1, pool 1 is run, and someone
    takes the job out of pool 0's queue; pool 0 itself is never run. *)
Definition history : list op :=
  [OAdd 0%nat (VFun 0) [VInt 1] []; OForward 0%nat 1%nat;
   ORun 3 1%nat; OGet 0%nat 10; OTaskDone 0%nat].

(** The two pools of [two_pools]. *)
Definition pool0 : ThreadPool := mkPool 2 [] 0%nat 3 500 VNone None None None.
Definition pool1 : ThreadPool := mkPool 2 [] 1%nat 1 500 VNone None None None.

(** Pool 1 of [two_pools], whose queue has room for one job, with one job. *)
Definition one_job : value := job_tuple (VFun 0) [VInt 1] [].
Definition filled : heap := exec_ops funs [OAdd 1%nat (VFun 0) [VInt 1] []] two_pools.
Definition full_queue : Queue := mkQueue 1 [one_job] 1.


(** A pool with one worker, run with nothing to do. *)
Definition idle : heap := exec_ops funs [OInit 1 VNone 3 500; ORun 0 0%nat] empty_heap.
Definition idle_pool : ThreadPool :=
  mkPool 1 [0%nat] 0%nat 3 500 VNone None (Some 0) None.

(** A pool fed from a list whose first item is a pair; its consumer
    (thread 1) has started to iterate. *)
Definition pair_item : value := VTuple [VFun 0; VTuple []].
Definition feeding : heap :=
  exec_ops funs [OInit 1 (VList [pair_item; one_job]) 3 500; ORun 0 0%nat; OSched 1%nat]
    empty_heap.

(** A second table of callables: 0 doubles its argument, 1 raises, 2
    raises [Empty], 3 returns a job for the next pool, any other returns
    [None]. *)
Definition callables (f : nat) (args : list value) (kwargs : list (string * value))
    : value + exn :=
  match f with
  | 0%nat => match args with [VInt x] => inl (VInt (2 * x)) | _ => inl VNone end
  | 1%nat => inr (JobError 7)
  | 2%nat => inr Empty
  | 3%nat => inl (job_tuple (VFun 0) [VInt 21] [])
  | _ => inl VNone
  end.

(** A running pool with one worker and one queued call of function [f]. *)
Definition busy (f : nat) : heap :=
  exec_ops callables [OInit 1 VNone 3 500; ORun 0 0%nat; OAdd 0%nat (VFun f) [] []]
    empty_heap.
Definition busy_queue (f : nat) : Queue := mkQueue 3 [job_tuple (VFun f) [] []] 1.

(** Pool 0 forwards to pool 1 through queue 2, which is full; pool 0 runs
    and has one job. *)
Definition clogged : heap :=
  exec_ops callables
    [OInit 1 VNone 1 500; OInit 1 VNone 1 500; OForward 0%nat 1%nat;
     OPut 2%nat VNone 500; ORun 0 0%nat; OAdd 0%nat (VFun 0) [VInt 1] []]
    empty_heap.
Definition clogged_pool : ThreadPool :=
  mkPool 1 [0%nat] 0%nat 1 500 VNone (Some 2%nat) (Some 0) None.

(** Pool 0 forwards to pool 1 through queue 2; both run, and pool 0 has a
    job that returns a job. *)
Definition pipeline : heap :=
  exec_ops callables
    [OInit 1 VNone 3 500; OInit 1 VNone 3 500; OForward 0%nat 1%nat;
     ORun 0 0%nat; ORun 1 1%nat; OAdd 0%nat (VFun 3) [] []]
    empty_heap.
Definition first_stage : ThreadPool :=
  mkPool 1 [0%nat] 0%nat 3 500 VNone (Some 2%nat) (Some 0) None.
Definition second_stage : ThreadPool :=
  mkPool 1 [1%nat] 2%nat 3 500 VNone None (Some 1) None.

(** A pool whose source is a list of two jobs. *)
Definition sourced : heap :=
  exec_ops funs [OInit 1 (VList [one_job; one_job]) 3 500] empty_heap.
Definition sourced_pool : ThreadPool :=
  mkPool 1 [] 0%nat 3 500 (VList [one_job; one_job]) None None None.

(** Two pools; pool 1 runs and has a job queued. *)
Definition downstream_busy : heap :=
  exec_ops funs
    [OInit 1 VNone 3 500; OInit 1 VNone 3 500; ORun 0 1%nat;
     OAdd 1%nat (VFun 0) [VInt 1] []]
    empty_heap.
Definition upstream_pool : ThreadPool :=
  mkPool 1 [] 0%nat 3 500 VNone None None None.
Definition downstream_pool : ThreadPool :=
  mkPool 1 [0%nat] 1%nat 3 500 VNone None (Some 0) None.

Definition pool2 : ThreadPool := mkPool 1 [] 2%nat 5 500 VNone None None None.

(** Two pools; pool 1 runs with two workers and has a job queued; its first
    worker (thread 0) has called [get] and waits, the second (thread 1) is
    at the head of its loop. *)
Definition one_waiting : heap :=
  exec_ops funs
    [OInit 1 VNone 3 500; OInit 2 VNone 3 500; ORun 0 1%nat;
     OAdd 1%nat (VFun 0) [VInt 1] []; OStep 0%nat]
    empty_heap.
Definition two_workers_pool : ThreadPool :=
  mkPool 2 [0%nat; 1%nat] 1%nat 3 500 VNone None (Some 0) None.

(** A pool built with capacity 0, and a running pool with timeout -1. *)
Definition unbounded : heap := exec_ops funs [OInit 1 VNone 0 500] empty_heap.
Definition unbounded_pool : ThreadPool :=
  mkPool 1 [] 0%nat 0 500 VNone None None None.
Definition hasty : heap :=
  exec_ops funs [OInit 1 VNone 3 (-1); ORun 0 0%nat] empty_heap.
Definition hasty_pool : ThreadPool :=
  mkPool 1 [0%nat] 0%nat 3 (-1) VNone None (Some 0) None.

(** A pool with no worker whose source holds a job with a keyword named
    [callback]; its consumer (thread 0) has reached the retry loop. *)
Definition clashing_job : value := job_tuple (VFun 0) [] [("callback"%string, VInt 1)].
Definition clashing : heap :=
  exec_ops funs
    [OInit 0 (VList [clashing_job]) 3 500; ORun 0 0%nat; OSched 0%nat; OSched 0%nat]
    empty_heap.

(** A running pool with one worker, and an integer in its queue. *)
Definition fed_an_integer : heap :=
  exec_ops funs [OInit 1 VNone 3 500; ORun 0 0%nat; OPut 0%nat (VInt 8) 500] empty_heap.

(** A second job for the same function. *)
Definition second_job : value := job_tuple (VFun 0) [VInt 2] [].

(** A pool is given another input queue while its worker is at the head of
    its loop; two jobs are added, and the worker takes the first. *)
Definition job_in_hand_history : list op :=
  [OInit 1 VNone 3 500; OInit 1 VNone 3 500; ORun 0 0%nat; OForward 1%nat 0%nat;
   OAdd 0%nat (VFun 0) [VInt 1] []; OAdd 0%nat (VFun 0) [VInt 2] [];
   OStep 0%nat; OStep 0%nat].
Definition job_in_hand : heap := exec_ops funs job_in_hand_history empty_heap.


(** A pool is given another input queue while its worker runs a job. *)
Definition rewired_mid_job_history : list op :=
  [OInit 1 VNone 3 500; OInit 1 VNone 3 500; ORun 0 0%nat;
   OAdd 0%nat (VFun 0) [VInt 1] []; OStep 0%nat; OStep 0%nat;
   OForward 1%nat 0%nat; OAdd 0%nat (VFun 0) [VInt 2] [];
   OStep 0%nat; OStep 0%nat].
Definition rewired_mid_job : heap := exec_ops funs rewired_mid_job_history empty_heap.

End Samples.

(** * Vocabulary of the properties *)

(** A call that starts no pool outside [startable]. *)
Definition starts_only (startable : loc → Prop) (o : op) : Prop :=
  match o with
  | ORun _ p | OStart _ p => startable p
  | _ => True
  end.

(** [preserves I m]: whatever [m] does (return, raise or block), it takes a
    store where [I] holds to a store where [I] holds. *)
Definition preserves {A} (I : heap → Prop) (m : M A) : Prop :=
  ∀ σ, I σ → I (m σ).2.

(** An attribute write that is not the one in [start]. *)
Definition keeps_start (f : ThreadPool → ThreadPool) : Prop :=
  ∀ P, _start_time (f P) = _start_time P.

(** What an invariant has to survive for every queue call to keep it. *)
Record queue_stable (I : heap → Prop) : Prop := {
  qs_log : ∀ e, preserves I (log e);
  qs_put : ∀ q x t, preserves I (Queue_put q x t);
  qs_get : ∀ q t, preserves I (Queue_get q t);
  qs_task_done : ∀ q, preserves I (Queue_task_done q)
}.

(** What it has to survive for every method but [start] to keep it. *)
Record stable (I : heap → Prop) : Prop := {
  st_queue :> queue_stable I;
  st_alloc_queue : ∀ n, preserves I (alloc_queue (Queue_new n));
  st_alloc_pool : ∀ P, _start_time P = None → preserves I (alloc_pool P);
  st_alloc_thread : ∀ fr, preserves I (alloc_thread (mkThread fr Unstarted));
  st_update_pool : ∀ p f, keeps_start f → preserves I (update_pool p f);
  st_thread_start : ∀ t, preserves I (Thread_start t);
  st_thread_end : ∀ σ t fr T,
    I σ → threads σ !! t = Some (mkThread fr Alive) →
    I (with_threads <[t := T]> σ)
}.

(** [self._start_time] was never assigned. *)
Definition never_started (p : loc) (σ : heap) : Prop :=
  ∃ P, pools σ !! p = Some P ∧ _start_time P = None.

(** Every bounded queue holds at most [maxsize] items. *)
Definition bounded (σ : heap) : Prop :=
  ∀ q Q, queues σ !! q = Some Q → 0 < maxsize Q → qsize Q ≤ maxsize Q.

(** A source that [set_source] turns into the pool's input queue: a queue,
    or a pool, which forwards a new queue of its own. *)
Definition hands_queue (source : value) : bool :=
  match source with
  | VQueue _ | VPool _ => true
  | _ => false
  end.

(** A call that gives pool [p] no other input queue. *)
Definition keeps_input (p : loc) (o : op) : Prop :=
  match o with
  | OForward _ other => other ≠ p
  | OSetSource p' source => hands_queue source = true → p' ≠ p
  | _ => True
  end.

(** An attribute write that leaves the input queue and its configuration
    alone. *)
Definition keeps_queue (f : ThreadPool → ThreadPool) : Prop :=
  ∀ P, _queue (f P) = _queue P ∧ _queue_capacity (f P) = _queue_capacity P ∧
       _queue_timeout (f P) = _queue_timeout P.

(** Pool [p] has the capacity [c] and the timeout it was constructed with,
    and reads a queue built with that capacity that is within it. *)
Definition within_capacity (p : loc) (c timeout : Z) (σ : heap) : Prop :=
  ∃ P Q, pools σ !! p = Some P ∧ _queue_capacity P = c ∧
         _queue_timeout P = timeout ∧
         queues σ !! _queue P = Some Q ∧ maxsize Q = c ∧
         (0 < c → qsize Q ≤ c).

(** Queue [q] exists and was built with capacity [n]. *)
Definition has_maxsize (q : loc) (n : Z) (σ : heap) : Prop :=
  ∃ Q, queues σ !! q = Some Q ∧ maxsize Q = n.

(** A thread that is over: its target returned or raised. *)
Definition is_over (st : run_state) : bool :=
  match st with
  | Returned | Died _ => true
  | Unstarted | Alive => false
  end.

(** Thread [t] is [T]. *)
Definition thread_is (t : loc) (T : Thread) (σ : heap) : Prop :=
  threads σ !! t = Some T.

(** The queues on which [task_done] was called, in order. *)
Definition task_done_calls (evs : list event) : list loc :=
  omap (λ e, match e with ETaskDone q => Some q | _ => None end) evs.

(** [σ'] comes after [σ] with the same pools, no queue lost, and no call
    of [task_done] in between. *)
Definition quietly (σ σ' : heap) : Prop :=
  pools σ' = pools σ ∧
  (∀ q, is_Some (queues σ !! q) → is_Some (queues σ' !! q)) ∧
  ∃ evs, trace σ' = trace σ ++ evs ∧ task_done_calls evs = [].

(** [m] returns or raises, and does so quietly. *)
Definition quiet {A} (m : M A) : Prop :=
  ∀ σ, (m σ).1 ≠ Blocked ∧ quietly σ (m σ).2.

(** The consumer thread takes one step after each entry of [envs], which is
    what the other threads did to the store in the meantime. *)
Fixpoint consume_run (envs : list (heap → heap)) (fr : frame) (σ : heap)
    : outcome (option frame) * heap :=
  match envs with
  | [] => (Ok (Some fr), σ)
  | env :: envs' =>
      match consume_step fr (env σ) with
      | (Ok (Some fr'), σ') => consume_run envs' fr' σ'
      | r => r
      end
  end.





(** The pool's input queue ends with [item]. *)
Definition last_queued (p : loc) (item : value) (σ : heap) : Prop :=
  ∃ P Q front, pools σ !! p = Some P ∧ queues σ !! _queue P = Some Q ∧
               queue Q = front ++ [item].

(** What [forward] does to the store. *)
Definition forwarded (a b : loc) (Pa Pb : ThreadPool) (σ : heap) : heap :=
  let q := fresh (dom (queues σ)) in
  with_pools (λ m, <[b := set__queue q Pb]> (<[a := set__queue_out (Some q) Pa]> m))
    (with_queues <[q := Queue_new (_queue_capacity Pa)]> σ).

(** Pool [a]'s output queue is pool [b]'s input queue. *)
Definition wired (a b : loc) (σ : heap) : bool :=
  match pools σ !! a, pools σ !! b with
  | Some Pa, Some Pb =>
      match _queue_out Pa with
      | Some q =>
          Nat.eqb q (_queue Pb) &&
          match queues σ !! q with Some _ => true | None => false end
      | None => false
      end
  | _, _ => false
  end.

(** [ps[0].forward(ps[1]); ps[1].forward(ps[2]); ...] *)
Fixpoint forward_chain (ps : list loc) : M unit :=
  match ps with
  | a :: (b :: _) as rest => forward a b;; forward_chain rest
  | _ => mret tt
  end.

(** [a >> b >> c], which Python reads as [(a >> b) >> c]. *)
Definition rshift_chain (a b c : loc) : M loc :=
  r ← rshift a b; rshift r c.

(** A frame of [_consume]. *)
Definition in_consume (fr : frame) : bool :=
  match fr with
  | ConsumeStart _ | ConsumeNext _ _ | ConsumeTry _ _ _ => true
  | _ => false
  end.

(** Thread [T] runs [_consume] for pool [p]. *)
Definition is_consumer_of (p : loc) (T : Thread) : bool :=
  match thread_frame T with
  | ConsumeStart p' | ConsumeNext p' _ | ConsumeTry p' _ _ => Nat.eqb p p'
  | _ => false
  end.

(** One of the threads of pool [p] is a consumer. *)
Definition has_consumer (p : loc) (σ : heap) : bool :=
  match pools σ !! p with
  | Some P =>
      existsb (λ t, match threads σ !! t with
                    | Some T => is_consumer_of p T
                    | None => false
                    end) (_pool P)
  | None => false
  end.

(** Pool [a] puts its results on [q], which is not its own input queue. *)
Definition output_of (a q : loc) (σ : heap) : Prop :=
  ∃ P, pools σ !! a = Some P ∧ _queue_out P = Some q ∧ q ≠ _queue P.

(** [job] is the next item that a worker of pool [a] dequeues. *)
Definition job_at_head (a : loc) (job : value) (σ : heap) : Prop :=
  ∃ P Q rest, pools σ !! a = Some P ∧ queues σ !! _queue P = Some Q ∧
              queue Q = job :: rest ∧ 0 ≤ _queue_timeout P.

Definition has_room (q : loc) (σ : heap) : Prop :=
  ∃ Q, queues σ !! q = Some Q ∧ full Q = false.

Definition queue_ends_with (q : loc) (v : value) (σ : heap) : Prop :=
  ∃ Q front, queues σ !! q = Some Q ∧ queue Q = front ++ [v].

Definition is_callable (v : value) : bool :=
  match v with VFun _ => true | _ => false end.
Definition is_sequence (v : value) : bool :=
  match v with VTuple _ | VList _ => true | _ => false end.
Definition is_mapping (v : value) : bool :=
  match v with VDict _ => true | _ => false end.

(** A triple of a callable, a sequence of positional arguments and a
    mapping of keyword arguments. *)
Definition valid_job (v : value) : bool :=
  match v with
  | VTuple [f; a; k] | VList [f; a; k] =>
      is_callable f && is_sequence a && is_mapping k
  | _ => false
  end.

(** What can stand after [*] in a call. *)
Definition is_iterable (v : value) : bool :=
  match v with
  | VTuple _ | VList _ | VIter _ | VStr _ | VDict _ => true
  | _ => false
  end.

(** An item that unpacks into a call of [add]: a sequence of three
    components, the second iterable, the third a dict none of whose keys is
    [self] or [callback]. The first component is anything. *)
Definition unpacks (item : value) : bool :=
  match item with
  | VTuple [_; a; VDict d] | VList [_; a; VDict d] =>
      is_iterable a && negb (has_key "self" d || has_key "callback" d)
  | _ => false
  end.

(** A triple whose first component is the integer 1. *)
Definition uncallable_job : value := VTuple [VInt 1; VTuple []; VDict []].

(** The store after a worker's turn on a job taken from queue [q]: the
    queue holds the rest, one task fewer is unfinished, and the turn's
    events follow the trace. *)
Definition turn_store (q : loc) (Q : Queue) (rest : list value)
    (evs : list event) (σ : heap) : heap :=
  with_queues <[q := mkQueue (maxsize Q) rest (unfinished_tasks Q - 1)]>
    (with_trace (λ tr, tr ++ evs) σ).

(** A job given by its callable, its positional and its keyword arguments. *)
Definition job_of (j : value * list value * list (string * value)) : value :=
  job_tuple j.1.1 j.1.2 j.2.

(** The keyword names of [j] are not names of parameters of [add]. *)
Definition clash_free (j : value * list value * list (string * value)) : bool :=
  negb (has_key "self" j.2 || has_key "callback" j.2).

(** [n] steps in a row, with no other thread in between. *)
Definition alone (n : nat) : list (heap → heap) := replicate n (λ s, s).

(** One [add] per job of [jobs], in order. *)
Definition adds (p : loc) (jobs : list (value * list value * list (string * value)))
    : list op :=
  (λ j, OAdd p j.1.1 j.1.2 j.2) <$> jobs.

(** A call that is not a bare [task_done] on a queue. *)
Definition no_bare_task_done (o : op) : Prop :=
  match o with
  | OTaskDone _ => False
  | _ => True
  end.

(** ** One iteration of the worker loop, step by step *)

(** [m], then [k] from the frame that [m] leaves, unless the thread is over. *)
Definition and_then (m : M (option frame)) (k : frame → M (option frame))
    : M (option frame) := λ σ,
  match m σ with
  | (Ok (Some fr), σ') => k fr σ'
  | r => r
  end.

(** What [except Empty] makes of an exception that reaches it. *)
Definition except_Empty (e : exn) (σ : heap) : outcome (option frame) * heap :=
  if exn_eqb e Empty
  then (Ok None, with_trace (λ tr, tr ++ [ELog "No jobs, quitting."]) σ)
  else (Raise e, σ).

(** What the [finally] clause of the worker and the [except Empty] around
    it make of the outcome of the inner [try] body. *)
Definition finally_done (p : loc) (x : outcome unit * heap)
    : outcome (option frame) * heap :=
  match x with
  | (Blocked, σ3) => (Blocked, σ3)
  | (r, σ3) =>
      match pools σ3 !! p with
      | None => (Raise DanglingRef, σ3)
      | Some P2 =>
          match Queue_task_done (_queue P2) σ3 with
          | (Ok _, σ4) =>
              match r with
              | Raise e => except_Empty e σ4
              | _ => (Ok (Some (WorkerLoop p)), σ4)
              end
          | (Raise e', σ4) => except_Empty e' σ4
          | (Blocked, σ4) => (Blocked, σ4)
          end
      end
  end.

(** The inner [try] body of [_thread_run] for a job in hand. *)
Definition job_body (call_fun : nat → list value → list (string * value) → value + exn)
    (p : loc) (job : value) : M unit :=
  log (ELog "Running job.");;
  result ← call_job call_fun job;
  P1 ← get_pool p;
  match _queue_out P1 with
  | Some qo => Queue_put qo result (_queue_timeout P1)
  | None => mret tt
  end.

(** The steps of one iteration of the worker loop, taken in a row. *)
Definition turn_in_steps (call_fun : nat → list value → list (string * value) → value + exn)
    (p : loc) : M (option frame) :=
  and_then (worker_step call_fun (WorkerLoop p)) (λ fr1,
  and_then (worker_step call_fun fr1) (λ fr2,
  and_then (worker_step call_fun fr2) (λ fr3,
  match fr3 with
  | WorkerPut _ _ _ _ => and_then (worker_step call_fun fr3) (worker_step call_fun)
  | _ => worker_step call_fun fr3
  end))).

(** ** The count of unfinished tasks *)

(** The pool that a frame works for. *)
Definition frame_pool (fr : frame) : loc :=
  match fr with
  | WorkerLoop p | WorkerGet p _ _ | WorkerCall p _ | WorkerPut p _ _ _
  | WorkerFinally p _ | ConsumeStart p | ConsumeNext p _ | ConsumeTry p _ _ => p
  end.

(** A worker that has taken a job and has not yet called [task_done] for
    it. *)
Definition has_job (T : Thread) : bool :=
  negb (is_over (thread_state T)) &&
  match thread_frame T with
  | WorkerCall _ _ | WorkerPut _ _ _ _ | WorkerFinally _ _ => true
  | _ => false
  end.

(** A worker that waits in [get]. *)
Definition in_get (T : Thread) : bool :=
  negb (is_over (thread_state T)) &&
  match thread_frame T with
  | WorkerGet _ _ _ => true
  | _ => false
  end.

(** Thread [T] has a job whose [task_done] will go to queue [q], the input
    queue of its pool. *)
Definition holds (ps : gmap loc ThreadPool) (q : loc) (T : Thread) : bool :=
  has_job T &&
  match ps !! frame_pool (thread_frame T) with
  | Some P => bool_decide (_queue P = q)
  | None => false
  end.

(** The number of jobs taken and not yet marked done that queue [q] is
    owed a [task_done] for. *)
Definition owed_on (ps : gmap loc ThreadPool) (ts : gmap loc Thread) (q : loc) : Z :=
  Z.of_nat (size (filter (λ tT, holds ps q tT.2 = true) ts)).

Definition owed (σ : heap) (q : loc) : Z := owed_on (pools σ) (threads σ) q.

(** Every thread works for a pool of the store; a worker that waits in
    [get] waits on the input queue of its pool; and every queue has at least
    as many unfinished tasks as it holds items and is owed calls of
    [task_done]. *)
Definition settled_on (qs : gmap loc Queue) (ps : gmap loc ThreadPool)
    (ts : gmap loc Thread) : Prop :=
  (∀ t T, ts !! t = Some T → is_Some (ps !! frame_pool (thread_frame T))) ∧
  (∀ t p q timeout st,
     ts !! t = Some (mkThread (WorkerGet p q timeout) st) → is_over st = false →
     ∃ P, ps !! p = Some P ∧ _queue P = q) ∧
  (∀ q, match qs !! q with
        | Some Q => qsize Q + owed_on ps ts q ≤ unfinished_tasks Q
        | None => owed_on ps ts q = 0
        end).

Definition settled (σ : heap) : Prop :=
  settled_on (queues σ) (pools σ) (threads σ).

(** A worker of pool [b] that is inside an iteration of its loop: in [get]
    or with a job. *)
Definition engaged (b : loc) (T : Thread) : bool :=
  (in_get T || has_job T) && Nat.eqb (frame_pool (thread_frame T)) b.

(** No worker of pool [b] is inside an iteration. *)
Definition at_rest (b : loc) (ts : gmap loc Thread) : Prop :=
  ∀ t T, ts !! t = Some T → engaged b T = false.

(** The pool that a call gives another input queue. *)
Definition rewired (o : op) : option loc :=
  match o with
  | OForward _ other => Some other
  | OSetSource p source => if hands_queue source then Some p else None
  | _ => None
  end.

(** A history in which [task_done] is left to the workers, and a pool is
    given another input queue only while none of its workers is inside an
    iteration of its loop. *)
Fixpoint orderly (call_fun : nat → list value → list (string * value) → value + exn)
    (os : list op) (σ : heap) : Prop :=
  match os with
  | [] => True
  | o :: os' =>
      no_bare_task_done o ∧
      (∀ b, rewired o = Some b → at_rest b (threads σ)) ∧
      orderly call_fun os' (exec_op call_fun o σ)
  end.

(** The invariant of a call in progress: [settled], the pools of [pre] in
    the store, and the pools of [idle] with no worker inside an iteration. *)
Definition settled_with (pre idle : list loc) (σ : heap) : Prop :=
  settled σ ∧
  Forall (λ p, is_Some (pools σ !! p)) pre ∧
  Forall (λ b, at_rest b (threads σ)) idle.

(** Thread [t] is a live worker of pool [p] at frame [fr], and the store is
    settled. *)
Definition good (t p : loc) (ts : gmap loc Thread) (fr : frame) (σ : heap) : Prop :=
  settled_on (queues σ) (pools σ) (<[t := mkThread fr Alive]> ts) ∧
  frame_pool fr = p ∧ in_consume fr = false.

(** What a step of thread [t] leaves: the thread at its next frame, or over
    at any frame of its pool; the store settled. *)
Definition good_outcome (t p : loc) (ts : gmap loc Thread)
    (x : outcome (option frame) * heap) : Prop :=
  match x with
  | (Ok (Some fr'), σ') => good t p ts fr' σ'
  | (Ok None, σ') =>
      ∀ fr0, frame_pool fr0 = p →
             settled_on (queues σ') (pools σ') (<[t := mkThread fr0 Returned]> ts)
  | (Raise e, σ') =>
      ∀ fr0, frame_pool fr0 = p →
             settled_on (queues σ') (pools σ') (<[t := mkThread fr0 (Died e)]> ts)
  | (Blocked, σ') => False
  end.

(** * Properties *)

Lemma bind_run {A B} (m : M A) (k : A → M B) (σ : heap) :
  (m ≫= k) σ =
  match m σ with
  | (Ok a, σ') => k a σ'
  | (Raise e, σ') => (Raise e, σ')
  | (Blocked, σ') => (Blocked, σ')
  end.
Proof. reflexivity. Qed.

Lemma get_pool_run (p : loc) (P : ThreadPool) (σ : heap) :
  pools σ !! p = Some P → get_pool p σ = (Ok P, σ).
Proof. intros H. unfold get_pool. by rewrite H. Qed.

Lemma get_queue_run (q : loc) (Q : Queue) (σ : heap) :
  queues σ !! q = Some Q → get_queue q σ = (Ok Q, σ).
Proof. intros H. unfold get_queue. by rewrite H. Qed.

Lemma update_pool_run (p : loc) (f : ThreadPool → ThreadPool) (P : ThreadPool) (σ : heap) :
  pools σ !! p = Some P →
  update_pool p f σ = (Ok tt, with_pools <[p := f P]> σ).
Proof. intros H. unfold update_pool. by rewrite H. Qed.

(** ** [jobs_count] *)

(** C2: on every pool of the store, [jobs_count] raises [TypeError] (the
    [len] of the integer that [qsize] returns), and returns no number. *)
Theorem jobs_count_raises (σ : heap) (p : loc) (P : ThreadPool) (Q : Queue) :
  pools σ !! p = Some P →
  queues σ !! _queue P = Some Q →
  jobs_count p σ = (Raise TypeError, σ).
Proof.
  intros HP HQ. unfold jobs_count, Queue_qsize.
  rewrite !bind_run, (get_pool_run _ _ _ HP).
  rewrite !bind_run, (get_queue_run _ _ _ HQ). reflexivity.
Qed.

Lemma jobs_count_raises_witness :
  ∃ σ, __init__ 30 VNone 100 500 empty_heap = (Ok 0%nat, σ) ∧
       jobs_count 0%nat σ = (Raise TypeError, σ).
Proof.
  eexists. split; [reflexivity |].
  eapply (jobs_count_raises _ 0%nat); reflexivity.
Defined.

(** ** Invariants of the store *)

Section Preserves.

Context (I : heap → Prop).

Lemma preserves_ret {A} (a : A) : preserves I (mret a).
Proof. intros σ H. exact H. Qed.

Lemma preserves_raise {A} (e : exn) : preserves I (@raise A e).
Proof. intros σ H. exact H. Qed.

Lemma preserves_block {A} : preserves I (@block A).
Proof. intros σ H. exact H. Qed.

Lemma preserves_lift {A} (o : outcome A) : preserves I (lift o).
Proof. intros σ H. exact H. Qed.

Lemma preserves_get_pool (p : loc) : preserves I (get_pool p).
Proof. intros σ H. unfold get_pool. by destruct (pools σ !! p). Qed.

Lemma preserves_get_queue (q : loc) : preserves I (get_queue q).
Proof. intros σ H. unfold get_queue. by destruct (queues σ !! q). Qed.

Lemma preserves_bind {A B} (m : M A) (k : A → M B) :
  preserves I m → (∀ a, preserves I (k a)) → preserves I (m ≫= k).
Proof.
  intros Hm Hk σ H. rewrite bind_run.
  specialize (Hm σ H). destruct (m σ) as [[a | e |] σ']; simpl in *; auto.
  by apply Hk.
Qed.

Lemma preserves_try_finally {A} (body : M A) (fin : M unit) :
  preserves I body → preserves I fin → preserves I (try_finally body fin).
Proof.
  intros Hb Hf σ H. unfold try_finally.
  specialize (Hb σ H). destruct (body σ) as [[a | e |] σ']; simpl in *; auto.
  - specialize (Hf σ' Hb). by destruct (fin σ') as [[[] | e |] σ''].
  - specialize (Hf σ' Hb). by destruct (fin σ') as [[[] | e' |] σ''].
Qed.

Lemma preserves_try_except {A} (body : M A) (exc : exn) (handler : M A) :
  preserves I body → preserves I handler →
  preserves I (try_except body exc handler).
Proof.
  intros Hb Hh σ H. unfold try_except.
  specialize (Hb σ H). destruct (body σ) as [[a | e |] σ']; simpl in *; auto.
  destruct (exn_eqb e exc); auto.
Qed.

Lemma preserves_rescue {A} (m : M A) : preserves I m → preserves I (rescue m).
Proof.
  intros Hm σ H. unfold rescue. specialize (Hm σ H).
  by destruct (m σ) as [[a | e |] σ'].
Qed.

End Preserves.

Ltac pres_step :=
  first
    [ apply preserves_ret
    | apply preserves_raise
    | apply preserves_block
    | apply preserves_lift
    | apply preserves_get_pool
    | apply preserves_get_queue
    | match goal with
      | |- preserves _ (mbind _ _) => apply preserves_bind; [| intros ?]
      | |- preserves _ (try_finally _ _) => apply preserves_try_finally
      | |- preserves _ (try_except _ _ _) => apply preserves_try_except
      | |- preserves _ (rescue _) => apply preserves_rescue
      end
    | match goal with
      | H : queue_stable _ |- _ =>
          first [ apply (qs_log _ H) | apply (qs_put _ H)
                | apply (qs_get _ H) | apply (qs_task_done _ H) ]
      | H : stable _ |- _ =>
          first [ apply (qs_log _ H) | apply (qs_put _ H)
                | apply (qs_get _ H) | apply (qs_task_done _ H)
                | apply (st_alloc_queue _ H)
                | apply (st_alloc_thread _ H)
                | apply (st_thread_start _ H)
                | apply (st_alloc_pool _ H); reflexivity
                | apply (st_update_pool _ H); intros ?; reflexivity ]
      | |- preserves _ (if ?b then _ else _) => destruct b
      | |- preserves _ (match ?x with _ => _ end) => destruct x
      end ].

Ltac pres := repeat pres_step.

(** The same for an invariant with rules of its own, tried by [leaf]. *)
Ltac ipres leaf :=
  repeat first
    [ apply preserves_ret
    | apply preserves_raise
    | apply preserves_block
    | apply preserves_lift
    | apply preserves_get_pool
    | apply preserves_get_queue
    | match goal with
      | |- preserves _ (mbind _ _) => apply preserves_bind; [| intros ?]
      | |- preserves _ (try_finally _ _) => apply preserves_try_finally
      | |- preserves _ (try_except _ _ _) => apply preserves_try_except
      | |- preserves _ (rescue _) => apply preserves_rescue
      end
    | leaf
    | match goal with
      | |- preserves _ (if ?b then _ else _) => destruct b
      | |- preserves _ (match ?x with _ => _ end) => destruct x
      end ].

Section StableMethods.

Context (I : heap → Prop).

Lemma queue_stable_call_add (H : queue_stable I) p job :
  preserves I (call_add p job).
Proof. unfold call_add, add. pres. Qed.

Lemma queue_stable_consume_step (H : queue_stable I) fr :
  preserves I (consume_step fr).
Proof.
  pose proof (queue_stable_call_add H) as Hadd.
  unfold consume_step.
  destruct fr as [p | p q to | p job | p qo to r | p e | p | p [| job rest] | p job rest];
    pres; auto.
Qed.

Context (call_fun : nat → list value → list (string * value) → value + exn).

Lemma queue_stable_worker_step (H : queue_stable I) fr :
  preserves I (worker_step call_fun fr).
Proof. destruct fr; unfold worker_step, call_job; pres. Qed.

Lemma queue_stable_thread_step (H : queue_stable I) fr :
  preserves I (thread_step call_fun fr).
Proof.
  pose proof (queue_stable_consume_step H) as Hc.
  pose proof (queue_stable_worker_step H) as Hw.
  destruct fr; first [apply Hw | apply Hc | idtac].
  unfold thread_step, _thread_run_iter, call_job. pres.
Qed.

Lemma queue_stable_small_step (H : queue_stable I) fr :
  preserves I (small_step call_fun fr).
Proof.
  pose proof (queue_stable_consume_step H) as Hc.
  pose proof (queue_stable_worker_step H) as Hw.
  destruct fr; first [apply Hw | apply Hc].
Qed.

End StableMethods.

(** The queue calls and the log leave the thread table alone. *)
Lemma threads_queue_stable (X : gmap loc Thread) :
  queue_stable (λ σ, threads σ = X).
Proof.
  split.
  - intros e σ H. exact H.
  - intros q x t σ H. unfold Queue_put.
    destruct (queues σ !! q) as [Q |]; [| exact H].
    destruct ((0 <? maxsize Q) && (t <? 0)); [exact H |].
    destruct (full Q); exact H.
  - intros q t σ H. unfold Queue_get.
    destruct (queues σ !! q) as [Q |]; [| exact H].
    destruct (t <? 0); [exact H |]. destruct (queue Q); exact H.
  - intros q σ H. unfold Queue_task_done.
    destruct (queues σ !! q) as [Q |]; [| exact H].
    simpl. destruct (unfinished_tasks Q - 1 <? 0); exact H.
Qed.

Section StableOps.

Context (I : heap → Prop) (HI : stable I).
Context (call_fun : nat → list value → list (string * value) → value + exn).

(** The pools that [I] allows to be started. *)
Context (startable : loc → Prop).
Context (Hstart : ∀ p now, startable p →
                  preserves I (update_pool p (set__start_time now))).

Lemma stable_add p f a k : preserves I (add p f a k).
Proof. unfold add. pres. Qed.

Lemma stable_finish now p : preserves I (finish now p).
Proof. unfold finish. pres. Qed.

Lemma stable_wait now p : preserves I (wait now p).
Proof. pose proof stable_finish. unfold wait, Queue_join. pres; auto. Qed.

Lemma stable_start now p : startable p → preserves I (start now p).
Proof. intros Hp. unfold start. pres. by apply Hstart. Qed.

Lemma stable_spawn_workers n p : preserves I (spawn_workers n p).
Proof. induction n as [| n IH]; simpl; pres; auto. Qed.

Lemma stable_build_pool p : preserves I (_build_pool p).
Proof. pose proof stable_spawn_workers. unfold _build_pool. pres; auto. Qed.

Lemma stable_run now p : startable p → preserves I (run now p).
Proof.
  intros Hp. pose proof stable_build_pool. pose proof (stable_start now p Hp).
  unfold run. pres; auto.
Qed.

Lemma stable_set_source_nonpool p s : preserves I (set_source_nonpool p s).
Proof. unfold set_source_nonpool. pres. Qed.

Lemma stable_forward p o : preserves I (forward p o).
Proof. pose proof stable_set_source_nonpool. unfold forward. pres; auto. Qed.

Lemma stable_set_source p s : preserves I (set_source p s).
Proof.
  pose proof stable_forward. pose proof (stable_set_source_nonpool p s).
  unfold set_source. destruct s; auto. pres; auto.
Qed.

Lemma stable_init n s c t : preserves I (__init__ n s c t).
Proof. pose proof stable_set_source. unfold __init__. pres; auto. Qed.

Lemma stable_jobs_count p : preserves I (jobs_count p).
Proof. unfold jobs_count, Queue_qsize. pres. Qed.

Lemma stable_clean_pool p : preserves I (_clean_pool p).
Proof.
  intros σ H. unfold _clean_pool.
  set (f := λ P, set__pool (filter (λ t, is_alive σ t = true) (_pool P)) P).
  assert (Hp : preserves I (update_pool p f ≫= λ _, mret p)) by (subst f; pres).
  exact (Hp σ H).
Qed.

Lemma stable_sched t : preserves I (sched call_fun t).
Proof.
  intros σ H. unfold sched.
  destruct (threads σ !! t) as [[fr st] |] eqn:Ht; [| exact H].
  destruct st; try exact H.
  pose proof (queue_stable_thread_step I call_fun HI fr σ H) as H1.
  pose proof (queue_stable_thread_step _ call_fun
                (threads_queue_stable (threads σ)) fr σ eq_refl) as H2.
  destruct (thread_step call_fun fr σ) as [[[fr' |] | e |] σ']; simpl in *;
    try exact H1; eapply (st_thread_end _ HI); eauto; by rewrite H2.
Qed.

Lemma stable_step t : preserves I (step call_fun t).
Proof.
  intros σ H. unfold step.
  destruct (threads σ !! t) as [[fr st] |] eqn:Ht; [| exact H].
  destruct st; try exact H.
  pose proof (queue_stable_small_step I call_fun HI fr σ H) as H1.
  pose proof (queue_stable_small_step _ call_fun
                (threads_queue_stable (threads σ)) fr σ eq_refl) as H2.
  destruct (small_step call_fun fr σ) as [[[fr' |] | e |] σ']; simpl in *;
    try exact H1; eapply (st_thread_end _ HI); eauto; by rewrite H2.
Qed.

Lemma stable_exec_op o σ :
  starts_only startable o → I σ → I (exec_op call_fun o σ).
Proof.
  intros Ho H. destruct o; simpl in *.
  - by apply stable_init.
  - by apply (st_alloc_queue _ HI).
  - by apply stable_add.
  - by apply stable_wait.
  - by apply stable_run.
  - by apply stable_start.
  - by apply stable_finish.
  - by apply stable_forward.
  - by apply stable_set_source.
  - by apply stable_jobs_count.
  - by apply stable_build_pool.
  - by apply stable_clean_pool.
  - by apply (qs_put _ HI).
  - by apply (qs_get _ HI).
  - by apply (qs_task_done _ HI).
  - by apply stable_sched.
  - by apply stable_step.
Qed.

Lemma stable_exec_ops os σ :
  Forall (starts_only startable) os → I σ → I (exec_ops call_fun os σ).
Proof.
  intros Hos. revert σ. induction Hos as [| o os Ho Hos IH]; intros σ H.
  - exact H.
  - simpl. apply IH. by apply stable_exec_op.
Qed.

End StableOps.

(** Invariants that read one component of the store. *)

Ltac queue_cases :=
  repeat match goal with
    | |- context [match ?m !! ?k with _ => _ end] => destruct (m !! k) as [? |] eqn:?
    | |- context [if ?b then _ else _] => destruct b eqn:?
    | |- context [match queue ?Q with _ => _ end] => destruct (queue Q) eqn:?
    | |- context [match ?T with mkThread _ _ => _ end] => destruct T as [? []]
    end.

Lemma stable_of_pools (J : gmap loc ThreadPool → Prop) :
  (∀ m P, _start_time P = None → J m → J (<[fresh (dom m) := P]> m)) →
  (∀ m p P f, keeps_start f → m !! p = Some P → J m → J (<[p := f P]> m)) →
  stable (λ σ, J (pools σ)).
Proof.
  intros Halloc Hupd. split; [split |..].
  - intros e σ H. exact H.
  - intros q x t σ H. unfold Queue_put. queue_cases; exact H.
  - intros q t σ H. unfold Queue_get. queue_cases; exact H.
  - intros q σ H. unfold Queue_task_done. simpl. queue_cases; exact H.
  - intros n σ H. exact H.
  - intros P HP σ H. simpl. by apply Halloc.
  - intros fr σ H. exact H.
  - intros p f Hf σ H. unfold update_pool.
    destruct (pools σ !! p) as [P |] eqn:HP; [| exact H]. simpl. by apply Hupd.
  - intros t σ H. unfold Thread_start. queue_cases; exact H.
  - intros σ t fr T H _. exact H.
Qed.

Lemma stable_of_threads (J : gmap loc Thread → Prop) :
  (∀ m fr, J m → J (<[fresh (dom m) := mkThread fr Unstarted]> m)) →
  (∀ m t fr, m !! t = Some (mkThread fr Unstarted) → J m →
             J (<[t := mkThread fr Alive]> m)) →
  (∀ m t fr T, m !! t = Some (mkThread fr Alive) → J m → J (<[t := T]> m)) →
  stable (λ σ, J (threads σ)).
Proof.
  intros Halloc Hstart Hend. split; [split |..].
  - intros e σ H. exact H.
  - intros q x t σ H. unfold Queue_put. queue_cases; exact H.
  - intros q t σ H. unfold Queue_get. queue_cases; exact H.
  - intros q σ H. unfold Queue_task_done. simpl. queue_cases; exact H.
  - intros n σ H. exact H.
  - intros P HP σ H. exact H.
  - intros fr σ H. simpl. by apply Halloc.
  - intros p f Hf σ H. unfold update_pool. queue_cases; exact H.
  - intros t σ H. unfold Thread_start.
    destruct (threads σ !! t) as [[fr []] |] eqn:Ht; try exact H.
    simpl. by apply Hstart.
  - intros σ t fr T H Ht. simpl. by eapply Hend.
Qed.

Lemma stable_of_queues (J : gmap loc Queue → Prop) :
  (∀ m n, J m → J (<[fresh (dom m) := Queue_new n]> m)) →
  (∀ m q Q x, m !! q = Some Q → full Q = false → J m →
     J (<[q := mkQueue (maxsize Q) (queue Q ++ [x]) (unfinished_tasks Q + 1)]> m)) →
  (∀ m q Q x rest, m !! q = Some Q → queue Q = x :: rest → J m →
     J (<[q := mkQueue (maxsize Q) rest (unfinished_tasks Q)]> m)) →
  (∀ m q Q, m !! q = Some Q → J m →
     J (<[q := mkQueue (maxsize Q) (queue Q) (unfinished_tasks Q - 1)]> m)) →
  stable (λ σ, J (queues σ)).
Proof.
  intros Halloc Hput Hget Hdone. split; [split |..].
  - intros e σ H. exact H.
  - intros q x t σ H. unfold Queue_put.
    destruct (queues σ !! q) as [Q |] eqn:HQ; [| exact H].
    destruct ((0 <? maxsize Q) && (t <? 0)); [exact H |].
    destruct (full Q) eqn:Hfull; [exact H |]. simpl. by apply Hput.
  - intros q t σ H. unfold Queue_get.
    destruct (queues σ !! q) as [Q |] eqn:HQ; [| exact H].
    destruct (t <? 0); [exact H |].
    destruct (queue Q) as [| x rest] eqn:Hq; [exact H |]. simpl. by eapply Hget.
  - intros q σ H. unfold Queue_task_done.
    destruct (queues σ !! q) as [Q |] eqn:HQ; [| exact H]. simpl.
    destruct (unfinished_tasks Q - 1 <? 0); [exact H |]. simpl. by apply Hdone.
  - intros n σ H. simpl. by apply Halloc.
  - intros P HP σ H. exact H.
  - intros fr σ H. exact H.
  - intros p f Hf σ H. unfold update_pool. queue_cases; exact H.
  - intros t σ H. unfold Thread_start. queue_cases; exact H.
  - intros σ t fr T H _. exact H.
Qed.

Lemma fresh_lookup_ne {V} (m : gmap loc V) (k : loc) (v : V) :
  m !! k = Some v → fresh (dom m) ≠ k.
Proof.
  intros H E. apply (is_fresh (dom m)). rewrite E. apply elem_of_dom. eauto.
Qed.

(** ** [wait] on a pool that was never run *)

Lemma never_started_stable (p : loc) : stable (never_started p).
Proof.
  apply (stable_of_pools (λ m, ∃ P, m !! p = Some P ∧ _start_time P = None)).
  - intros m P' _ (P & HP & Hs). exists P. split; [| exact Hs].
    rewrite lookup_insert_ne; [exact HP |]. by eapply fresh_lookup_ne.
  - intros m p' P' f Hf HP' (P & HP & Hs).
    destruct (decide (p' = p)) as [-> |].
    + exists (f P'). rewrite lookup_insert_eq. split; [reflexivity |].
      rewrite Hf. congruence.
    + exists P. by rewrite lookup_insert_ne.
Qed.

Lemma never_started_other (p p' : loc) (now : Z) :
  p' ≠ p → preserves (never_started p) (update_pool p' (set__start_time now)).
Proof.
  intros Hne σ (P & HP & Hs). unfold update_pool.
  destruct (pools σ !! p') as [P' |]; [| by exists P].
  exists P. simpl. by rewrite lookup_insert_ne.
Qed.

Lemma wait_never_started (σ : heap) (p : loc) (P : ThreadPool) (Q : Queue) (now : Z) :
  pools σ !! p = Some P →
  _start_time P = None →
  queues σ !! _queue P = Some Q →
  wait now p σ =
  if unfinished_tasks Q =? 0
  then (Raise AttributeError, with_pools <[p := set__end_time now P]> σ)
  else (Blocked, σ).
Proof.
  intros HP Hs HQ. unfold wait, Queue_join, finish.
  rewrite !bind_run, (get_pool_run _ _ _ HP).
  rewrite !bind_run, (get_queue_run _ _ _ HQ).
  destruct (unfinished_tasks Q =? 0); [| reflexivity]. simpl.
  rewrite !bind_run, (update_pool_run _ _ _ _ HP).
  rewrite !bind_run. unfold get_pool. simpl. rewrite lookup_insert_eq. simpl.
  by rewrite Hs.
Qed.

(** C10: take a pool whose start time was never assigned and any history
    of calls, by any thread, in which neither [run] nor [start] is called
    on it. The start time is still unassigned afterwards, and [wait] does
    not return: once the join is over (no unfinished task) it raises
    [AttributeError] in [finish], and while tasks are unfinished it blocks. *)
Theorem wait_without_run
    (call_fun : nat → list value → list (string * value) → value + exn)
    (os : list op) (σ : heap) (p : loc) (now : Z) :
  never_started p σ →
  Forall (starts_only (λ p', p' ≠ p)) os →
  ∃ P1, pools (exec_ops call_fun os σ) !! p = Some P1 ∧
        _start_time P1 = None ∧
        ∀ Q, queues (exec_ops call_fun os σ) !! _queue P1 = Some Q →
             wait now p (exec_ops call_fun os σ) =
             if unfinished_tasks Q =? 0
             then (Raise AttributeError,
                   with_pools <[p := set__end_time now P1]> (exec_ops call_fun os σ))
             else (Blocked, exec_ops call_fun os σ).
Proof.
  intros H0 Hos.
  destruct (stable_exec_ops (never_started p) (never_started_stable p) call_fun
              (λ p', p' ≠ p) (never_started_other p) os σ Hos H0) as (P1 & HP1 & Hs1).
  exists P1. split; [exact HP1 |]. split; [exact Hs1 |].
  intros Q HQ. by apply wait_never_started.
Qed.

Lemma wait_without_run_witness :
  ∃ P1, pools (exec_ops Samples.funs Samples.history Samples.two_pools) !! 0%nat = Some P1 ∧
        _start_time P1 = None ∧
        ∀ Q, queues (exec_ops Samples.funs Samples.history Samples.two_pools)
               !! _queue P1 = Some Q →
             wait 9 0%nat (exec_ops Samples.funs Samples.history Samples.two_pools) =
             if unfinished_tasks Q =? 0
             then (Raise AttributeError,
                   with_pools <[0%nat := set__end_time 9 P1]>
                     (exec_ops Samples.funs Samples.history Samples.two_pools))
             else (Blocked, exec_ops Samples.funs Samples.history Samples.two_pools).
Proof.
  apply (wait_without_run Samples.funs Samples.history Samples.two_pools 0%nat 9).
  - eexists. split; reflexivity.
  - repeat constructor. simpl. lia.
Defined.

(** ** [add] and the bound of the queues *)

Lemma Queue_put_run (σ : heap) (q : loc) (Q : Queue) (x : value) (t : Z) :
  queues σ !! q = Some Q →
  0 ≤ t →
  Queue_put q x t σ =
  if full Q then (Raise Full, with_trace (λ tr, tr ++ [EPutFull q]) σ)
  else (Ok tt,
        with_trace (λ tr, tr ++ [EPut q x])
          (with_queues
             <[q := mkQueue (maxsize Q) (queue Q ++ [x]) (unfinished_tasks Q + 1)]> σ)).
Proof.
  intros HQ Ht. unfold Queue_put. rewrite HQ.
  replace (t <? 0) with false by (symmetry; apply Z.ltb_ge; lia).
  by rewrite andb_false_r.
Qed.

Lemma add_run (σ : heap) (p : loc) (P : ThreadPool) (Q : Queue)
    (callback : value) (args : list value) (kwargs : list (string * value)) :
  has_key "self" kwargs || has_key "callback" kwargs = false →
  pools σ !! p = Some P →
  queues σ !! _queue P = Some Q →
  0 ≤ _queue_timeout P →
  add p callback args kwargs σ =
  if full Q
  then (Raise Full, with_trace (λ tr, tr ++ [EPutFull (_queue P)]) σ)
  else (Ok p,
        with_trace (λ tr, tr ++ [EPut (_queue P) (job_tuple callback args kwargs)])
          (with_queues
             <[_queue P := mkQueue (maxsize Q)
                             (queue Q ++ [job_tuple callback args kwargs])
                             (unfinished_tasks Q + 1)]> σ)).
Proof.
  intros Hk HP HQ Ht. unfold add. rewrite Hk.
  rewrite !bind_run, (get_pool_run _ _ _ HP).
  rewrite !bind_run, (Queue_put_run _ _ _ _ _ HQ Ht).
  by destruct (full Q).
Qed.

Lemma add_clash (σ : heap) (p : loc)
    (callback : value) (args : list value) (kwargs : list (string * value)) :
  has_key "self" kwargs || has_key "callback" kwargs = true →
  add p callback args kwargs σ = (Raise TypeError, σ).
Proof. intros Hk. unfold add. by rewrite Hk. Qed.

(** C9: [add(callback, *args, **kwargs)] on a pool whose timeout is a
    duration, with keywords that [add] can take (none is named [self] or
    [callback], the names of its own parameters). When the queue has room
    the job is appended to it as the tuple [(callback, args, kwargs)] and
    [add] returns the pool; when the queue is still full at the timeout
    [add] raises [Full] to its caller and the queue is as it was. *)
Theorem add_enqueues_or_full (σ : heap) (p : loc) (P : ThreadPool) (Q : Queue)
    (callback : value) (args : list value) (kwargs : list (string * value)) :
  pools σ !! p = Some P →
  queues σ !! _queue P = Some Q →
  0 ≤ _queue_timeout P →
  has_key "self" kwargs || has_key "callback" kwargs = false →
  add p callback args kwargs σ =
  if full Q
  then (Raise Full, with_trace (λ tr, tr ++ [EPutFull (_queue P)]) σ)
  else (Ok p,
        with_trace
          (λ tr, tr ++ [EPut (_queue P) (VTuple [callback; VTuple args; VDict kwargs])])
          (with_queues
             <[_queue P := mkQueue (maxsize Q)
                             (queue Q ++ [VTuple [callback; VTuple args; VDict kwargs]])
                             (unfinished_tasks Q + 1)]> σ)).
Proof. intros HP HQ Ht Hk. exact (add_run σ p P Q callback args kwargs Hk HP HQ Ht). Qed.

Lemma full_false_room (Q : Queue) :
  full Q = false → 0 < maxsize Q → qsize Q ≤ maxsize Q → qsize Q + 1 ≤ maxsize Q.
Proof.
  unfold full. intros Hf Hm Hle.
  apply andb_false_iff in Hf as [Hf | Hf].
  - apply Z.ltb_ge in Hf. lia.
  - apply Z.eqb_neq in Hf. lia.
Qed.

Lemma bounded_stable : stable bounded.
Proof.
  apply (stable_of_queues
           (λ m, ∀ q Q, m !! q = Some Q → 0 < maxsize Q → qsize Q ≤ maxsize Q)).
  - intros m n H q Q HQ Hm.
    destruct (decide (fresh (dom m) = q)) as [E | E].
    + rewrite E, lookup_insert_eq in HQ. injection HQ as <-.
      unfold qsize. simpl in *. lia.
    + rewrite lookup_insert_ne in HQ by exact E. eauto.
  - intros m q Q x HQ Hfull H q' Q' HQ' Hm.
    destruct (decide (q = q')) as [E | E].
    + rewrite E, lookup_insert_eq in HQ'. injection HQ' as <-.
      simpl in *. specialize (H q Q HQ Hm).
      pose proof (full_false_room Q Hfull Hm H) as Hr.
      unfold qsize in *. simpl. rewrite length_app. simpl. lia.
    + rewrite lookup_insert_ne in HQ' by exact E. eauto.
  - intros m q Q x rest HQ Hq H q' Q' HQ' Hm.
    destruct (decide (q = q')) as [E | E].
    + rewrite E, lookup_insert_eq in HQ'. injection HQ' as <-.
      simpl in *. specialize (H q Q HQ Hm).
      unfold qsize in *. rewrite Hq in H. simpl in *. lia.
    + rewrite lookup_insert_ne in HQ' by exact E. eauto.
  - intros m q Q HQ H q' Q' HQ' Hm.
    destruct (decide (q = q')) as [E | E].
    + rewrite E, lookup_insert_eq in HQ'. injection HQ' as <-.
      simpl in *. exact (H q Q HQ Hm).
    + rewrite lookup_insert_ne in HQ' by exact E. eauto.
Qed.

Lemma has_maxsize_stable (q : loc) (n : Z) : stable (has_maxsize q n).
Proof.
  apply (stable_of_queues (λ m, ∃ Q, m !! q = Some Q ∧ maxsize Q = n)).
  - intros m n' (Q & HQ & Hn). exists Q. split; [| exact Hn].
    rewrite lookup_insert_ne; [exact HQ |]. by eapply fresh_lookup_ne.
  - intros m q' Q' x HQ' _ (Q & HQ & Hn).
    destruct (decide (q' = q)) as [-> |].
    + eexists. rewrite lookup_insert_eq. split; [reflexivity |]. simpl. congruence.
    + exists Q. by rewrite lookup_insert_ne.
  - intros m q' Q' x rest HQ' _ (Q & HQ & Hn).
    destruct (decide (q' = q)) as [-> |].
    + eexists. rewrite lookup_insert_eq. split; [reflexivity |]. simpl. congruence.
    + exists Q. by rewrite lookup_insert_ne.
  - intros m q' Q' HQ' (Q & HQ & Hn).
    destruct (decide (q' = q)) as [-> |].
    + eexists. rewrite lookup_insert_eq. split; [reflexivity |]. simpl. congruence.
    + exists Q. by rewrite lookup_insert_ne.
Qed.

Lemma bounded_empty : bounded empty_heap.
Proof. intros q Q HQ. simpl in HQ. by rewrite lookup_empty in HQ. Qed.

Lemma queues_start (J : gmap loc Queue → Prop) (p : loc) (now : Z) :
  preserves (λ σ, J (queues σ)) (update_pool p (set__start_time now)).
Proof. intros σ H. unfold update_pool. by destruct (pools σ !! p). Qed.

Lemma starts_only_True (os : list op) : Forall (starts_only (λ _, True)) os.
Proof. apply Forall_forall. intros o _. by destruct o. Qed.

Lemma exec_ops_app call_fun (os os' : list op) (σ : heap) :
  exec_ops call_fun (os ++ os') σ = exec_ops call_fun os' (exec_ops call_fun os σ).
Proof. apply foldl_app. Qed.

Lemma bounded_exec_ops call_fun (os : list op) (σ : heap) :
  bounded σ → bounded (exec_ops call_fun os σ).
Proof.
  apply (stable_exec_ops bounded bounded_stable call_fun (λ _, True)).
  - intros p now _. apply (queues_start (λ m, ∀ q Q, m !! q = Some Q → _)).
  - apply starts_only_True.
Qed.

Lemma has_maxsize_exec_ops call_fun (os : list op) (σ : heap) q n :
  has_maxsize q n σ → has_maxsize q n (exec_ops call_fun os σ).
Proof.
  apply (stable_exec_ops _ (has_maxsize_stable q n) call_fun (λ _, True)).
  - intros p now _. apply (queues_start (λ m, ∃ Q, m !! q = Some Q ∧ _)).
  - apply starts_only_True.
Qed.

Section Capacity.

Context (call_fun : nat → list value → list (string * value) → value + exn).
Context (p : loc) (c timeout : Z).

Lemma cap_log e : preserves (within_capacity p c timeout) (log e).
Proof. intros σ H. exact H. Qed.

Lemma cap_alloc_queue Q0 : preserves (within_capacity p c timeout) (alloc_queue Q0).
Proof.
  intros σ (P & Q & HP & Hc & Ht & HQ & Hm & Hb). exists P, Q. simpl.
  rewrite lookup_insert_ne by (by eapply fresh_lookup_ne). done.
Qed.

Lemma cap_alloc_pool P0 : preserves (within_capacity p c timeout) (alloc_pool P0).
Proof.
  intros σ (P & Q & HP & Hc & Ht & HQ & Hm & Hb). exists P, Q. simpl.
  rewrite lookup_insert_ne by (by eapply fresh_lookup_ne). done.
Qed.

Lemma cap_alloc_thread T : preserves (within_capacity p c timeout) (alloc_thread T).
Proof. intros σ H. exact H. Qed.

Lemma cap_thread_start t : preserves (within_capacity p c timeout) (Thread_start t).
Proof. intros σ H. unfold Thread_start. queue_cases; exact H. Qed.

Lemma cap_update_keep p' f :
  keeps_queue f → preserves (within_capacity p c timeout) (update_pool p' f).
Proof.
  intros Hf σ H. pose proof H as (P & Q & HP & Hc & Ht & HQ & Hm & Hb).
  unfold update_pool. destruct (pools σ !! p') as [P' |] eqn:HP'; [| exact H].
  simpl. destruct (decide (p' = p)) as [-> |].
  - rewrite HP in HP'. injection HP' as <-. exists (f P), Q. simpl.
    rewrite lookup_insert_eq. destruct (Hf P) as (E1 & E2 & E3).
    rewrite E1, E2, E3. done.
  - exists P, Q. simpl. rewrite lookup_insert_ne by done. done.
Qed.

Lemma cap_update_other p' f :
  p' ≠ p → preserves (within_capacity p c timeout) (update_pool p' f).
Proof.
  intros Hne σ H. pose proof H as (P & Q & HP & Hc & Ht & HQ & Hm & Hb).
  unfold update_pool. destruct (pools σ !! p') as [P' |] eqn:HP'; [| exact H].
  exists P, Q. simpl. rewrite lookup_insert_ne by done. done.
Qed.

Lemma cap_put q x t : preserves (within_capacity p c timeout) (Queue_put q x t).
Proof.
  intros σ H. pose proof H as (P & Q & HP & Hc & Ht & HQ & Hm & Hb).
  unfold Queue_put. destruct (queues σ !! q) as [Q1 |] eqn:HQ1; [| exact H].
  destruct ((0 <? maxsize Q1) && (t <? 0)); [exact H |].
  destruct (full Q1) eqn:Hfull; [exact H |].
  simpl. destruct (decide (q = _queue P)) as [-> |].
  - rewrite HQ in HQ1. injection HQ1 as <-.
    exists P, (mkQueue (maxsize Q) (queue Q ++ [x]) (unfinished_tasks Q + 1)).
    simpl. rewrite lookup_insert_eq. repeat split; try done. simpl. intros Hpos.
    specialize (Hb Hpos).
    assert (qsize Q + 1 ≤ maxsize Q) as Hr by (apply full_false_room; [done | lia..]).
    unfold qsize in *. simpl. rewrite length_app. simpl. lia.
  - exists P, Q. simpl. rewrite lookup_insert_ne by done. done.
Qed.

Lemma cap_get q t : preserves (within_capacity p c timeout) (Queue_get q t).
Proof.
  intros σ H. pose proof H as (P & Q & HP & Hc & Ht & HQ & Hm & Hb).
  unfold Queue_get. destruct (queues σ !! q) as [Q1 |] eqn:HQ1; [| exact H].
  destruct (t <? 0); [exact H |].
  destruct (queue Q1) as [| x rest] eqn:Hq; [exact H |].
  simpl. destruct (decide (q = _queue P)) as [-> |].
  - rewrite HQ in HQ1. injection HQ1 as <-.
    exists P, (mkQueue (maxsize Q) rest (unfinished_tasks Q)).
    simpl. rewrite lookup_insert_eq. repeat split; try done. simpl. intros Hpos.
    specialize (Hb Hpos). unfold qsize in *. rewrite Hq in Hb. simpl in *. lia.
  - exists P, Q. simpl. rewrite lookup_insert_ne by done. done.
Qed.

Lemma cap_task_done q : preserves (within_capacity p c timeout) (Queue_task_done q).
Proof.
  intros σ H. pose proof H as (P & Q & HP & Hc & Ht & HQ & Hm & Hb).
  unfold Queue_task_done. destruct (queues σ !! q) as [Q1 |] eqn:HQ1; [| exact H].
  cbv zeta. destruct (unfinished_tasks Q1 - 1 <? 0); [exact H |].
  simpl. destruct (decide (q = _queue P)) as [-> |].
  - rewrite HQ in HQ1. injection HQ1 as <-.
    exists P, (mkQueue (maxsize Q) (queue Q) (unfinished_tasks Q - 1)).
    simpl. rewrite lookup_insert_eq. done.
  - exists P, Q. simpl. rewrite lookup_insert_ne by done. done.
Qed.

Ltac cap_leaf :=
  first [ apply cap_log | apply cap_alloc_queue | apply cap_alloc_pool
        | apply cap_alloc_thread | apply cap_thread_start
        | apply cap_put | apply cap_get | apply cap_task_done
        | (apply cap_update_keep; intros ?; done) | assumption ].

Lemma cap_add p' f a k : preserves (within_capacity p c timeout) (add p' f a k).
Proof. unfold add. ipres cap_leaf. Qed.

Lemma cap_finish now p' : preserves (within_capacity p c timeout) (finish now p').
Proof. unfold finish. ipres cap_leaf. Qed.

Lemma cap_wait now p' : preserves (within_capacity p c timeout) (wait now p').
Proof. pose proof (cap_finish now p'). unfold wait, Queue_join. ipres cap_leaf. Qed.

Lemma cap_start now p' : preserves (within_capacity p c timeout) (start now p').
Proof. unfold start. ipres cap_leaf. Qed.

Lemma cap_spawn_workers n p' :
  preserves (within_capacity p c timeout) (spawn_workers n p').
Proof. induction n as [| n IH]; simpl; ipres cap_leaf. Qed.

Lemma cap_build_pool p' : preserves (within_capacity p c timeout) (_build_pool p').
Proof.
  pose proof (λ n, cap_spawn_workers n p') as Hs.
  unfold _build_pool. ipres ltac:(first [apply Hs | cap_leaf]).
Qed.

Lemma cap_run now p' : preserves (within_capacity p c timeout) (run now p').
Proof.
  pose proof (cap_build_pool p'). pose proof (cap_start now p').
  unfold run. ipres cap_leaf.
Qed.

Lemma cap_set_source_nonpool p' s :
  (hands_queue s = true → p' ≠ p) →
  preserves (within_capacity p c timeout) (set_source_nonpool p' s).
Proof.
  intros H. unfold set_source_nonpool.
  destruct s; try (apply cap_update_keep; intros ?; done).
  apply cap_update_other. by apply H.
Qed.

Lemma cap_forward a b :
  b ≠ p → preserves (within_capacity p c timeout) (forward a b).
Proof.
  intros Hb. pose proof (λ s, cap_set_source_nonpool b s (λ _, Hb)) as Hs.
  unfold forward. ipres ltac:(first [apply Hs | cap_leaf]).
Qed.

Lemma cap_set_source p' s :
  (hands_queue s = true → p' ≠ p) →
  preserves (within_capacity p c timeout) (set_source p' s).
Proof.
  intros H. pose proof (cap_set_source_nonpool p' s H) as Hs.
  unfold set_source. destruct s; try exact Hs.
  pose proof (λ a, cap_forward a p' (H eq_refl)) as Hf.
  ipres ltac:(first [apply Hf | cap_leaf]).
Qed.

Lemma cap_init n s c' t' : preserves (within_capacity p c timeout) (__init__ n s c' t').
Proof.
  intros σ H. unfold __init__.
  rewrite bind_run. unfold alloc_queue at 1. cbv beta iota zeta.
  set (σ1 := with_queues _ σ).
  assert (within_capacity p c timeout σ1) as H1
    by exact (cap_alloc_queue (Queue_new c') σ H).
  rewrite bind_run. unfold alloc_pool at 1. cbv beta iota zeta.
  set (p' := fresh (dom (pools σ1))). set (σ2 := with_pools _ σ1).
  assert (within_capacity p c timeout σ2) as H2
    by exact (cap_alloc_pool _ σ1 H1).
  assert (p' ≠ p) as Hne.
  { destruct H1 as (P & _ & HP & _). by eapply fresh_lookup_ne. }
  apply (preserves_bind _ (set_source p' s) (λ _, mret p')); [| | exact H2].
  - apply cap_set_source. by intros _.
  - intros _. apply preserves_ret.
Qed.

Lemma cap_jobs_count p' : preserves (within_capacity p c timeout) (jobs_count p').
Proof. unfold jobs_count, Queue_qsize. ipres cap_leaf. Qed.

Lemma cap_clean_pool p' : preserves (within_capacity p c timeout) (_clean_pool p').
Proof.
  intros σ H. unfold _clean_pool.
  set (f := λ P, set__pool (filter (λ t, is_alive σ t = true) (_pool P)) P).
  assert (Hp : preserves (within_capacity p c timeout) (update_pool p' f ≫= λ _, mret p'))
    by (ipres cap_leaf).
  exact (Hp σ H).
Qed.

Lemma cap_call_add p' job : preserves (within_capacity p c timeout) (call_add p' job).
Proof.
  pose proof (λ f a k, cap_add p' f a k) as Ha.
  unfold call_add. ipres ltac:(first [apply Ha | cap_leaf]).
Qed.

Lemma cap_consume_step fr : preserves (within_capacity p c timeout) (consume_step fr).
Proof.
  pose proof (λ p' job, cap_call_add p' job) as Ha.
  unfold consume_step.
  destruct fr as [p' | p' q to | p' job | p' qo to r | p' e
                 | p' | p' [| job rest] | p' job rest];
    ipres ltac:(first [apply Ha | cap_leaf]).
Qed.

Lemma cap_thread_run_iter p' :
  preserves (within_capacity p c timeout) (_thread_run_iter call_fun p').
Proof. unfold _thread_run_iter, call_job. ipres cap_leaf. Qed.

Lemma cap_worker_step fr :
  preserves (within_capacity p c timeout) (worker_step call_fun fr).
Proof. destruct fr; unfold worker_step, call_job; ipres cap_leaf. Qed.

Lemma cap_sched t : preserves (within_capacity p c timeout) (sched call_fun t).
Proof.
  intros σ H. unfold sched.
  destruct (threads σ !! t) as [[fr st] |]; [| exact H].
  destruct st; try exact H.
  assert (preserves (within_capacity p c timeout) (thread_step call_fun fr)) as Hstep.
  { destruct fr;
      first [apply cap_thread_run_iter | apply cap_worker_step | apply cap_consume_step]. }
  specialize (Hstep σ H).
  destruct (thread_step call_fun fr σ) as [[[fr' |] | e |] σ']; exact Hstep.
Qed.

Lemma cap_step t : preserves (within_capacity p c timeout) (step call_fun t).
Proof.
  intros σ H. unfold step.
  destruct (threads σ !! t) as [[fr st] |]; [| exact H].
  destruct st; try exact H.
  assert (preserves (within_capacity p c timeout) (small_step call_fun fr)) as Hstep.
  { destruct fr; first [apply cap_worker_step | apply cap_consume_step]. }
  specialize (Hstep σ H).
  destruct (small_step call_fun fr σ) as [[[fr' |] | e |] σ']; exact Hstep.
Qed.

Lemma cap_exec_op o σ :
  keeps_input p o →
  within_capacity p c timeout σ → within_capacity p c timeout (exec_op call_fun o σ).
Proof.
  intros Ho H. destruct o; simpl in *.
  - by apply cap_init.
  - by apply cap_alloc_queue.
  - by apply cap_add.
  - by apply cap_wait.
  - by apply cap_run.
  - by apply cap_start.
  - by apply cap_finish.
  - by apply cap_forward.
  - by apply cap_set_source.
  - by apply cap_jobs_count.
  - by apply cap_build_pool.
  - by apply cap_clean_pool.
  - by apply cap_put.
  - by apply cap_get.
  - by apply cap_task_done.
  - by apply cap_sched.
  - by apply cap_step.
Qed.

Lemma cap_exec_ops os σ :
  Forall (keeps_input p) os →
  within_capacity p c timeout σ → within_capacity p c timeout (exec_ops call_fun os σ).
Proof.
  intros Hos. revert σ. induction Hos as [| o os Ho Hos IH]; intros σ H.
  - exact H.
  - simpl. apply IH. by apply cap_exec_op.
Qed.

End Capacity.

Lemma init_own_queue (σ : heap) (pool_size : Z) (source : value) (c timeout : Z) :
  hands_queue source = false →
  __init__ pool_size source c timeout σ =
  (Ok (fresh (dom (pools σ))),
   with_pools
     <[fresh (dom (pools σ)) :=
         mkPool pool_size [] (fresh (dom (queues σ))) c timeout source None None None]>
     (with_queues <[fresh (dom (queues σ)) := Queue_new c]> σ)).
Proof.
  intros Hs. unfold __init__.
  rewrite bind_run. unfold alloc_queue at 1. cbv beta iota zeta.
  rewrite bind_run. unfold alloc_pool at 1. cbv beta iota zeta.
  set (q0 := fresh (dom (queues σ))).
  set (σ1 := with_queues <[q0 := Queue_new c]> σ).
  change (fresh (dom (pools σ1))) with (fresh (dom (pools σ))).
  set (p := fresh (dom (pools σ))).
  set (P0 := mkPool pool_size [] q0 c timeout VNone None None None).
  set (σ2 := with_pools <[p := P0]> σ1).
  assert (set_source p source = update_pool p (set__source source)) as ->
    by (by destruct source).
  rewrite bind_run, (update_pool_run p _ P0 σ2) by apply lookup_insert_eq.
  cbv beta iota. unfold mret, M_ret. subst σ2 σ1. unfold with_pools, with_queues.
  simpl. by rewrite insert_insert_eq.
Qed.

(** C4 (as the code has it): a pool is constructed, after any history of
    calls, with a source that is no queue and no pool, so that it keeps the
    queue that its constructor builds with capacity [queue_capacity]. Over
    every further history that hands the pool no other input queue
    (constructors, [add], raw [put]/[get]/[task_done], [run], [wait],
    scheduled workers and consumers, and forwards that do not target the
    pool), the pool's input queue still has that capacity; when the capacity
    is positive the queue never holds more items than that, and [add] at
    capacity raises [Full] and leaves the queues as they are, while below
    capacity it appends the job. And every queue of the store, whoever built
    it and whatever is called, keeps the capacity it was built with and, when
    that is positive, holds at most that many items. *)
Theorem queue_within_capacity
    (call_fun : nat → list value → list (string * value) → value + exn)
    (os0 : list op) (pool_size : Z) (source : value) (queue_capacity queue_timeout : Z) :
  hands_queue source = false →
  ∃ p σ1,
    __init__ pool_size source queue_capacity queue_timeout
      (exec_ops call_fun os0 empty_heap) = (Ok p, σ1) ∧
    (∀ os, Forall (keeps_input p) os →
       ∃ P Q,
         pools (exec_ops call_fun os σ1) !! p = Some P ∧
         _queue_capacity P = queue_capacity ∧
         queues (exec_ops call_fun os σ1) !! _queue P = Some Q ∧
         maxsize Q = queue_capacity ∧
         (0 < queue_capacity → qsize Q ≤ queue_capacity) ∧
         (0 < queue_capacity → 0 ≤ queue_timeout →
          ∀ callback args kwargs,
            has_key "self" kwargs || has_key "callback" kwargs = false →
            add p callback args kwargs (exec_ops call_fun os σ1) =
            if qsize Q =? queue_capacity
            then (Raise Full,
                  with_trace (λ tr, tr ++ [EPutFull (_queue P)])
                    (exec_ops call_fun os σ1))
            else (Ok p,
                  with_trace
                    (λ tr, tr ++ [EPut (_queue P) (job_tuple callback args kwargs)])
                    (with_queues
                       <[_queue P := mkQueue (maxsize Q)
                                       (queue Q ++ [job_tuple callback args kwargs])
                                       (unfinished_tasks Q + 1)]>
                       (exec_ops call_fun os σ1))))) ∧
    (∀ os q Q0, queues σ1 !! q = Some Q0 →
       ∃ Q', queues (exec_ops call_fun os σ1) !! q = Some Q' ∧
             maxsize Q' = maxsize Q0 ∧
             (0 < maxsize Q0 → qsize Q' ≤ maxsize Q0)).
Proof.
  intros Hs.
  set (σ0 := exec_ops call_fun os0 empty_heap).
  pose proof (init_own_queue σ0 pool_size source queue_capacity queue_timeout Hs) as Hinit.
  set (p := fresh (dom (pools σ0))) in *.
  set (q0 := fresh (dom (queues σ0))) in *.
  set (σ1 := with_pools _ (with_queues _ σ0)) in Hinit.
  exists p, σ1. split; [exact Hinit |].
  assert (bounded σ1) as Hb1.
  { pose proof (stable_init bounded bounded_stable pool_size source queue_capacity
                  queue_timeout σ0 (bounded_exec_ops call_fun os0 _ bounded_empty)) as H.
    by rewrite Hinit in H. }
  assert (within_capacity p queue_capacity queue_timeout σ1) as Hj1.
  { exists (mkPool pool_size [] q0 queue_capacity queue_timeout source None None None),
           (Queue_new queue_capacity).
    subst σ1. simpl. rewrite !lookup_insert_eq. repeat split. simpl. unfold qsize. simpl. lia. }
  split.
  - intros os Hos.
    destruct (cap_exec_ops call_fun p queue_capacity queue_timeout os σ1 Hos Hj1)
      as (P & Q & HP & Hc & Ht & HQ & Hm & Hb).
    exists P, Q. repeat split; try done.
    intros Hpos Hto callback args kwargs Hk.
    rewrite (add_run _ _ _ _ _ _ _ Hk HP HQ) by lia.
    unfold full. rewrite Hm.
    by replace (0 <? queue_capacity) with true by (symmetry; by apply Z.ltb_lt).
  - intros os q Q0 HQ0.
    assert (has_maxsize q (maxsize Q0) σ1) as H0 by (by exists Q0).
    destruct (has_maxsize_exec_ops call_fun os _ _ _ H0) as (Q' & HQ' & Hm').
    exists Q'. split; [exact HQ' |]. split; [exact Hm' |].
    rewrite <- Hm'. by apply (bounded_exec_ops call_fun os _ Hb1 _ _ HQ').
Qed.

(** C4 does not hold of a pool that another pool forwards into: pool 1 was built with
    [queue_capacity] 1, pool 0 with 3; after pool 0 is forwarded to pool 1,
    three jobs added to pool 1 are all accepted, and its input queue holds
    three items. *)
Lemma forwarded_pool_exceeds_capacity :
  ∃ σ P Q,
    exec_ops Samples.funs
      [OInit 1 VNone 3 500; OInit 1 VNone 1 500; OForward 0%nat 1%nat;
       OAdd 1%nat (VFun 0) [VInt 1] []; OAdd 1%nat (VFun 0) [VInt 2] [];
       OAdd 1%nat (VFun 0) [VInt 3] []] empty_heap = σ ∧
    pools σ !! 1%nat = Some P ∧
    _queue_capacity P = 1 ∧
    queues σ !! _queue P = Some Q ∧
    qsize Q = 3.
Proof. do 3 eexists. repeat split; reflexivity. Qed.

(** ** The worker loop *)

Lemma over_stable (t : loc) (fr : frame) (st : run_state) :
  is_over st = true → stable (thread_is t (mkThread fr st)).
Proof.
  intros Hover.
  apply (stable_of_threads (λ m, m !! t = Some (mkThread fr st))).
  - intros m fr' H. rewrite lookup_insert_ne; [exact H |]. by eapply fresh_lookup_ne.
  - intros m t' fr' Ht' H. rewrite lookup_insert_ne; [exact H |].
    intros ->. rewrite H in Ht'. injection Ht' as _ ->. done.
  - intros m t' fr' T Ht' H. rewrite lookup_insert_ne; [exact H |].
    intros ->. rewrite H in Ht'. injection Ht' as _ ->. done.
Qed.

Lemma threads_start (J : gmap loc Thread → Prop) (p : loc) (now : Z) :
  preserves (λ σ, J (threads σ)) (update_pool p (set__start_time now)).
Proof. intros σ H. unfold update_pool. by destruct (pools σ !! p). Qed.

Lemma over_exec_ops call_fun (os : list op) (σ : heap) t fr st :
  is_over st = true →
  thread_is t (mkThread fr st) σ →
  thread_is t (mkThread fr st) (exec_ops call_fun os σ).
Proof.
  intros Hover.
  apply (stable_exec_ops _ (over_stable t fr st Hover) call_fun (λ _, True)).
  - intros p now _. apply (threads_start (λ m, m !! t = Some _)).
  - apply starts_only_True.
Qed.

Lemma Queue_get_empty (σ : heap) (q : loc) (Q : Queue) (timeout : Z) :
  queues σ !! q = Some Q → queue Q = [] → 0 ≤ timeout →
  Queue_get q timeout σ = (Raise Empty, with_trace (λ tr, tr ++ [EGetEmpty q]) σ).
Proof.
  intros HQ Hq Ht. unfold Queue_get. rewrite HQ, Hq.
  by replace (timeout <? 0) with false by (symmetry; apply Z.ltb_ge; lia).
Qed.

(** C8: a live worker of pool [p] finds the queue empty at the end of its
    timeout. [get] raises [Empty]; the loop body catches it and breaks, so
    the scheduler step returns with no exception and the thread has returned
    (it did not die of [Empty]); and whatever is called afterwards, jobs
    added and pools run included, that thread stays returned. *)
Theorem worker_exits_on_empty
    (call_fun : nat → list value → list (string * value) → value + exn)
    (σ : heap) (t p : loc) (P : ThreadPool) (Q : Queue) :
  threads σ !! t = Some (mkThread (WorkerLoop p) Alive) →
  pools σ !! p = Some P →
  queues σ !! _queue P = Some Q →
  queue Q = [] →
  0 ≤ _queue_timeout P →
  Queue_get (_queue P) (_queue_timeout P) σ
    = (Raise Empty, with_trace (λ tr, tr ++ [EGetEmpty (_queue P)]) σ) ∧
  _thread_run_iter call_fun p σ
    = (Ok None,
       with_trace (λ tr, tr ++ [EGetEmpty (_queue P); ELog "No jobs, quitting."]) σ) ∧
  sched call_fun t σ
    = (Ok tt,
       with_threads <[t := mkThread (WorkerLoop p) Returned]>
         (with_trace (λ tr, tr ++ [EGetEmpty (_queue P); ELog "No jobs, quitting."]) σ)) ∧
  ∀ os, threads (exec_ops call_fun os (sched call_fun t σ).2) !! t
        = Some (mkThread (WorkerLoop p) Returned).
Proof.
  intros Ht HP HQ Hq Hto.
  pose proof (Queue_get_empty σ _ Q _ HQ Hq Hto) as Hget.
  assert (_thread_run_iter call_fun p σ
          = (Ok None,
             with_trace (λ tr, tr ++ [EGetEmpty (_queue P); ELog "No jobs, quitting."]) σ))
    as Hiter.
  { unfold _thread_run_iter, try_except.
    rewrite !bind_run, (get_pool_run _ _ _ HP).
    rewrite !bind_run, Hget. simpl.
    unfold log, with_trace. simpl. rewrite !bind_run. simpl.
    unfold mret, M_ret. by rewrite <- app_assoc. }
  assert (sched call_fun t σ
          = (Ok tt,
             with_threads <[t := mkThread (WorkerLoop p) Returned]>
               (with_trace (λ tr, tr ++ [EGetEmpty (_queue P); ELog "No jobs, quitting."]) σ)))
    as Hsched.
  { unfold sched. rewrite Ht. simpl. by rewrite Hiter. }
  split; [exact Hget |]. split; [exact Hiter |]. split; [exact Hsched |].
  intros os. apply over_exec_ops; [reflexivity |]. rewrite Hsched.
  unfold thread_is. simpl. apply lookup_insert_eq.
Qed.

Lemma task_done_calls_app (evs evs' : list event) :
  task_done_calls (evs ++ evs') = task_done_calls evs ++ task_done_calls evs'.
Proof. apply omap_app. Qed.

Lemma quietly_refl (σ : heap) : quietly σ σ.
Proof.
  split; [reflexivity |]. split; [auto |]. exists []. by rewrite app_nil_r.
Qed.

Lemma quietly_trans (σ1 σ2 σ3 : heap) :
  quietly σ1 σ2 → quietly σ2 σ3 → quietly σ1 σ3.
Proof.
  intros (Hp & Hq & evs & Ht & Hn) (Hp' & Hq' & evs' & Ht' & Hn').
  split; [congruence |]. split; [auto |].
  exists (evs ++ evs'). split.
  - rewrite Ht', Ht. by rewrite app_assoc.
  - by rewrite task_done_calls_app, Hn, Hn'.
Qed.

Lemma quietly_log (σ : heap) (evs : list event) :
  task_done_calls evs = [] → quietly σ (with_trace (λ tr, tr ++ evs) σ).
Proof. intros H. split; [done |]. split; [auto |]. by exists evs. Qed.


Lemma quiet_raise {A} (e : exn) : quiet (@raise A e).
Proof. intros σ. split; [done | apply quietly_refl]. Qed.

Lemma quiet_lift {A} (o : outcome A) : o ≠ Blocked → quiet (lift o).
Proof. intros H σ. split; [done | apply quietly_refl]. Qed.


Lemma quiet_log (e : event) : task_done_calls [e] = [] → quiet (log e).
Proof. intros H σ. split; [done | by apply quietly_log]. Qed.

Lemma quiet_bind {A B} (m : M A) (k : A → M B) :
  quiet m → (∀ a, quiet (k a)) → quiet (m ≫= k).
Proof.
  intros Hm Hk σ. rewrite bind_run. destruct (Hm σ) as [Hb Hq].
  destruct (m σ) as [[a | e |] σ']; simpl in *; try done.
  destruct (Hk a σ') as [Hb' Hq']. split; [exact Hb' |]. by eapply quietly_trans.
Qed.


Lemma py_getitem_returns (v : value) (i : nat) : py_getitem v i ≠ Blocked.
Proof.
  destruct v; simpl; try done.
  - by destruct (chars s !! i).
  - by destruct (items !! i).
  - by destruct (items !! i).
Qed.

Lemma quiet_call_job call_fun (job : value) : quiet (call_job call_fun job).
Proof.
  unfold call_job.
  repeat (apply quiet_bind; [| intros ?]);
    try (apply quiet_lift; first [apply py_getitem_returns | by destruct a1 | by destruct a0]).
  - by apply quiet_log.
  - apply quiet_lift. unfold py_call. destruct a; try done.
    by destruct (call_fun f a3 a2).
Qed.




(** ** The source consumer *)

Lemma call_add_job_tuple (p : loc) callback args kwargs :
  call_add p (job_tuple callback args kwargs) = add p callback args kwargs.
Proof. reflexivity. Qed.

Lemma consume_try_step (σ : heap) (p : loc) (P : ThreadPool) (Q : Queue)
    callback args kwargs (rest : list value) :
  has_key "self" kwargs || has_key "callback" kwargs = false →
  pools σ !! p = Some P →
  queues σ !! _queue P = Some Q →
  0 ≤ _queue_timeout P →
  consume_step (ConsumeTry p (job_tuple callback args kwargs) rest) σ =
  if full Q
  then (Ok (Some (ConsumeTry p (job_tuple callback args kwargs) rest)),
        with_trace (λ tr, tr ++ [EPutFull (_queue P); ESleep]) σ)
  else (Ok (Some (ConsumeNext p rest)),
        with_trace (λ tr, tr ++ [EPut (_queue P) (job_tuple callback args kwargs)])
          (with_queues
             <[_queue P := mkQueue (maxsize Q)
                             (queue Q ++ [job_tuple callback args kwargs])
                             (unfinished_tasks Q + 1)]> σ)).
Proof.
  intros Hk HP HQ Ht. unfold consume_step, try_except.
  rewrite !bind_run, call_add_job_tuple.
  rewrite (add_run _ _ _ _ _ _ _ Hk HP HQ Ht).
  destruct (full Q); [| reflexivity]. simpl.
  unfold log, with_trace, mbind, M_bind, mret, M_ret. simpl.
  by rewrite <- app_assoc.
Qed.

Lemma consume_run_cons (env : heap → heap) (envs : list (heap → heap))
    (fr : frame) (σ : heap) :
  consume_run (env :: envs) fr σ =
  match consume_step fr (env σ) with
  | (Ok (Some fr'), σ') => consume_run envs fr' σ'
  | r => r
  end.
Proof. reflexivity. Qed.





(** ** Forwarding *)

Lemma forward_run (σ : heap) (a b : loc) (Pa Pb : ThreadPool) :
  pools σ !! a = Some Pa →
  pools σ !! b = Some Pb →
  a ≠ b →
  forward a b σ = (Ok a, forwarded a b Pa Pb σ).
Proof.
  intros Ha Hb Hab. unfold forward, forwarded.
  rewrite bind_run, (get_pool_run _ _ _ Ha). cbv beta iota.
  rewrite bind_run. unfold alloc_queue. cbv beta iota zeta.
  set (q := fresh (dom (queues σ))).
  set (σ1 := with_queues <[q := Queue_new (_queue_capacity Pa)]> σ).
  rewrite bind_run, (update_pool_run a _ Pa σ1 Ha). cbv beta iota.
  set (σ2 := with_pools <[a := set__queue_out (Some q) Pa]> σ1).
  assert (pools σ2 !! a = Some (set__queue_out (Some q) Pa)) as Ha2
    by apply lookup_insert_eq.
  assert (pools σ2 !! b = Some Pb) as Hb2
    by (subst σ2 σ1; simpl; by rewrite lookup_insert_ne).
  rewrite bind_run, (get_pool_run _ _ _ Ha2). cbv beta iota.
  rewrite bind_run. simpl attr_value. unfold set_source_nonpool.
  rewrite (update_pool_run b _ Pb σ2 Hb2). reflexivity.
Qed.

Lemma forward_wires (σ : heap) (a b : loc) (Pa Pb : ThreadPool) :
  a ≠ b → wired a b (forwarded a b Pa Pb σ) = true.
Proof.
  intros Hab. unfold wired, forwarded. simpl.
  rewrite lookup_insert_ne by congruence. rewrite !lookup_insert_eq. simpl.
  by rewrite Nat.eqb_refl, lookup_insert_eq.
Qed.

Lemma forward_keeps_wired (σ : heap) (a b x y : loc) (Pa Pb : ThreadPool) :
  pools σ !! a = Some Pa →
  pools σ !! b = Some Pb →
  a ≠ x → b ≠ y →
  wired x y σ = true → wired x y (forwarded a b Pa Pb σ) = true.
Proof.
  intros Ha Hb Hax Hby. unfold wired, forwarded. simpl.
  destruct (pools σ !! x) as [Px |] eqn:Hx; [| done].
  destruct (pools σ !! y) as [Py |] eqn:Hy; [| done].
  destruct (_queue_out Px) as [q |] eqn:Hq; [| done].
  intros [Hqy Hdom]%andb_true_iff.
  destruct (queues σ !! q) as [Q |] eqn:HQ; [| done].
  assert (fresh (dom (queues σ)) ≠ q) as Hfresh by (by eapply fresh_lookup_ne).
  assert (∃ Px', <[b := set__queue (fresh (dom (queues σ))) Pb]>
                   (<[a := set__queue_out (Some (fresh (dom (queues σ)))) Pa]> (pools σ)) !! x
                 = Some Px' ∧ _queue_out Px' = Some q) as (Px' & -> & ->).
  { destruct (decide (b = x)) as [<- |].
    - rewrite lookup_insert_eq. eexists. split; [reflexivity |]. simpl. congruence.
    - rewrite !lookup_insert_ne by done. eauto. }
  assert (∃ Py', <[b := set__queue (fresh (dom (queues σ))) Pb]>
                   (<[a := set__queue_out (Some (fresh (dom (queues σ)))) Pa]> (pools σ)) !! y
                 = Some Py' ∧ _queue Py' = _queue Py) as (Py' & -> & ->).
  { rewrite lookup_insert_ne by done.
    destruct (decide (a = y)) as [<- |].
    - rewrite lookup_insert_eq. eexists. split; [reflexivity |]. simpl. congruence.
    - rewrite lookup_insert_ne by done. eauto. }
  rewrite Hqy. simpl. by rewrite lookup_insert_ne, HQ.
Qed.

Lemma forward_keeps_pools (σ : heap) (a b p : loc) (Pa Pb : ThreadPool) :
  is_Some (pools σ !! p) → is_Some (pools (forwarded a b Pa Pb σ) !! p).
Proof.
  intros Hp. unfold forwarded. simpl.
  destruct (decide (b = p)) as [<- |]; [rewrite lookup_insert_eq; eauto |].
  rewrite lookup_insert_ne by done.
  destruct (decide (a = p)) as [<- |]; [rewrite lookup_insert_eq; eauto |].
  by rewrite lookup_insert_ne.
Qed.

Lemma forward_chain_run (ps : list loc) (σ : heap) :
  NoDup ps →
  Forall (λ p, is_Some (pools σ !! p)) ps →
  ∃ σ', forward_chain ps σ = (Ok tt, σ') ∧
        (∀ p, is_Some (pools σ !! p) → is_Some (pools σ' !! p)) ∧
        (∀ i a b, ps !! i = Some a → ps !! S i = Some b → wired a b σ' = true) ∧
        (∀ x y, x ∉ ps → y ∉ tail ps → wired x y σ = true → wired x y σ' = true).
Proof.
  revert σ. induction ps as [| a ps IH]; intros σ Hnd Hall.
  { exists σ. repeat split; auto. intros i a b Hi. by rewrite lookup_nil in Hi. }
  destruct ps as [| b rest].
  { exists σ. repeat split; auto. intros [| i] a' b Hi Hi'; by rewrite ?lookup_nil in Hi'. }
  apply NoDup_cons in Hnd as [Ha Hnd].
  apply Forall_cons in Hall as [[Pa HPa] Hall].
  pose proof Hall as Hall'. apply Forall_cons in Hall' as [[Pb HPb] _].
  assert (a ≠ b) as Hab by (intros ->; apply Ha; left).
  destruct (IH (forwarded a b Pa Pb σ) Hnd) as (σ' & Hrun & Hpools & Hadj & Hkeep).
  { eapply Forall_impl; [exact Hall |]. intros p Hp. by apply forward_keeps_pools. }
  exists σ'. split.
  { change (forward_chain (a :: b :: rest)) with (forward a b;; forward_chain (b :: rest)).
    by rewrite bind_run, (forward_run _ _ _ _ _ HPa HPb Hab). }
  split; [intros p Hp; by apply Hpools, forward_keeps_pools |].
  split.
  - intros [| i] x y Hx Hy.
    + injection Hx as <-. injection Hy as <-.
      apply Hkeep; [exact Ha | | by apply forward_wires].
      simpl. by apply NoDup_cons in Hnd as [? _].
    + by apply (Hadj i).
  - intros x y Hx Hy Hw. apply Hkeep.
    + intros Hin. apply Hx. by right.
    + simpl in *. intros Hin. apply Hy. by right.
    + apply forward_keeps_wired; auto.
      * intros ->. apply Hx. left.
      * intros ->. apply Hy. simpl. left.
Qed.

(** C3 (as the code has it): the pools of [ps] are distinct pools of the
    store. Forwarding each one to the next, [ps[0].forward(ps[1])], then
    [ps[1].forward(ps[2])], and so on, returns normally and leaves every
    pool's output queue wired to the input of the pool after it, however
    long the chain: no step undoes the wiring of an earlier stage. *)
Theorem forward_chain_wires (ps : list loc) (σ : heap) :
  NoDup ps →
  Forall (λ p, is_Some (pools σ !! p)) ps →
  ∃ σ', forward_chain ps σ = (Ok tt, σ') ∧
        ∀ i a b, ps !! i = Some a → ps !! S i = Some b → wired a b σ' = true.
Proof.
  intros Hnd Hall.
  destruct (forward_chain_run ps σ Hnd Hall) as (σ' & Hrun & _ & Hadj & _).
  by exists σ'.
Qed.

(** C3 does not hold of [a >> b >> c]: after [a >> b >> c] on three fresh pools, pool 0
    is wired to pool 2 and to nothing else; it is not wired to pool 1, and
    pool 1 is not wired to pool 2. *)
Lemma rshift_chain_rewires_first :
  ∃ σ', rshift_chain 0%nat 1%nat 2%nat Samples.three_pools = (Ok 0%nat, σ') ∧
        wired 0%nat 1%nat σ' = false ∧
        wired 1%nat 2%nat σ' = false ∧
        wired 0%nat 2%nat σ' = true.
Proof. eexists. split; [reflexivity |]. vm_compute. auto. Qed.

Lemma Queue_get_run (σ : heap) (q : loc) (Q : Queue) (x : value) (rest : list value)
    (timeout : Z) :
  queues σ !! q = Some Q → queue Q = x :: rest → 0 ≤ timeout →
  Queue_get q timeout σ =
  (Ok x, with_trace (λ tr, tr ++ [EGet q x])
           (with_queues <[q := mkQueue (maxsize Q) rest (unfinished_tasks Q)]> σ)).
Proof.
  intros HQ Hq Ht. unfold Queue_get. rewrite HQ, Hq.
  by replace (timeout <? 0) with false by (symmetry; apply Z.ltb_ge; lia).
Qed.

Lemma call_job_run call_fun (σ : heap) (f : nat) args kwargs :
  call_job call_fun (job_tuple (VFun f) args kwargs) σ =
  (match call_fun f args kwargs with inl v => Ok v | inr e => Raise e end,
   with_trace (λ tr, tr ++ [ECall (job_tuple (VFun f) args kwargs)]) σ).
Proof. reflexivity. Qed.

Lemma worker_puts_result call_fun (σ : heap) (a q : loc) (Pa : ThreadPool)
    (Qa Qo : Queue) (f : nat) args kwargs (rest : list value) (v : value) :
  pools σ !! a = Some Pa →
  _queue_out Pa = Some q →
  queues σ !! _queue Pa = Some Qa →
  queue Qa = job_tuple (VFun f) args kwargs :: rest →
  0 ≤ _queue_timeout Pa →
  call_fun f args kwargs = inl v →
  q ≠ _queue Pa →
  queues σ !! q = Some Qo →
  full Qo = false →
  queues (_thread_run_iter call_fun a σ).2 !! q
  = Some (mkQueue (maxsize Qo) (queue Qo ++ [v]) (unfinished_tasks Qo + 1)).
Proof.
  intros HP Hout HQa Hjob Ht Hcall Hne HQo Hroom.
  unfold _thread_run_iter, try_except.
  rewrite bind_run, (get_pool_run _ _ _ HP). cbv beta iota.
  rewrite bind_run, (Queue_get_run _ _ _ _ _ _ HQa Hjob Ht). cbv beta iota.
  set (σ1 := with_trace _ (with_queues _ σ)).
  rewrite bind_run. unfold try_finally.
  rewrite bind_run. unfold log at 1. cbv beta iota.
  rewrite bind_run, call_job_run, Hcall. cbv beta iota.
  set (σ2 := with_trace _ (with_trace _ σ1)).
  rewrite bind_run, (get_pool_run a Pa σ2 HP). cbv beta iota. rewrite Hout.
  assert (queues σ2 !! q = Some Qo) as HQo2
    by (subst σ2 σ1; simpl; by rewrite lookup_insert_ne).
  rewrite (Queue_put_run _ _ _ _ _ HQo2 Ht), Hroom.
  set (σ3 := with_trace _ (with_queues _ σ2)).
  rewrite bind_run, (get_pool_run a Pa σ3 HP). cbv beta iota.
  assert (queues σ3 !! q
          = Some (mkQueue (maxsize Qo) (queue Qo ++ [v]) (unfinished_tasks Qo + 1))) as HQ3
    by (subst σ3; simpl; by rewrite lookup_insert_eq).
  unfold Queue_task_done.
  destruct (queues σ3 !! _queue Pa) as [Q3 |]; [| exact HQ3]. cbv zeta.
  destruct (unfinished_tasks Q3 - 1 <? 0); simpl; [exact HQ3 |].
  rewrite lookup_insert_ne by congruence. exact HQ3.
Qed.

Lemma set__pool_set__pool (l l' : list loc) (P : ThreadPool) :
  set__pool l (set__pool l' P) = set__pool l P.
Proof. reflexivity. Qed.

Lemma set__pool_id (P : ThreadPool) : set__pool (_pool P) P = P.
Proof. by destruct P. Qed.

Lemma spawn_workers_run (n : nat) (p : loc) (σ : heap) (P0 : ThreadPool) :
  pools σ !! p = Some P0 →
  ∃ σ' ts,
    spawn_workers n p σ = (Ok tt, σ') ∧
    queues σ' = queues σ ∧
    pools σ' = <[p := set__pool (_pool P0 ++ ts) P0]> (pools σ) ∧
    length ts = n ∧
    Forall (λ t, threads σ' !! t = Some (mkThread (WorkerLoop p) Alive)) ts ∧
    (∀ t T, threads σ !! t = Some T → threads σ' !! t = Some T).
Proof.
  revert σ P0. induction n as [| n IH]; intros σ P0 HP.
  - exists σ, []. split; [reflexivity |]. split; [reflexivity |].
    split; [| auto]. rewrite app_nil_r, set__pool_id. symmetry. by apply insert_id.
  - set (t := fresh (dom (threads σ))).
    set (σ1 := with_threads <[t := mkThread (WorkerLoop p) Unstarted]> σ).
    set (σ2 := with_pools <[p := set__pool (_pool P0 ++ [t]) P0]> σ1).
    set (σ3 := with_threads <[t := mkThread (WorkerLoop p) Alive]> σ2).
    assert (pools σ3 !! p = Some (set__pool (_pool P0 ++ [t]) P0)) as HP3
      by apply lookup_insert_eq.
    destruct (IH σ3 _ HP3) as (σ' & ts & Hrun & Hq & Hp & Hlen & Hts & Hold).
    exists σ', (t :: ts). split.
    { simpl spawn_workers. rewrite bind_run. unfold alloc_thread. cbv beta iota zeta.
      fold t. fold σ1.
      rewrite bind_run, (update_pool_run p _ P0 σ1 HP). cbv beta iota. fold σ2.
      rewrite bind_run. unfold Thread_start.
      replace (threads σ2 !! t) with (Some (mkThread (WorkerLoop p) Unstarted))
        by (symmetry; apply lookup_insert_eq).
      cbv beta iota. fold σ3. exact Hrun. }
    split; [by rewrite Hq |]. split.
    { rewrite Hp. simpl. rewrite insert_insert_eq.
      by rewrite set__pool_set__pool, <- app_assoc. }
    split; [simpl; by rewrite Hlen |]. split.
    { constructor; [| exact Hts]. apply Hold. simpl. apply lookup_insert_eq. }
    intros t0 T HT. apply Hold. simpl.
    assert (t ≠ t0) by (by eapply fresh_lookup_ne).
    by rewrite !lookup_insert_ne.
Qed.

Lemma run_without_source (now : Z) (p : loc) (σ : heap) (P : ThreadPool) :
  pools σ !! p = Some P →
  _source P = VNone →
  ∃ σ' ts,
    run now p σ = (Ok p, σ') ∧
    queues σ' = queues σ ∧
    pools σ' !! p = Some (set__pool ts (set__start_time now P)) ∧
    length ts = Z.to_nat (_pool_size P) ∧
    Forall (λ t, threads σ' !! t = Some (mkThread (WorkerLoop p) Alive)) ts.
Proof.
  intros HP Hsrc.
  set (σ1 := with_trace (λ tr, tr ++ [ELog "Starting."])
               (with_pools <[p := set__start_time now P]> σ)).
  set (σ2 := with_pools <[p := set__pool [] (set__start_time now P)]> σ1).
  assert (pools σ1 !! p = Some (set__start_time now P)) as HP1 by apply lookup_insert_eq.
  assert (pools σ2 !! p = Some (set__pool [] (set__start_time now P))) as HP2
    by apply lookup_insert_eq.
  destruct (spawn_workers_run (Z.to_nat (_pool_size P)) p σ2 _ HP2)
    as (σ' & ts & Hrun & Hq & Hp & Hlen & Hts & _).
  assert (pools σ' !! p = Some (set__pool ts (set__start_time now P))) as HP'
    by (rewrite Hp; apply lookup_insert_eq).
  exists σ', ts. split.
  { unfold run, start, _build_pool.
    rewrite ?bind_run, (update_pool_run _ _ _ _ HP). cbv beta iota.
    unfold log at 1. cbv beta iota. fold σ1.
    rewrite ?bind_run, (update_pool_run p _ _ σ1 HP1). cbv beta iota. fold σ2.
    rewrite ?bind_run, (get_pool_run _ _ _ HP2). cbv beta iota.
    change (_pool_size (set__pool [] (set__start_time now P))) with (_pool_size P).
    rewrite ?bind_run, Hrun. cbv beta iota.
    unfold mret at 1, M_ret at 1. cbv beta iota.
    rewrite ?bind_run, (get_pool_run _ _ _ HP'). cbv beta iota.
    change (_source (set__pool ts (set__start_time now P))) with (_source P).
    rewrite Hsrc. reflexivity. }
  split; [by rewrite Hq |]. split; [exact HP' |]. split; [exact Hlen | exact Hts].
Qed.

(** C1 does not hold of the consumer: the shared queue is the input queue of the target
    pool itself; the target keeps its source ([None] here), and [run] gives
    it workers only, no consumer. *)
Lemma forward_target_runs_no_consumer :
  ∃ σ1 σ2 PA PB,
    forward 0%nat 1%nat Samples.two_pools = (Ok 0%nat, σ1) ∧
    run 5 1%nat σ1 = (Ok 1%nat, σ2) ∧
    pools σ2 !! 0%nat = Some PA ∧ pools σ2 !! 1%nat = Some PB ∧
    _queue_out PA = Some 2%nat ∧
    _source PB = VNone ∧
    _queue PB = 2%nat ∧
    has_consumer 1%nat σ2 = false.
Proof.
  do 4 eexists. split; [reflexivity |]. split; [reflexivity |].
  split; [reflexivity |]. split; [reflexivity |]. vm_compute. auto.
Qed.

(** C1 (as the code has it): forwarding pool [a] to another pool [b]
    creates a fresh queue [q] with [a]'s configured capacity and installs it
    as [a]'s output queue and as [b]'s input queue itself, leaving [b]'s
    source as it was. A pool [b] with no source then gets, from [run], its
    [pool_size] worker threads and no consumer, and these read [q]. And in
    any later store where [q] is [a]'s output queue and has room, a worker
    of [a] that runs a job returning [v] leaves [v] at the end of [q]. *)
Theorem forward_shares_queue
    (call_fun : nat → list value → list (string * value) → value + exn)
    (σ : heap) (a b : loc) (Pa Pb : ThreadPool) :
  pools σ !! a = Some Pa →
  pools σ !! b = Some Pb →
  a ≠ b →
  ∃ q σ1,
    queues σ !! q = None ∧
    forward a b σ = (Ok a, σ1) ∧
    queues σ1 = <[q := Queue_new (_queue_capacity Pa)]> (queues σ) ∧
    pools σ1 = <[b := set__queue q Pb]> (<[a := set__queue_out (Some q) Pa]> (pools σ)) ∧
    threads σ1 = threads σ ∧
    (∀ now, _source Pb = VNone →
       ∃ σ2 ts,
         run now b σ1 = (Ok b, σ2) ∧
         pools σ2 !! b = Some (set__pool ts (set__start_time now (set__queue q Pb))) ∧
         length ts = Z.to_nat (_pool_size Pb) ∧
         Forall (λ t, threads σ2 !! t = Some (mkThread (WorkerLoop b) Alive)) ts) ∧
    (∀ σ2 f args kwargs v,
       output_of a q σ2 →
       job_at_head a (job_tuple (VFun f) args kwargs) σ2 →
       call_fun f args kwargs = inl v →
       has_room q σ2 →
       queue_ends_with q v (_thread_run_iter call_fun a σ2).2).
Proof.
  intros Ha Hb Hab.
  exists (fresh (dom (queues σ))), (forwarded a b Pa Pb σ).
  split; [apply not_elem_of_dom, is_fresh |].
  split; [by apply forward_run |].
  split; [reflexivity |]. split; [reflexivity |]. split; [reflexivity |]. split.
  - intros now Hsrc.
    assert (pools (forwarded a b Pa Pb σ) !! b
            = Some (set__queue (fresh (dom (queues σ))) Pb)) as Hb1
      by apply lookup_insert_eq.
    destruct (run_without_source now b _ _ Hb1 Hsrc) as (σ2 & ts & Hrun & _ & HP2 & Hlen & Hts).
    by exists σ2, ts.
  - intros σ2 f args kwargs v (P & HP & Hout & Hne) (P' & Q & rest & HP' & HQ & Hjob & Ht)
           Hcall (Qo & HQo & Hroom).
    assert (P' = P) as -> by congruence.
    exists (mkQueue (maxsize Qo) (queue Qo ++ [v]) (unfinished_tasks Qo + 1)), (queue Qo).
    split; [| reflexivity].
    by eapply worker_puts_result.
Qed.

(** ** Validation of source items *)

(** C6 does not hold of every malformed item: [uncallable_job] is no triple of a callable, a
    sequence and a mapping, and the consumer takes it through the length
    test and puts it on the queue, raising nothing. *)
Lemma uncallable_job_is_enqueued :
  valid_job uncallable_job = false ∧
  ∃ σ', consume_run [λ s, s; λ s, s] (ConsumeNext 0%nat [uncallable_job])
          Samples.two_pools
        = (Ok (Some (ConsumeNext 0%nat [])), σ') ∧
        queues σ' !! 0%nat = Some (mkQueue 3 [uncallable_job] 1).
Proof.
  split; [reflexivity |]. eexists. split; reflexivity.
Qed.

Lemma sched_consumer call_fun (σ : heap) (t : loc) (fr : frame) :
  threads σ !! t = Some (mkThread fr Alive) →
  in_consume fr = true →
  sched call_fun t σ =
  match consume_step fr σ with
  | (Ok (Some fr'), σ') => (Ok tt, with_threads <[t := mkThread fr' Alive]> σ')
  | (Ok None, σ') => (Ok tt, with_threads <[t := mkThread fr Returned]> σ')
  | (Raise e, σ') => (Ok tt, with_threads <[t := mkThread fr (Died e)]> σ')
  | (Blocked, σ') => (Ok tt, σ')
  end.
Proof.
  intros Ht Hfr. unfold sched. rewrite Ht. by destruct fr.
Qed.

Lemma consume_next_step (σ : heap) (p : loc) (item : value) (rest : list value) (n : Z) :
  py_len item = Ok n →
  consume_step (ConsumeNext p (item :: rest)) σ =
  if n =? 3 then (Ok (Some (ConsumeTry p item rest)), σ) else (Raise ValueError, σ).
Proof.
  intros Hlen. unfold consume_step. rewrite bind_run. unfold lift. rewrite Hlen.
  by destruct (n =? 3).
Qed.

Lemma consume_try_raises (σ : heap) (p : loc) (item : value) (rest : list value) (e : exn) :
  call_add p item σ = (Raise e, σ) →
  exn_eqb e Full = false →
  consume_step (ConsumeTry p item rest) σ = (Raise e, σ).
Proof.
  intros Hadd He. unfold consume_step, try_except. rewrite bind_run, Hadd.
  cbv beta iota. by rewrite He.
Qed.

Lemma call_add_triple (σ : heap) (p : loc) (c a : value) (d : list (string * value)) :
  call_add p (VTuple [c; a; VDict d]) σ =
  match py_iter a with
  | Ok args => add p c args d σ
  | Raise e => (Raise e, σ)
  | Blocked => (Blocked, σ)
  end.
Proof. unfold call_add. simpl. unfold lift, mbind, M_bind. by destruct (py_iter a). Qed.

Lemma call_add_list (σ : heap) (p : loc) (l : list value) :
  call_add p (VList l) σ = call_add p (VTuple l) σ.
Proof. reflexivity. Qed.

Lemma is_iterable_iter (a : value) :
  py_iter a = (if is_iterable a
               then py_iter a
               else Raise TypeError) ∧
  (is_iterable a = true → ∃ args, py_iter a = Ok args).
Proof. destruct a; simpl; (split; [reflexivity | intros; try done; eauto]). Qed.

(** The call of [add] on a triple that does not unpack raises before [add]
    has touched the store, and what it raises is not [Full]. *)
Lemma call_add_rejects (σ : heap) (p : loc) (c a k : value) :
  unpacks (VTuple [c; a; k]) = false →
  ∃ e, call_add p (VTuple [c; a; k]) σ = (Raise e, σ) ∧ exn_eqb e Full = false ∧
       e = TypeError.
Proof.
  intros Hu. exists TypeError.
  destruct k as [| | | | d | | | | |]; try (by split).
  simpl in Hu. rewrite call_add_triple.
  destruct (is_iterable_iter a) as [Hit Hargs]. rewrite Hit.
  destruct (is_iterable a); [| by split].
  destruct (Hargs eq_refl) as [args ->].
  simpl in Hu. apply negb_false_iff in Hu. by rewrite (add_clash _ _ _ _ _ Hu).
Qed.

(** An item that does not unpack stops the consumer at one of its next two
    steps, whatever the store, which it leaves as it is. *)
Lemma rejected_item_raises (p : loc) (item : value) (rest : list value) :
  unpacks item = false →
  ∃ e,
    (∀ σ, consume_step (ConsumeNext p (item :: rest)) σ = (Raise e, σ)) ∨
    ((∀ σ, consume_step (ConsumeNext p (item :: rest)) σ
           = (Ok (Some (ConsumeTry p item rest)), σ)) ∧
     (∀ σ, consume_step (ConsumeTry p item rest) σ = (Raise e, σ))).
Proof.
  intros Hu.
  assert (∀ l : list value, (3 < length l)%nat →
            ∀ σ v, py_len v = Ok (Z.of_nat (length l)) →
                   consume_step (ConsumeNext p (v :: rest)) σ = (Raise ValueError, σ))
    as Hlong.
  { intros l Hl σ v Hlen. rewrite (consume_next_step _ _ _ _ _ Hlen).
    by replace (Z.of_nat (length l) =? 3) with false by (symmetry; apply Z.eqb_neq; lia). }
  destruct item as [| z | s | l | d | f | l | l | q | p'].
  - exists TypeError. by left.
  - exists TypeError. by left.
  - destruct (Z.of_nat (String.length s) =? 3) eqn:E.
    + exists TypeError. right. split.
      * intros σ. by rewrite (consume_next_step σ p (VStr s) rest _ eq_refl), E.
      * intros σ. apply consume_try_raises; [| reflexivity].
        destruct s as [| a1 [| a2 [| a3 s]]]; try done.
    + exists ValueError. left. intros σ.
      by rewrite (consume_next_step σ p (VStr s) rest _ eq_refl), E.
  - destruct l as [| c [| a [| k [| x l]]]].
    + exists ValueError. by left.
    + exists ValueError. by left.
    + exists ValueError. by left.
    + exists TypeError. right. split; [done |]. intros σ.
      destruct (call_add_rejects σ p c a k Hu) as (e & Hadd & He & ->).
      by apply consume_try_raises.
    + exists ValueError. left. intros σ.
      apply (Hlong (c :: a :: k :: x :: l)); [simpl; lia | reflexivity].
  - destruct (Z.of_nat (length d) =? 3) eqn:E.
    + exists KeyError. right. split.
      * intros σ. by rewrite (consume_next_step σ p (VDict d) rest _ eq_refl), E.
      * intros σ. by apply consume_try_raises.
    + exists ValueError. left. intros σ.
      by rewrite (consume_next_step σ p (VDict d) rest _ eq_refl), E.
  - exists TypeError. by left.
  - destruct l as [| c [| a [| k [| x l]]]].
    + exists ValueError. by left.
    + exists ValueError. by left.
    + exists ValueError. by left.
    + exists TypeError. right. split; [done |]. intros σ.
      destruct (call_add_rejects σ p c a k Hu) as (e & Hadd & He & ->).
      apply consume_try_raises; [| done]. by rewrite call_add_list.
    + exists ValueError. left. intros σ.
      apply (Hlong (c :: a :: k :: x :: l)); [simpl; lia | reflexivity].
  - exists TypeError. by left.
  - exists AttributeError. by left.
  - exists TypeError. by left.
Qed.

(** An item that unpacks is a sequence of three components, the second
    iterable, the third a dict that [add] can take. *)
Lemma unpacks_components (item : value) :
  unpacks item = true →
  ∃ callback star kwargs args,
    py_len item = Ok 3 ∧
    py_getitem item 0 = Ok callback ∧
    py_getitem item 1 = Ok star ∧
    py_getitem item 2 = Ok (VDict kwargs) ∧
    py_iter star = Ok args ∧
    has_key "self" kwargs || has_key "callback" kwargs = false ∧
    ∀ p σ, call_add p item σ = add p callback args kwargs σ.
Proof.
  intros Hu.
  assert (∀ c a d, is_iterable a && negb (has_key "self" d || has_key "callback" d) = true →
            ∃ args, py_iter a = Ok args ∧
                    has_key "self" d || has_key "callback" d = false ∧
                    ∀ p σ, call_add p (VTuple [c; a; VDict d]) σ = add p c args d σ) as H.
  { intros c a d [Ha Hd]%andb_true_iff. apply negb_true_iff in Hd.
    destruct (is_iterable_iter a) as [_ Hargs]. destruct (Hargs Ha) as [args Hit].
    exists args. split; [exact Hit |]. split; [exact Hd |].
    intros p σ. by rewrite call_add_triple, Hit. }
  destruct item as [| z | s | l | d | f | l | l | q | p']; try done.
  - destruct l as [| c [| a [| k l]]]; try done.
    destruct k as [| | | | d | | | | |]; try done.
    destruct l as [| x l]; try done.
    destruct (H c a d Hu) as (args & Hit & Hd & Hadd).
    by exists c, a, d, args.
  - destruct l as [| c [| a [| k l]]]; try done.
    destruct k as [| | | | d | | | | |]; try done.
    destruct l as [| x l]; try done.
    destruct (H c a d Hu) as (args & Hit & Hd & Hadd).
    by exists c, a, d, args.
Qed.

(** C6 (as the code has it): the consumer thread [t] of pool [p] is at a
    source item. If the item has a length other than 3, the step raises
    [ValueError] and leaves the store as it was, and the thread dies of that
    error. More generally, if the item does not unpack (its length is
    undefined or not 3, or its second component cannot be iterated, or its
    third is no dict, or is a dict with a key [self] or [callback]), then
    after the thread's next two steps the store is as it was but for the
    thread, which has died: nothing was enqueued; and whatever is called
    afterwards the thread stays dead where it stopped, with the item and the
    rest of the source unfed. But an item that unpacks is not validated any
    further: with room in the queue, the next two steps append it to the
    pool's queue, re-packed, and the consumer goes on with the items that
    follow, whatever the first component is. *)
Theorem consumer_rejects_wrong_length
    (call_fun : nat → list value → list (string * value) → value + exn)
    (σ : heap) (t p : loc) (item : value) (rest : list value) :
  threads σ !! t = Some (mkThread (ConsumeNext p (item :: rest)) Alive) →
  (∀ n, py_len item = Ok n → n ≠ 3 →
     consume_step (ConsumeNext p (item :: rest)) σ = (Raise ValueError, σ) ∧
     sched call_fun t σ
       = (Ok tt,
          with_threads
            <[t := mkThread (ConsumeNext p (item :: rest)) (Died ValueError)]> σ)) ∧
  (unpacks item = false →
     ∃ fr e,
       (sched call_fun t (sched call_fun t σ).2).2
         = with_threads <[t := mkThread fr (Died e)]> σ ∧
       ∀ os, threads (exec_ops call_fun os (sched call_fun t (sched call_fun t σ).2).2)
               !! t = Some (mkThread fr (Died e))) ∧
  (unpacks item = true →
     ∀ P Q, pools σ !! p = Some P → queues σ !! _queue P = Some Q →
            0 ≤ _queue_timeout P → full Q = false →
     ∃ callback star kwargs args,
       py_getitem item 0 = Ok callback ∧
       py_getitem item 1 = Ok star ∧
       py_getitem item 2 = Ok (VDict kwargs) ∧
       py_iter star = Ok args ∧
       (sched call_fun t (sched call_fun t σ).2).2
         = with_threads <[t := mkThread (ConsumeNext p rest) Alive]>
             (with_trace (λ tr, tr ++ [EPut (_queue P) (job_tuple callback args kwargs)])
                (with_queues
                   <[_queue P := mkQueue (maxsize Q)
                                   (queue Q ++ [job_tuple callback args kwargs])
                                   (unfinished_tasks Q + 1)]> σ))).
Proof.
  intros Ht.
  assert (∀ σ' fr, with_threads <[t := fr]>
                     (with_threads <[t := mkThread (ConsumeTry p item rest) Alive]> σ')
                   = with_threads <[t := fr]> σ') as Htwice.
  { intros σ' fr. unfold with_threads. simpl. by rewrite insert_insert_eq. }
  assert (∀ fr e σ', threads σ' !! t = Some (mkThread fr (Died e)) →
                     sched call_fun t σ' = (Ok tt, σ')) as Hdead.
  { intros fr e σ' Hσ'. unfold sched. by rewrite Hσ'. }
  split; [| split].
  - intros n Hlen Hn.
    assert (consume_step (ConsumeNext p (item :: rest)) σ = (Raise ValueError, σ)) as Hstep.
    { rewrite (consume_next_step _ _ _ _ _ Hlen).
      by replace (n =? 3) with false by (symmetry; by apply Z.eqb_neq). }
    split; [exact Hstep |].
    rewrite (sched_consumer call_fun σ t _ Ht) by done. by rewrite Hstep.
  - intros Hu.
    destruct (rejected_item_raises p item rest Hu) as (e & [Hnext | [Hnext Htry]]).
    + exists (ConsumeNext p (item :: rest)), e.
      assert ((sched call_fun t (sched call_fun t σ).2).2
              = with_threads <[t := mkThread (ConsumeNext p (item :: rest)) (Died e)]> σ)
        as Hs.
      { rewrite (sched_consumer call_fun σ t _ Ht) by done. rewrite Hnext. cbn [snd].
        by rewrite (Hdead (ConsumeNext p (item :: rest)) e) by apply lookup_insert_eq. }
      split; [exact Hs |].
      intros os. apply over_exec_ops; [reflexivity |]. rewrite Hs.
      unfold thread_is. simpl. apply lookup_insert_eq.
    + exists (ConsumeTry p item rest), e.
      assert ((sched call_fun t (sched call_fun t σ).2).2
              = with_threads <[t := mkThread (ConsumeTry p item rest) (Died e)]> σ)
        as Hs.
      { rewrite (sched_consumer call_fun σ t _ Ht) by done. rewrite Hnext. cbn [snd].
        rewrite (sched_consumer call_fun _ t (ConsumeTry p item rest))
          by first [apply lookup_insert_eq | done].
        rewrite Htry. cbn [snd]. apply Htwice. }
      split; [exact Hs |].
      intros os. apply over_exec_ops; [reflexivity |]. rewrite Hs.
      unfold thread_is. simpl. apply lookup_insert_eq.
  - intros Hu P Q HP HQ Hto Hroom.
    destruct (unpacks_components item Hu)
      as (callback & star & kwargs & args & Hlen & H0 & H1 & H2 & Hit & Hk & Hadd).
    exists callback, star, kwargs, args.
    split; [exact H0 |]. split; [exact H1 |]. split; [exact H2 |]. split; [exact Hit |].
    rewrite (sched_consumer call_fun σ t _ Ht) by done.
    rewrite (consume_next_step _ _ _ _ _ Hlen). cbn [snd Z.eqb Pos.eqb].
    rewrite (sched_consumer call_fun _ t (ConsumeTry p item rest))
      by first [apply lookup_insert_eq | done].
    set (σ1 := with_threads _ σ).
    assert (consume_step (ConsumeTry p item rest) σ1
            = (Ok (Some (ConsumeNext p rest)),
               with_trace (λ tr, tr ++ [EPut (_queue P) (job_tuple callback args kwargs)])
                 (with_queues
                    <[_queue P := mkQueue (maxsize Q)
                                    (queue Q ++ [job_tuple callback args kwargs])
                                    (unfinished_tasks Q + 1)]> σ1))) as ->.
    { unfold consume_step, try_except. rewrite bind_run, Hadd.
      by rewrite (add_run σ1 p P Q callback args kwargs Hk HP HQ Hto), Hroom. }
    cbn [snd]. subst σ1. unfold with_threads, with_trace, with_queues. simpl.
    by rewrite insert_insert_eq.
Qed.

(** * The theorems at sample runs *)

Lemma forward_shares_queue_witness :
  pools Samples.two_pools !! 0%nat = Some Samples.pool0 ∧
  pools Samples.two_pools !! 1%nat = Some Samples.pool1 ∧
  0%nat ≠ 1%nat ∧
  ∃ q σ1, forward 0%nat 1%nat Samples.two_pools = (Ok 0%nat, σ1) ∧
          pools σ1 !! 0%nat = Some (set__queue_out (Some q) Samples.pool0) ∧
          pools σ1 !! 1%nat = Some (set__queue q Samples.pool1).
Proof.
  split; [reflexivity |]. split; [reflexivity |]. split; [lia |].
  destruct (forward_shares_queue Samples.funs Samples.two_pools 0%nat 1%nat
              Samples.pool0 Samples.pool1 eq_refl eq_refl ltac:(lia))
    as (q & σ1 & _ & Hf & _ & Hp & _).
  exists q, σ1. split; [exact Hf |]. rewrite Hp. split.
  - rewrite lookup_insert_ne by lia. apply lookup_insert_eq.
  - apply lookup_insert_eq.
Defined.

Lemma forward_chain_wires_witness :
  NoDup [0%nat; 1%nat; 2%nat] ∧
  ∃ σ', forward_chain [0%nat; 1%nat; 2%nat] Samples.three_pools = (Ok tt, σ') ∧
        wired 0%nat 1%nat σ' = true ∧ wired 1%nat 2%nat σ' = true.
Proof.
  assert (NoDup [0%nat; 1%nat; 2%nat]) as Hnd
    by (repeat constructor; rewrite ?elem_of_cons, ?elem_of_nil; lia).
  split; [exact Hnd |].
  destruct (forward_chain_wires [0%nat; 1%nat; 2%nat] Samples.three_pools Hnd)
    as (σ' & Hrun & Hw).
  { repeat constructor; eexists; reflexivity. }
  exists σ'. split; [exact Hrun |]. split.
  - by apply (Hw 0%nat).
  - by apply (Hw 1%nat).
Defined.

Lemma queue_within_capacity_witness :
  hands_queue VNone = false ∧
  ∃ p σ1,
    __init__ 2 VNone 1 500 (exec_ops Samples.funs [OInit 2 VNone 3 500] empty_heap)
      = (Ok p, σ1) ∧
    Forall (keeps_input p) [OAdd 1%nat (VFun 0) [VInt 1] []] ∧
    ∃ P Q,
      pools (exec_ops Samples.funs [OAdd 1%nat (VFun 0) [VInt 1] []] σ1) !! p = Some P ∧
      _queue_capacity P = 1 ∧
      queues (exec_ops Samples.funs [OAdd 1%nat (VFun 0) [VInt 1] []] σ1) !! _queue P
        = Some Q ∧
      maxsize Q = 1 ∧
      qsize Q ≤ 1 ∧
      add p (VFun 0) [VInt 2] []
        (exec_ops Samples.funs [OAdd 1%nat (VFun 0) [VInt 1] []] σ1) =
      if qsize Q =? 1
      then (Raise Full,
            with_trace (λ tr, tr ++ [EPutFull (_queue P)])
              (exec_ops Samples.funs [OAdd 1%nat (VFun 0) [VInt 1] []] σ1))
      else (Ok p,
            with_trace
              (λ tr, tr ++ [EPut (_queue P) (job_tuple (VFun 0) [VInt 2] [])])
              (with_queues
                 <[_queue P := mkQueue (maxsize Q)
                                 (queue Q ++ [job_tuple (VFun 0) [VInt 2] []])
                                 (unfinished_tasks Q + 1)]>
                 (exec_ops Samples.funs [OAdd 1%nat (VFun 0) [VInt 1] []] σ1))).
Proof.
  split; [reflexivity |].
  destruct (queue_within_capacity Samples.funs [OInit 2 VNone 3 500] 2 VNone 1 500
              eq_refl) as (p & σ1 & Hinit & Hown & _).
  exists p, σ1. split; [exact Hinit |].
  assert (Forall (keeps_input p) [OAdd 1%nat (VFun 0) [VInt 1] []]) as Hos
    by (repeat constructor).
  split; [exact Hos |].
  destruct (Hown _ Hos) as (P & Q & HP & Hc & HQ & Hm & Hb & Hadd).
  exists P, Q. split; [exact HP |]. split; [exact Hc |]. split; [exact HQ |].
  split; [exact Hm |]. split; [apply Hb; lia |].
  apply Hadd; [lia | lia | reflexivity].
Defined.


Lemma consumer_rejects_wrong_length_witness :
  threads Samples.feeding !! 1%nat
    = Some (mkThread (ConsumeNext 0%nat [Samples.pair_item; Samples.one_job]) Alive) ∧
  py_len Samples.pair_item = Ok 2 ∧
  unpacks Samples.pair_item = false ∧
  sched Samples.funs 1%nat Samples.feeding
    = (Ok tt,
       with_threads
         <[1%nat := mkThread (ConsumeNext 0%nat [Samples.pair_item; Samples.one_job])
                      (Died ValueError)]> Samples.feeding) ∧
  ∃ fr e,
    (sched Samples.funs 1%nat (sched Samples.funs 1%nat Samples.feeding).2).2
      = with_threads <[1%nat := mkThread fr (Died e)]> Samples.feeding.
Proof.
  split; [reflexivity |]. split; [reflexivity |]. split; [reflexivity |].
  destruct (consumer_rejects_wrong_length Samples.funs Samples.feeding 1%nat 0%nat
              Samples.pair_item [Samples.one_job] eq_refl) as (Hlen & Hrej & _).
  split.
  - exact (proj2 (Hlen 2 eq_refl ltac:(lia))).
  - destruct (Hrej eq_refl) as (fr & e & Hs & _). by exists fr, e.
Defined.


Lemma worker_exits_on_empty_witness :
  threads Samples.idle !! 0%nat = Some (mkThread (WorkerLoop 0%nat) Alive) ∧
  pools Samples.idle !! 0%nat = Some Samples.idle_pool ∧
  queues Samples.idle !! 0%nat = Some (Queue_new 3) ∧
  sched Samples.funs 0%nat Samples.idle
    = (Ok tt,
       with_threads <[0%nat := mkThread (WorkerLoop 0%nat) Returned]>
         (with_trace (λ tr, tr ++ [EGetEmpty 0%nat; ELog "No jobs, quitting."])
            Samples.idle)) ∧
  ∀ os, threads (exec_ops Samples.funs os (sched Samples.funs 0%nat Samples.idle).2)
          !! 0%nat
        = Some (mkThread (WorkerLoop 0%nat) Returned).
Proof.
  split; [reflexivity |]. split; [reflexivity |]. split; [reflexivity |].
  destruct (worker_exits_on_empty Samples.funs Samples.idle 0%nat 0%nat
              Samples.idle_pool (Queue_new 3) eq_refl eq_refl eq_refl eq_refl
              ltac:(simpl; lia)) as (_ & _ & Hsched & Hstay).
  split; [exact Hsched | exact Hstay].
Defined.

Lemma add_enqueues_or_full_witness :
  pools Samples.filled !! 1%nat = Some Samples.pool1 ∧
  queues Samples.filled !! 1%nat = Some Samples.full_queue ∧
  add 1%nat (VFun 0) [VInt 2] [] Samples.filled
    = (Raise Full, with_trace (λ tr, tr ++ [EPutFull 1%nat]) Samples.filled) ∧
  (add 0%nat (VFun 0) [VInt 2] [] Samples.filled).1 = Ok 0%nat.
Proof.
  split; [reflexivity |]. split; [reflexivity |]. split.
  - exact (add_enqueues_or_full Samples.filled 1%nat Samples.pool1 Samples.full_queue
             (VFun 0) [VInt 2] [] eq_refl eq_refl ltac:(simpl; lia) eq_refl).
  - by rewrite (add_enqueues_or_full Samples.filled 0%nat Samples.pool0 (Queue_new 3)
                  (VFun 0) [VInt 2] [] eq_refl eq_refl ltac:(simpl; lia) eq_refl).
Defined.

(** * Further properties of the methods *)

(** ** One turn of the worker loop, case by case *)

(** After a successful [get], the turn is the [try]/[finally] around the
    job, then the verdict of [except Empty]. *)
Lemma worker_iter_after_get call_fun (σ : heap) (p : loc) (P : ThreadPool)
    (Q : Queue) (job : value) (rest : list value) :
  pools σ !! p = Some P →
  queues σ !! _queue P = Some Q →
  queue Q = job :: rest →
  0 ≤ _queue_timeout P →
  _thread_run_iter call_fun p σ =
  match try_finally
          (log (ELog "Running job.");;
           result ← call_job call_fun job;
           P1 ← get_pool p;
           match _queue_out P1 with
           | Some qo => Queue_put qo result (_queue_timeout P1)
           | None => mret tt
           end)
          (P2 ← get_pool p; Queue_task_done (_queue P2))
          (with_trace (λ tr, tr ++ [EGet (_queue P) job])
             (with_queues
                <[_queue P := mkQueue (maxsize Q) rest (unfinished_tasks Q)]> σ))
  with
  | (Ok _, s) => (Ok (Some (WorkerLoop p)), s)
  | (Raise e, s) =>
      if exn_eqb e Empty
      then (Ok None, with_trace (λ tr, tr ++ [ELog "No jobs, quitting."]) s)
      else (Raise e, s)
  | (Blocked, s) => (Blocked, s)
  end.
Proof.
  intros HP HQ Hq Ht. unfold _thread_run_iter, try_except.
  rewrite bind_run, (get_pool_run _ _ _ HP). cbv beta iota.
  rewrite bind_run, (Queue_get_run _ _ _ _ _ _ HQ Hq Ht). cbv beta iota.
  rewrite bind_run.
  destruct (try_finally _ _ _) as [[[] | e |] s]; reflexivity.
Qed.

Lemma Queue_task_done_run (σ : heap) (q : loc) (Q : Queue) :
  queues σ !! q = Some Q →
  1 ≤ unfinished_tasks Q →
  Queue_task_done q σ =
  (Ok tt,
   with_queues <[q := mkQueue (maxsize Q) (queue Q) (unfinished_tasks Q - 1)]>
     (with_trace (λ tr, tr ++ [ETaskDone q]) σ)).
Proof.
  intros HQ Hu. unfold Queue_task_done. rewrite HQ. cbv zeta.
  by replace (unfinished_tasks Q - 1 <? 0) with false by (symmetry; apply Z.ltb_ge; lia).
Qed.

Lemma worker_iter_raises call_fun (σ : heap) (p : loc) (P : ThreadPool)
    (Q : Queue) (f : nat) args kwargs (rest : list value) (e : exn) :
  pools σ !! p = Some P →
  queues σ !! _queue P = Some Q →
  queue Q = job_tuple (VFun f) args kwargs :: rest →
  0 ≤ _queue_timeout P →
  1 ≤ unfinished_tasks Q →
  call_fun f args kwargs = inr e →
  _thread_run_iter call_fun p σ =
  if exn_eqb e Empty
  then (Ok None,
        turn_store (_queue P) Q rest
          [EGet (_queue P) (job_tuple (VFun f) args kwargs); ELog "Running job.";
           ECall (job_tuple (VFun f) args kwargs); ETaskDone (_queue P);
           ELog "No jobs, quitting."] σ)
  else (Raise e,
        turn_store (_queue P) Q rest
          [EGet (_queue P) (job_tuple (VFun f) args kwargs); ELog "Running job.";
           ECall (job_tuple (VFun f) args kwargs); ETaskDone (_queue P)] σ).
Proof.
  intros HP HQ Hq Ht Hu Hcall.
  rewrite (worker_iter_after_get _ _ _ _ _ _ _ HP HQ Hq Ht).
  set (σ1 := with_trace _ (with_queues _ σ)).
  unfold try_finally.
  rewrite bind_run. unfold log at 1. cbv beta iota.
  rewrite bind_run, call_job_run, Hcall. cbv beta iota.
  set (σ2 := with_trace _ (with_trace _ σ1)).
  assert (queues σ2 !! _queue P
          = Some (mkQueue (maxsize Q) rest (unfinished_tasks Q))) as HQ2
    by (subst σ2 σ1; simpl; by rewrite lookup_insert_eq).
  rewrite bind_run, (get_pool_run p P σ2 HP). cbv beta iota.
  rewrite (Queue_task_done_run _ _ _ HQ2 Hu).
  unfold turn_store, with_queues, with_trace. simpl.
  rewrite insert_insert_eq.
  destruct (exn_eqb e Empty); by rewrite <- !app_assoc.
Qed.

Lemma worker_iter_returns call_fun (σ : heap) (p : loc) (P : ThreadPool)
    (Q : Queue) (f : nat) args kwargs (rest : list value) (v : value) :
  pools σ !! p = Some P →
  queues σ !! _queue P = Some Q →
  queue Q = job_tuple (VFun f) args kwargs :: rest →
  0 ≤ _queue_timeout P →
  1 ≤ unfinished_tasks Q →
  call_fun f args kwargs = inl v →
  _thread_run_iter call_fun p σ =
  match _queue_out P with
  | None =>
      (Ok (Some (WorkerLoop p)),
       turn_store (_queue P) Q rest
         [EGet (_queue P) (job_tuple (VFun f) args kwargs); ELog "Running job.";
          ECall (job_tuple (VFun f) args kwargs); ETaskDone (_queue P)] σ)
  | Some qo =>
      if decide (qo = _queue P) then _thread_run_iter call_fun p σ
      else
        match queues σ !! qo with
        | None => _thread_run_iter call_fun p σ
        | Some Qo =>
            if full Qo
            then (Raise Full,
                  turn_store (_queue P) Q rest
                    [EGet (_queue P) (job_tuple (VFun f) args kwargs);
                     ELog "Running job.";
                     ECall (job_tuple (VFun f) args kwargs); EPutFull qo;
                     ETaskDone (_queue P)] σ)
            else (Ok (Some (WorkerLoop p)),
                  turn_store (_queue P) Q rest
                    [EGet (_queue P) (job_tuple (VFun f) args kwargs);
                     ELog "Running job.";
                     ECall (job_tuple (VFun f) args kwargs); EPut qo v;
                     ETaskDone (_queue P)]
                    (with_queues
                       <[qo := mkQueue (maxsize Qo) (queue Qo ++ [v])
                                 (unfinished_tasks Qo + 1)]> σ))
        end
  end.
Proof.
  intros HP HQ Hq Ht Hu Hcall.
  destruct (_queue_out P) as [qo |] eqn:Hout.
  - destruct (decide (qo = _queue P)) as [| Hne]; [reflexivity |].
    destruct (queues σ !! qo) as [Qo |] eqn:HQo; [| reflexivity].
    rewrite (worker_iter_after_get _ _ _ _ _ _ _ HP HQ Hq Ht).
    set (σ1 := with_trace _ (with_queues _ σ)).
    unfold try_finally.
    rewrite bind_run. unfold log at 1. cbv beta iota.
    rewrite bind_run, call_job_run, Hcall. cbv beta iota.
    set (σ2 := with_trace _ (with_trace _ σ1)).
    rewrite bind_run, (get_pool_run p P σ2 HP). cbv beta iota. rewrite Hout.
    assert (queues σ2 !! qo = Some Qo) as HQo2
      by (subst σ2 σ1; simpl; by rewrite lookup_insert_ne).
    rewrite (Queue_put_run _ _ _ _ _ HQo2 Ht).
    destruct (full Qo).
    + set (σ3 := with_trace _ σ2).
      assert (queues σ3 !! _queue P
              = Some (mkQueue (maxsize Q) rest (unfinished_tasks Q))) as HQ3
        by (subst σ3 σ2 σ1; simpl; by rewrite lookup_insert_eq).
      rewrite bind_run, (get_pool_run p P σ3 HP). cbv beta iota.
      rewrite (Queue_task_done_run _ _ _ HQ3 Hu).
      unfold turn_store, with_queues, with_trace. simpl.
      by rewrite insert_insert_eq, <- !app_assoc.
    + set (σ3 := with_trace _ (with_queues _ σ2)).
      assert (queues σ3 !! _queue P
              = Some (mkQueue (maxsize Q) rest (unfinished_tasks Q))) as HQ3.
      { subst σ3 σ2 σ1. simpl. rewrite lookup_insert_ne by done.
        by rewrite lookup_insert_eq. }
      rewrite bind_run, (get_pool_run p P σ3 HP). cbv beta iota.
      rewrite (Queue_task_done_run _ _ _ HQ3 Hu).
      unfold turn_store, with_queues, with_trace. simpl.
      rewrite <- !app_assoc. simpl.
      rewrite (insert_insert_ne (queues σ) qo (_queue P)) by done.
      by rewrite insert_insert_eq.
  - rewrite (worker_iter_after_get _ _ _ _ _ _ _ HP HQ Hq Ht).
    set (σ1 := with_trace _ (with_queues _ σ)).
    unfold try_finally.
    rewrite bind_run. unfold log at 1. cbv beta iota.
    rewrite bind_run, call_job_run, Hcall. cbv beta iota.
    set (σ2 := with_trace _ (with_trace _ σ1)).
    rewrite bind_run, (get_pool_run p P σ2 HP). cbv beta iota. rewrite Hout.
    unfold mret at 1, M_ret at 1.
    assert (queues σ2 !! _queue P
            = Some (mkQueue (maxsize Q) rest (unfinished_tasks Q))) as HQ2
      by (subst σ2 σ1; simpl; by rewrite lookup_insert_eq).
    rewrite bind_run, (get_pool_run p P σ2 HP). cbv beta iota.
    rewrite (Queue_task_done_run _ _ _ HQ2 Hu).
    unfold turn_store, with_queues, with_trace. simpl.
    by rewrite insert_insert_eq, <- !app_assoc.
Qed.

Lemma sched_worker call_fun (σ : heap) (t p : loc) :
  threads σ !! t = Some (mkThread (WorkerLoop p) Alive) →
  sched call_fun t σ =
  match _thread_run_iter call_fun p σ with
  | (Ok (Some fr'), σ') => (Ok tt, with_threads <[t := mkThread fr' Alive]> σ')
  | (Ok None, σ') => (Ok tt, with_threads <[t := mkThread (WorkerLoop p) Returned]> σ')
  | (Raise e, σ') => (Ok tt, with_threads <[t := mkThread (WorkerLoop p) (Died e)]> σ')
  | (Blocked, σ') => (Ok tt, σ')
  end.
Proof. intros Ht. unfold sched. by rewrite Ht. Qed.

(** ** What a failing job does to its worker *)

(** X1: a live worker of pool [p] takes a job whose call raises an
    exception other than [Empty]. The job is gone from the queue and is not
    put back, [task_done] has been called, nothing went to an output queue,
    and the worker's thread has died of that exception; whatever is called
    afterwards the thread stays dead, so the pool has one worker fewer. *)
Theorem worker_dies_on_job_error
    (call_fun : nat → list value → list (string * value) → value + exn)
    (σ : heap) (t p : loc) (P : ThreadPool) (Q : Queue)
    (f : nat) args kwargs (rest : list value) (e : exn) :
  threads σ !! t = Some (mkThread (WorkerLoop p) Alive) →
  pools σ !! p = Some P →
  queues σ !! _queue P = Some Q →
  queue Q = job_tuple (VFun f) args kwargs :: rest →
  0 ≤ _queue_timeout P →
  1 ≤ unfinished_tasks Q →
  call_fun f args kwargs = inr e →
  exn_eqb e Empty = false →
  sched call_fun t σ =
    (Ok tt,
     with_threads <[t := mkThread (WorkerLoop p) (Died e)]>
       (turn_store (_queue P) Q rest
          [EGet (_queue P) (job_tuple (VFun f) args kwargs); ELog "Running job.";
           ECall (job_tuple (VFun f) args kwargs); ETaskDone (_queue P)] σ)) ∧
  ∀ os, threads (exec_ops call_fun os (sched call_fun t σ).2) !! t
        = Some (mkThread (WorkerLoop p) (Died e)).
Proof.
  intros Ht HP HQ Hq Hto Hu Hcall He.
  assert (sched call_fun t σ =
          (Ok tt,
           with_threads <[t := mkThread (WorkerLoop p) (Died e)]>
             (turn_store (_queue P) Q rest
                [EGet (_queue P) (job_tuple (VFun f) args kwargs); ELog "Running job.";
                 ECall (job_tuple (VFun f) args kwargs); ETaskDone (_queue P)] σ)))
    as Hsched.
  { rewrite (sched_worker _ _ _ _ Ht).
    by rewrite (worker_iter_raises _ _ _ _ _ _ _ _ _ _ HP HQ Hq Hto Hu Hcall), He. }
  split; [exact Hsched |].
  intros os. apply over_exec_ops; [reflexivity |]. rewrite Hsched.
  unfold thread_is. simpl. apply lookup_insert_eq.
Qed.

(** X2: a live worker takes a job whose call raises [Empty]. The handler
    meant for the empty queue catches it: the worker logs that there are no
    jobs and returns for good, whatever jobs [rest] are still queued. *)
Theorem worker_quits_when_job_raises_Empty
    (call_fun : nat → list value → list (string * value) → value + exn)
    (σ : heap) (t p : loc) (P : ThreadPool) (Q : Queue)
    (f : nat) args kwargs (rest : list value) :
  threads σ !! t = Some (mkThread (WorkerLoop p) Alive) →
  pools σ !! p = Some P →
  queues σ !! _queue P = Some Q →
  queue Q = job_tuple (VFun f) args kwargs :: rest →
  0 ≤ _queue_timeout P →
  1 ≤ unfinished_tasks Q →
  call_fun f args kwargs = inr Empty →
  sched call_fun t σ =
    (Ok tt,
     with_threads <[t := mkThread (WorkerLoop p) Returned]>
       (turn_store (_queue P) Q rest
          [EGet (_queue P) (job_tuple (VFun f) args kwargs); ELog "Running job.";
           ECall (job_tuple (VFun f) args kwargs); ETaskDone (_queue P);
           ELog "No jobs, quitting."] σ)) ∧
  ∀ os, threads (exec_ops call_fun os (sched call_fun t σ).2) !! t
        = Some (mkThread (WorkerLoop p) Returned).
Proof.
  intros Ht HP HQ Hq Hto Hu Hcall.
  assert (sched call_fun t σ =
          (Ok tt,
           with_threads <[t := mkThread (WorkerLoop p) Returned]>
             (turn_store (_queue P) Q rest
                [EGet (_queue P) (job_tuple (VFun f) args kwargs); ELog "Running job.";
                 ECall (job_tuple (VFun f) args kwargs); ETaskDone (_queue P);
                 ELog "No jobs, quitting."] σ)))
    as Hsched.
  { rewrite (sched_worker _ _ _ _ Ht).
    by rewrite (worker_iter_raises _ _ _ _ _ _ _ _ _ _ HP HQ Hq Hto Hu Hcall). }
  split; [exact Hsched |].
  intros os. apply over_exec_ops; [reflexivity |]. rewrite Hsched.
  unfold thread_is. simpl. apply lookup_insert_eq.
Qed.

(** X3: a live worker of a pool that forwards to queue [qo] runs a job
    that returns [v] while [qo] is still full at the timeout. The put raises
    [Full], which nothing catches: the worker's thread dies of it, [v] is on
    no queue, and [qo] is as it was; [task_done] has still been called on the
    input queue. *)
Theorem worker_dies_when_output_full
    (call_fun : nat → list value → list (string * value) → value + exn)
    (σ : heap) (t p qo : loc) (P : ThreadPool) (Q Qo : Queue)
    (f : nat) args kwargs (rest : list value) (v : value) :
  threads σ !! t = Some (mkThread (WorkerLoop p) Alive) →
  pools σ !! p = Some P →
  queues σ !! _queue P = Some Q →
  queue Q = job_tuple (VFun f) args kwargs :: rest →
  0 ≤ _queue_timeout P →
  1 ≤ unfinished_tasks Q →
  call_fun f args kwargs = inl v →
  _queue_out P = Some qo →
  qo ≠ _queue P →
  queues σ !! qo = Some Qo →
  full Qo = true →
  sched call_fun t σ =
    (Ok tt,
     with_threads <[t := mkThread (WorkerLoop p) (Died Full)]>
       (turn_store (_queue P) Q rest
          [EGet (_queue P) (job_tuple (VFun f) args kwargs); ELog "Running job.";
           ECall (job_tuple (VFun f) args kwargs); EPutFull qo;
           ETaskDone (_queue P)] σ)) ∧
  queues (sched call_fun t σ).2 !! qo = Some Qo.
Proof.
  intros Ht HP HQ Hq Hto Hu Hcall Hout Hne HQo Hfull.
  assert (sched call_fun t σ =
          (Ok tt,
           with_threads <[t := mkThread (WorkerLoop p) (Died Full)]>
             (turn_store (_queue P) Q rest
                [EGet (_queue P) (job_tuple (VFun f) args kwargs); ELog "Running job.";
                 ECall (job_tuple (VFun f) args kwargs); EPutFull qo;
                 ETaskDone (_queue P)] σ)))
    as Hsched.
  { rewrite (sched_worker _ _ _ _ Ht).
    rewrite (worker_iter_returns _ _ _ _ _ _ _ _ _ _ HP HQ Hq Hto Hu Hcall), Hout.
    destruct (decide (qo = _queue P)); [done |]. by rewrite HQo, Hfull. }
  split; [exact Hsched |].
  rewrite Hsched. simpl. by rewrite lookup_insert_ne.
Qed.

Lemma empty_not_full (Q : Queue) : queue Q = [] → full Q = false.
Proof.
  intros Hq. unfold full, qsize. rewrite Hq.
  destruct (0 <? maxsize Q) eqn:Hm; [| reflexivity].
  apply Z.ltb_lt in Hm. apply Z.eqb_neq. simpl. lia.
Qed.

(** ** From [add] to the call *)

(** X4: a job is added to a pool whose queue is empty, with keywords that
    [add] can take, and a live worker of the pool takes its turn (no output
    queue, the call returns). The worker calls exactly the triple that [add]
    was given, once; afterwards the store is the one before [add] but for
    the five events: the queue is empty again, with the same count of
    unfinished tasks, and the worker is back at the head of its loop. *)
Theorem add_then_worker_runs_job
    (call_fun : nat → list value → list (string * value) → value + exn)
    (σ : heap) (t p : loc) (P : ThreadPool) (Q : Queue)
    (f : nat) args kwargs (v : value) :
  threads σ !! t = Some (mkThread (WorkerLoop p) Alive) →
  pools σ !! p = Some P →
  queues σ !! _queue P = Some Q →
  queue Q = [] →
  0 ≤ _queue_timeout P →
  0 ≤ unfinished_tasks Q →
  _queue_out P = None →
  call_fun f args kwargs = inl v →
  has_key "self" kwargs || has_key "callback" kwargs = false →
  (add p (VFun f) args kwargs σ).1 = Ok p ∧
  sched call_fun t (add p (VFun f) args kwargs σ).2 =
    (Ok tt,
     with_trace
       (λ tr, tr ++ [EPut (_queue P) (job_tuple (VFun f) args kwargs);
                     EGet (_queue P) (job_tuple (VFun f) args kwargs);
                     ELog "Running job.";
                     ECall (job_tuple (VFun f) args kwargs);
                     ETaskDone (_queue P)]) σ).
Proof.
  intros Ht HP HQ Hq Hto Hu Hout Hcall Hk.
  rewrite (add_run _ _ _ _ _ _ _ Hk HP HQ Hto), (empty_not_full Q Hq).
  split; [reflexivity |]. cbn [snd].
  set (job := job_tuple (VFun f) args kwargs).
  set (Q1 := mkQueue (maxsize Q) (queue Q ++ [job]) (unfinished_tasks Q + 1)).
  set (σ1 := with_trace _ (with_queues _ σ)).
  assert (queues σ1 !! _queue P = Some Q1) as HQ1 by apply lookup_insert_eq.
  assert (queue Q1 = job :: []) as Hq1 by (subst Q1; simpl; by rewrite Hq).
  assert (1 ≤ unfinished_tasks Q1) as Hu1 by (subst Q1; simpl; lia).
  rewrite (sched_worker call_fun σ1 t p Ht).
  rewrite (worker_iter_returns call_fun σ1 p P Q1 f args kwargs [] v
             HP HQ1 Hq1 Hto Hu1 Hcall), Hout.
  unfold turn_store, with_threads, with_queues, with_trace. subst σ1 Q1. simpl.
  rewrite insert_insert_eq.
  replace (unfinished_tasks Q + 1 - 1) with (unfinished_tasks Q) by lia.
  assert (mkQueue (maxsize Q) [] (unfinished_tasks Q) = Q) as ->
    by (destruct Q; simpl in *; by subst).
  rewrite (insert_id _ _ _ HQ), (insert_id _ _ _ Ht).
  rewrite <- app_assoc. by destruct σ.
Qed.

(** ** A two-stage pipeline *)

(** X5: pool [a] forwards to pool [b] through the empty queue [q]. A
    worker of [a] runs a job that returns a job triple [v]; then a worker of
    [b] takes its turn. The worker of [b] finds [v] in [q] and calls it: the
    trace shows [a]'s call, the put of [v] on [q], then [b]'s get and call of
    [v]. Afterwards [a]'s queue holds the rest of its jobs, [q] is empty
    again, and both workers are alive at the head of their loops. *)
Theorem pipeline_hands_result_to_next_pool
    (call_fun : nat → list value → list (string * value) → value + exn)
    (σ : heap) (ta tb a b q : loc) (Pa Pb : ThreadPool) (Qa Qo : Queue)
    (f g : nat) args kwargs args2 kwargs2 (rest : list value) (w : value) :
  threads σ !! ta = Some (mkThread (WorkerLoop a) Alive) →
  threads σ !! tb = Some (mkThread (WorkerLoop b) Alive) →
  pools σ !! a = Some Pa →
  pools σ !! b = Some Pb →
  _queue_out Pa = Some q →
  _queue Pb = q →
  _queue_out Pb = None →
  q ≠ _queue Pa →
  queues σ !! _queue Pa = Some Qa →
  queue Qa = job_tuple (VFun f) args kwargs :: rest →
  1 ≤ unfinished_tasks Qa →
  queues σ !! q = Some Qo →
  queue Qo = [] →
  0 ≤ unfinished_tasks Qo →
  0 ≤ _queue_timeout Pa →
  0 ≤ _queue_timeout Pb →
  call_fun f args kwargs = inl (job_tuple (VFun g) args2 kwargs2) →
  call_fun g args2 kwargs2 = inl w →
  trace (sched call_fun tb (sched call_fun ta σ).2).2 =
    trace σ ++
    [EGet (_queue Pa) (job_tuple (VFun f) args kwargs); ELog "Running job.";
     ECall (job_tuple (VFun f) args kwargs);
     EPut q (job_tuple (VFun g) args2 kwargs2); ETaskDone (_queue Pa);
     EGet q (job_tuple (VFun g) args2 kwargs2); ELog "Running job.";
     ECall (job_tuple (VFun g) args2 kwargs2); ETaskDone q] ∧
  queues (sched call_fun tb (sched call_fun ta σ).2).2 =
    <[_queue Pa := mkQueue (maxsize Qa) rest (unfinished_tasks Qa - 1)]> (queues σ) ∧
  threads (sched call_fun tb (sched call_fun ta σ).2).2 = threads σ.
Proof.
  intros Hta Htb HPa HPb Hout Hin Houtb Hne HQa Hqa Hua HQo Hqo Huo Htoa Htob Hf Hg.
  assert (ta ≠ tb) as Htab.
  { intros ->. rewrite Hta in Htb. injection Htb as Hab.
    rewrite Hab, HPb in HPa. injection HPa as Hp. rewrite Hp in Houtb. congruence. }
  set (v := job_tuple (VFun g) args2 kwargs2).
  rewrite (sched_worker call_fun σ ta a Hta).
  rewrite (worker_iter_returns call_fun σ a Pa Qa f args kwargs rest v
             HPa HQa Hqa Htoa Hua Hf), Hout.
  destruct (decide (q = _queue Pa)); [done |]. rewrite HQo, (empty_not_full Qo Hqo).
  cbn [snd].
  set (Q1 := mkQueue (maxsize Qo) (queue Qo ++ [v]) (unfinished_tasks Qo + 1)).
  set (σ1 := with_threads _ (turn_store _ _ _ _ _)).
  assert (threads σ1 !! tb = Some (mkThread (WorkerLoop b) Alive)) as Htb1
    by (subst σ1; simpl; by rewrite lookup_insert_ne).
  assert (queues σ1 !! _queue Pb = Some Q1) as HQ1.
  { subst σ1. simpl. rewrite Hin. rewrite lookup_insert_ne by done.
    apply lookup_insert_eq. }
  assert (queue Q1 = v :: []) as Hq1 by (subst Q1; simpl; by rewrite Hqo).
  assert (1 ≤ unfinished_tasks Q1) as Hu1 by (subst Q1; simpl; lia).
  rewrite (sched_worker call_fun σ1 tb b Htb1).
  rewrite (worker_iter_returns call_fun σ1 b Pb Q1 g args2 kwargs2 [] w
             HPb HQ1 Hq1 Htob Hu1 Hg), Houtb.
  unfold turn_store, with_threads, with_queues, with_trace. subst σ1 Q1.
  simpl. rewrite Hin. split; [by rewrite <- !app_assoc |]. split.
  - rewrite (insert_insert_ne _ q (_queue Pa)) by done.
    rewrite insert_insert_eq.
    replace (unfinished_tasks Qo + 1 - 1) with (unfinished_tasks Qo) by lia.
    assert (mkQueue (maxsize Qo) [] (unfinished_tasks Qo) = Qo) as ->
      by (destruct Qo; simpl in *; by subst).
    by rewrite (insert_id _ _ _ HQo).
  - rewrite (insert_id _ _ _ Hta). by apply insert_id.
Qed.

(** ** Feeding a whole source *)

Lemma room_not_full (Q : Queue) (n : nat) :
  maxsize Q ≤ 0 ∨ qsize Q + Z.of_nat (S n) ≤ maxsize Q → full Q = false.
Proof.
  intros Hroom. unfold full. apply andb_false_iff.
  destruct Hroom as [H | H].
  - left. apply Z.ltb_ge. lia.
  - right. apply Z.eqb_neq. lia.
Qed.

Lemma alone_S (n : nat) : alone (S n) = (λ s, s) :: alone n.
Proof. reflexivity. Qed.

Lemma consume_next_feeds (jobs : list (value * list value * list (string * value)))
    (σ : heap) (p : loc) (P : ThreadPool) (Q : Queue) (k : nat) :
  pools σ !! p = Some P →
  Forall (λ j, clash_free j = true) jobs →
  queues σ !! _queue P = Some Q →
  0 ≤ _queue_timeout P →
  maxsize Q ≤ 0 ∨ qsize Q + Z.of_nat (length jobs) ≤ maxsize Q →
  consume_run (alone (2 * length jobs + 1 + k)) (ConsumeNext p (job_of <$> jobs)) σ =
  (Ok None,
   with_trace (λ tr, tr ++ (EPut (_queue P) <$> (job_of <$> jobs)))
     (with_queues
        <[_queue P := mkQueue (maxsize Q) (queue Q ++ (job_of <$> jobs))
                        (unfinished_tasks Q + Z.of_nat (length jobs))]> σ)).
Proof.
  revert σ Q. induction jobs as [| j js IH]; intros σ Q HP Hfree HQ Hto Hroom.
  - simpl. unfold with_trace, with_queues. simpl.
    rewrite !app_nil_r, Z.add_0_r.
    assert (mkQueue (maxsize Q) (queue Q) (unfinished_tasks Q) = Q) as ->
      by (by destruct Q).
    rewrite (insert_id _ _ _ HQ). by destruct σ.
  - apply Forall_cons in Hfree as [Hj Hfree].
    unfold clash_free in Hj. apply negb_true_iff in Hj.
    replace (2 * length (j :: js) + 1 + k)%nat
      with (S (S (2 * length js + 1 + k))) by (simpl; lia).
    rewrite !alone_S, fmap_cons, consume_run_cons.
    change (consume_step (ConsumeNext p (job_of j :: (job_of <$> js))) σ)
      with (Ok (Some (ConsumeTry p (job_of j) (job_of <$> js))), σ).
    cbv beta iota. rewrite consume_run_cons.
    change (job_of j) with (job_tuple j.1.1 j.1.2 j.2).
    rewrite (consume_try_step σ p P Q _ _ _ _ Hj HP HQ Hto).
    rewrite (room_not_full Q (length js) Hroom). cbv beta iota.
    change (job_tuple j.1.1 j.1.2 j.2) with (job_of j).
    set (Q1 := mkQueue (maxsize Q) (queue Q ++ [job_of j]) (unfinished_tasks Q + 1)).
    set (σ1 := with_trace _ (with_queues _ σ)).
    assert (queues σ1 !! _queue P = Some Q1) as HQ1 by apply lookup_insert_eq.
    rewrite (IH σ1 Q1 HP Hfree HQ1 Hto).
    + unfold with_trace, with_queues. subst σ1 Q1. simpl.
      rewrite insert_insert_eq, <- !app_assoc. simpl.
      by replace (unfinished_tasks Q + 1 + Z.of_nat (length js))
        with (unfinished_tasks Q + Z.pos (Pos.of_succ_nat (length js))) by lia.
    + destruct Hroom as [H | H]; [by left |]. right. subst Q1.
      unfold qsize in *. simpl in *. rewrite length_app. simpl. lia.
Qed.

(** X6: the consumer of pool [p] runs alone over a source that yields the
    job triples [jobs], none with a keyword named like a parameter of [add],
    and the queue is unbounded or has room for all of them. After two steps
    per job and two more (more steps change nothing) [_consume] has
    returned, and the queue holds what it held followed by every job of the
    source, each once, in the order of the source; as many more tasks are
    unfinished. *)
Theorem consumer_feeds_source_in_order
    (jobs : list (value * list value * list (string * value)))
    (σ : heap) (p : loc) (P : ThreadPool) (Q : Queue) (k : nat) :
  pools σ !! p = Some P →
  py_iter (_source P) = Ok (job_of <$> jobs) →
  Forall (λ j, clash_free j = true) jobs →
  queues σ !! _queue P = Some Q →
  0 ≤ _queue_timeout P →
  maxsize Q ≤ 0 ∨ qsize Q + Z.of_nat (length jobs) ≤ maxsize Q →
  consume_run (alone (2 * length jobs + 2 + k)) (ConsumeStart p) σ =
  (Ok None,
   with_trace (λ tr, tr ++ (EPut (_queue P) <$> (job_of <$> jobs)))
     (with_queues
        <[_queue P := mkQueue (maxsize Q) (queue Q ++ (job_of <$> jobs))
                        (unfinished_tasks Q + Z.of_nat (length jobs))]> σ)).
Proof.
  intros HP Hsrc Hfree HQ Hto Hroom.
  replace (2 * length jobs + 2 + k)%nat with (S (2 * length jobs + 1 + k)) by lia.
  rewrite alone_S, consume_run_cons.
  assert (consume_step (ConsumeStart p) σ
          = (Ok (Some (ConsumeNext p (job_of <$> jobs))), σ)) as ->.
  { unfold consume_step. rewrite bind_run, (get_pool_run _ _ _ HP). cbv beta iota.
    rewrite bind_run. unfold lift. by rewrite Hsrc. }
  by apply consume_next_feeds.
Qed.

(** ** Forwarding again, and forwarding into a pool that has jobs *)

Lemma fresh_insert_ne {V} (m : gmap loc V) (v : V) :
  fresh (dom (<[fresh (dom m) := v]> m)) ≠ fresh (dom m).
Proof.
  intros E. apply (is_fresh (dom (<[fresh (dom m) := v]> m))).
  rewrite E. apply elem_of_dom. rewrite lookup_insert_eq. eauto.
Qed.

(** X7: [a >> b >> c] on three distinct pools of any store. The expression
    returns [a]; [a] ends up wired to [c] and no longer to [b], whose input
    queue is still the queue of the first forward, now written by nobody;
    [b] itself has the output it had before. *)
Theorem second_forward_replaces_first (σ : heap) (a b c : loc)
    (Pa Pb Pc : ThreadPool) :
  pools σ !! a = Some Pa →
  pools σ !! b = Some Pb →
  pools σ !! c = Some Pc →
  a ≠ b → a ≠ c → b ≠ c →
  ∃ σ' q1 q2,
    rshift_chain a b c σ = (Ok a, σ') ∧
    q1 ≠ q2 ∧
    pools σ' !! a = Some (set__queue_out (Some q2) Pa) ∧
    pools σ' !! b = Some (set__queue q1 Pb) ∧
    pools σ' !! c = Some (set__queue q2 Pc) ∧
    wired a c σ' = true ∧
    wired a b σ' = false.
Proof.
  intros Ha Hb Hc Hab Hac Hbc.
  set (q1 := fresh (dom (queues σ))).
  set (σ1 := forwarded a b Pa Pb σ).
  set (q2 := fresh (dom (queues σ1))).
  assert (pools σ1 !! a = Some (set__queue_out (Some q1) Pa)) as Ha1.
  { subst σ1. unfold forwarded. simpl. rewrite lookup_insert_ne by done.
    apply lookup_insert_eq. }
  assert (pools σ1 !! c = Some Pc) as Hc1.
  { subst σ1. unfold forwarded. simpl. by rewrite !lookup_insert_ne. }
  assert (q2 ≠ q1) as Hq by apply fresh_insert_ne.
  exists (forwarded a c (set__queue_out (Some q1) Pa) Pc σ1), q1, q2.
  split.
  { unfold rshift_chain, rshift.
    rewrite bind_run, (forward_run _ _ _ _ _ Ha Hb Hab). cbv beta iota.
    by apply forward_run. }
  split; [done |].
  assert (pools (forwarded a c (set__queue_out (Some q1) Pa) Pc σ1) !! a
          = Some (set__queue_out (Some q2) Pa)) as Ha2.
  { unfold forwarded. simpl. rewrite lookup_insert_ne by done.
    by rewrite lookup_insert_eq. }
  assert (pools (forwarded a c (set__queue_out (Some q1) Pa) Pc σ1) !! b
          = Some (set__queue q1 Pb)) as Hb2.
  { unfold forwarded. simpl. rewrite !lookup_insert_ne by done.
    apply lookup_insert_eq. }
  split; [exact Ha2 |]. split; [exact Hb2 |].
  split; [apply lookup_insert_eq |].
  split; [by apply forward_wires |].
  unfold wired. rewrite Ha2, Hb2. simpl.
  by replace (q2 =? q1)%nat with false by (symmetry; by apply Nat.eqb_neq).
Qed.

Lemma worker_iter_on_empty call_fun (σ : heap) (p : loc) (P : ThreadPool) (Q : Queue) :
  pools σ !! p = Some P →
  queues σ !! _queue P = Some Q →
  queue Q = [] →
  0 ≤ _queue_timeout P →
  _thread_run_iter call_fun p σ =
  (Ok None,
   with_trace (λ tr, tr ++ [EGetEmpty (_queue P); ELog "No jobs, quitting."]) σ).
Proof.
  intros HP HQ Hq Hto. unfold _thread_run_iter, try_except.
  rewrite !bind_run, (get_pool_run _ _ _ HP).
  rewrite !bind_run, (Queue_get_empty σ _ Q _ HQ Hq Hto). simpl.
  unfold log, with_trace. simpl. rewrite !bind_run. simpl.
  unfold mret, M_ret. by rewrite <- app_assoc.
Qed.

Lemma step_run call_fun (σ : heap) (t : loc) (fr : frame) :
  threads σ !! t = Some (mkThread fr Alive) →
  step call_fun t σ =
  match small_step call_fun fr σ with
  | (Ok (Some fr'), σ') => (Ok tt, with_threads <[t := mkThread fr' Alive]> σ')
  | (Ok None, σ') => (Ok tt, with_threads <[t := mkThread fr Returned]> σ')
  | (Raise e, σ') => (Ok tt, with_threads <[t := mkThread fr (Died e)]> σ')
  | (Blocked, σ') => (Ok tt, σ')
  end.
Proof. intros Ht. unfold step. by rewrite Ht. Qed.

(** X8: pool [b] has a queue, with whatever jobs in it, when another pool
    [a] is forwarded to it. The forward gives [b] a fresh, empty input queue
    and leaves the old one where it was. A live worker of [b] that stands at
    the head of its loop, and so has not yet called [get], finds nothing
    when it takes its turn and returns for good, while the old queue still
    holds exactly what it held. But a worker of [b] that was already waiting
    in [get] when the forward happened is waiting on the old queue: it takes
    the old queue's first job and calls it, and its [task_done] then goes to
    the new queue, which has no unfinished task, so that the worker dies of
    [ValueError]; the old queue is left with one unfinished task that
    nobody will mark done. *)
Theorem forward_strands_queued_jobs
    (call_fun : nat → list value → list (string * value) → value + exn)
    (σ : heap) (a b : loc) (Pa Pb : ThreadPool) (Qb : Queue) :
  pools σ !! a = Some Pa →
  pools σ !! b = Some Pb →
  a ≠ b →
  queues σ !! _queue Pb = Some Qb →
  ∃ σ1 q,
    forward a b σ = (Ok a, σ1) ∧
    q ≠ _queue Pb ∧
    pools σ1 !! b = Some (set__queue q Pb) ∧
    queues σ1 !! q = Some (Queue_new (_queue_capacity Pa)) ∧
    (∀ t, threads σ !! t = Some (mkThread (WorkerLoop b) Alive) →
          0 ≤ _queue_timeout Pb →
       sched call_fun t σ1 =
         (Ok tt,
          with_threads <[t := mkThread (WorkerLoop b) Returned]>
            (with_trace (λ tr, tr ++ [EGetEmpty q; ELog "No jobs, quitting."]) σ1)) ∧
       queues (sched call_fun t σ1).2 !! _queue Pb = Some Qb) ∧
    (∀ t timeout f args kwargs rest v,
       threads σ !! t = Some (mkThread (WorkerGet b (_queue Pb) timeout) Alive) →
       0 ≤ timeout →
       queue Qb = job_tuple (VFun f) args kwargs :: rest →
       call_fun f args kwargs = inl v →
       _queue_out Pb = None →
       exec_ops call_fun [OStep t; OStep t; OStep t] σ1 =
         with_threads <[t := mkThread (WorkerFinally b None) (Died ValueError)]>
           (with_trace
              (λ tr, tr ++ [EGet (_queue Pb) (job_tuple (VFun f) args kwargs);
                            ELog "Running job.";
                            ECall (job_tuple (VFun f) args kwargs);
                            ETaskDone q])
              (with_queues
                 <[_queue Pb := mkQueue (maxsize Qb) rest (unfinished_tasks Qb)]> σ1))).
Proof.
  intros Ha Hb Hab HQb.
  set (q := fresh (dom (queues σ))).
  assert (q ≠ _queue Pb) as Hq by (by eapply fresh_lookup_ne).
  exists (forwarded a b Pa Pb σ), q.
  assert (pools (forwarded a b Pa Pb σ) !! b = Some (set__queue q Pb)) as Hb1
    by apply lookup_insert_eq.
  assert (queues (forwarded a b Pa Pb σ) !! q = Some (Queue_new (_queue_capacity Pa)))
    as Hq1 by apply lookup_insert_eq.
  assert (queues (forwarded a b Pa Pb σ) !! _queue Pb = Some Qb) as HQb1
    by (unfold forwarded; simpl; by rewrite lookup_insert_ne).
  split; [by apply forward_run |]. split; [exact Hq |].
  split; [exact Hb1 |]. split; [exact Hq1 |]. split.
  - intros t Ht Hto.
    assert (sched call_fun t (forwarded a b Pa Pb σ) =
            (Ok tt,
             with_threads <[t := mkThread (WorkerLoop b) Returned]>
               (with_trace (λ tr, tr ++ [EGetEmpty q; ELog "No jobs, quitting."])
                  (forwarded a b Pa Pb σ)))) as Hsched.
    { rewrite (sched_worker call_fun (forwarded a b Pa Pb σ) t b Ht).
      by rewrite (worker_iter_on_empty call_fun _ b (set__queue q Pb)
                    (Queue_new (_queue_capacity Pa)) Hb1 Hq1 eq_refl Hto). }
    split; [exact Hsched |]. rewrite Hsched. exact HQb1.
  - intros t timeout f args kwargs rest v Ht Hto Hjob Hcall Hout.
    set (σ1 := forwarded a b Pa Pb σ) in *.
    set (job := job_tuple (VFun f) args kwargs) in *.
    change (exec_ops call_fun [OStep t; OStep t; OStep t] σ1)
      with (step call_fun t (step call_fun t (step call_fun t σ1).2).2).2.
    rewrite (step_run call_fun σ1 t _ Ht).
    unfold small_step, worker_step at 1, try_except.
    rewrite bind_run, (Queue_get_run σ1 _ Qb job rest timeout HQb1 Hjob Hto).
    cbv beta iota. unfold mret at 1, M_ret at 1. cbn [snd].
    set (σ2 := with_threads _ (with_trace _ (with_queues _ σ1))).
    rewrite (step_run call_fun σ2 t (WorkerCall b job)) by apply lookup_insert_eq.
    unfold small_step, worker_step at 1.
    assert (pools σ2 !! b = Some (set__queue q Pb)) as Hb2 by exact Hb1.
    rewrite bind_run. unfold rescue.
    rewrite bind_run. unfold log at 1. cbv beta iota.
    rewrite bind_run. subst job. rewrite call_job_run, Hcall. cbv beta iota.
    set (job := job_tuple (VFun f) args kwargs).
    rewrite bind_run.
    set (σ3 := with_trace _ (with_trace _ σ2)).
    rewrite (get_pool_run b (set__queue q Pb) σ3 Hb2). cbv beta iota.
    unfold mret at 1, M_ret at 1. cbv beta iota.
    change (_queue_out (set__queue q Pb)) with (_queue_out Pb). rewrite Hout.
    unfold mret at 1, M_ret at 1. cbn [snd].
    set (σ4 := with_threads _ σ3).
    rewrite (step_run call_fun σ4 t (WorkerFinally b None)) by apply lookup_insert_eq.
    unfold small_step, worker_step at 1, try_except.
    assert (pools σ4 !! b = Some (set__queue q Pb)) as Hb4 by exact Hb1.
    rewrite bind_run, (get_pool_run b _ σ4 Hb4). cbv beta iota.
    rewrite bind_run. unfold Queue_task_done.
    assert (queues σ4 !! q = Some (Queue_new (_queue_capacity Pa))) as Hq4.
    { subst σ4 σ3 σ2. simpl. by rewrite lookup_insert_ne. }
    change (_queue (set__queue q Pb)) with q. rewrite Hq4. cbn.
    unfold with_threads, with_trace, with_queues. subst σ4 σ3 σ2. simpl.
    by rewrite !insert_insert_eq, <- !app_assoc.
Qed.

(** ** The constructor and its sources *)

(** X9: a pool constructed with another pool [a] as its source. The
    constructor builds a queue of capacity [queue_capacity], then forwards
    [a] to the new pool, which replaces that queue: the new pool reads a
    second fresh queue, built with [a]'s capacity, that is also [a]'s output
    queue. The new pool has no source and no output of its own. *)
Theorem init_with_pool_source (σ : heap) (a : loc) (Pa : ThreadPool)
    (pool_size queue_capacity queue_timeout : Z) :
  pools σ !! a = Some Pa →
  ∃ p q0 q σ',
    __init__ pool_size (VPool a) queue_capacity queue_timeout σ = (Ok p, σ') ∧
    pools σ !! p = None ∧ queues σ !! q0 = None ∧ queues σ !! q = None ∧ q0 ≠ q ∧
    queues σ' !! q0 = Some (Queue_new queue_capacity) ∧
    queues σ' !! q = Some (Queue_new (_queue_capacity Pa)) ∧
    pools σ' !! p
      = Some (mkPool pool_size [] q queue_capacity queue_timeout VNone None None None) ∧
    pools σ' !! a = Some (set__queue_out (Some q) Pa) ∧
    wired a p σ' = true.
Proof.
  intros Ha.
  set (q0 := fresh (dom (queues σ))).
  set (p := fresh (dom (pools σ))).
  set (Pn := mkPool pool_size [] q0 queue_capacity queue_timeout VNone None None None).
  set (σ1 := with_pools <[p := Pn]> (with_queues <[q0 := Queue_new queue_capacity]> σ)).
  set (q := fresh (dom (queues σ1))).
  assert (a ≠ p) as Hap by (intros E; by apply (fresh_lookup_ne _ _ _ Ha)).
  assert (pools σ1 !! a = Some Pa) as Ha1
    by (subst σ1; simpl; by rewrite lookup_insert_ne).
  assert (pools σ1 !! p = Some Pn) as Hp1 by apply lookup_insert_eq.
  assert (q ≠ q0) as Hq by apply fresh_insert_ne.
  exists p, q0, q, (forwarded a p Pa Pn σ1).
  split.
  { change (__init__ pool_size (VPool a) queue_capacity queue_timeout σ)
      with (((forward a p;; mret tt);; mret p) σ1).
    by rewrite !bind_run, (forward_run _ _ _ _ _ Ha1 Hp1 Hap). }
  split; [apply not_elem_of_dom, is_fresh |].
  split; [apply not_elem_of_dom, is_fresh |].
  assert (queues σ !! q = None) as Hqn.
  { destruct (queues σ !! q) as [Qx |] eqn:E; [| done]. exfalso.
    apply (is_fresh (dom (queues σ1))). fold q. apply elem_of_dom.
    subst σ1. simpl. rewrite lookup_insert_ne by done. eauto. }
  split; [exact Hqn |]. split; [done |].
  split; [unfold forwarded; simpl; rewrite lookup_insert_ne by done;
          apply lookup_insert_eq |].
  split; [apply lookup_insert_eq |].
  split; [apply lookup_insert_eq |].
  split; [unfold forwarded; simpl; rewrite lookup_insert_ne by done;
          apply lookup_insert_eq |].
  by apply forward_wires.
Qed.

(** X10: a pool constructed with an existing queue [q] as its source (a
    queue with room, a timeout that is a duration). The pool's input queue
    is [q] itself, whatever [queue_capacity] says, and the pool has no
    source; a job added through the pool, with keywords that [add] can
    take, lands at the end of [q]. *)
Theorem init_with_queue_source (σ : heap) (q : loc) (Qx : Queue)
    (pool_size queue_capacity queue_timeout : Z)
    (callback : value) (args : list value) (kwargs : list (string * value)) :
  queues σ !! q = Some Qx →
  full Qx = false →
  0 ≤ queue_timeout →
  has_key "self" kwargs || has_key "callback" kwargs = false →
  ∃ p σ',
    __init__ pool_size (VQueue q) queue_capacity queue_timeout σ = (Ok p, σ') ∧
    pools σ !! p = None ∧
    pools σ' !! p
      = Some (mkPool pool_size [] q queue_capacity queue_timeout VNone None None None) ∧
    queues σ' !! q = Some Qx ∧
    (add p callback args kwargs σ').1 = Ok p ∧
    queues (add p callback args kwargs σ').2 !! q
      = Some (mkQueue (maxsize Qx) (queue Qx ++ [job_tuple callback args kwargs])
                (unfinished_tasks Qx + 1)).
Proof.
  intros HQ Hroom Hto Hk.
  set (q0 := fresh (dom (queues σ))).
  set (p := fresh (dom (pools σ))).
  set (Pn := mkPool pool_size [] q0 queue_capacity queue_timeout VNone None None None).
  set (σ1 := with_pools <[p := Pn]> (with_queues <[q0 := Queue_new queue_capacity]> σ)).
  assert (q0 ≠ q) as Hq by (by eapply fresh_lookup_ne).
  assert (pools σ1 !! p = Some Pn) as Hp1 by apply lookup_insert_eq.
  set (σ' := with_pools <[p := set__queue q Pn]> σ1).
  assert (pools σ' !! p
          = Some (mkPool pool_size [] q queue_capacity queue_timeout VNone None None None))
    as Hp' by apply lookup_insert_eq.
  assert (queues σ' !! q = Some Qx) as HQ'
    by (subst σ' σ1; simpl; by rewrite lookup_insert_ne).
  exists p, σ'. split.
  { change (__init__ pool_size (VQueue q) queue_capacity queue_timeout σ)
      with ((update_pool p (set__queue q);; mret p) σ1).
    by rewrite bind_run, (update_pool_run p _ Pn σ1 Hp1). }
  split; [apply not_elem_of_dom, is_fresh |].
  split; [exact Hp' |]. split; [exact HQ' |].
  rewrite (add_run σ' p _ Qx callback args kwargs Hk Hp' HQ' Hto), Hroom.
  split; [reflexivity |]. simpl. apply lookup_insert_eq.
Qed.

(** ** The threads that [run] starts *)

Lemma spawn_workers_fresh (n : nat) (p : loc) (σ : heap) (P0 : ThreadPool) :
  pools σ !! p = Some P0 →
  ∃ σ' ts,
    spawn_workers n p σ = (Ok tt, σ') ∧
    queues σ' = queues σ ∧
    trace σ' = trace σ ∧
    pools σ' = <[p := set__pool (_pool P0 ++ ts) P0]> (pools σ) ∧
    length ts = n ∧
    NoDup ts ∧
    Forall (λ t, threads σ !! t = None) ts ∧
    (∀ t, threads σ' !! t =
          (if decide (t ∈ ts) then Some (mkThread (WorkerLoop p) Alive)
           else threads σ !! t)).
Proof.
  revert σ P0. induction n as [| n IH]; intros σ P0 HP.
  - exists σ, []. split; [reflexivity |]. split; [reflexivity |]. split; [reflexivity |].
    split; [rewrite app_nil_r, set__pool_id; symmetry; by apply insert_id |].
    split; [reflexivity |]. split; [constructor |]. split; [constructor |].
    intros t. destruct (decide (t ∈ [])) as [Hin |]; [| reflexivity].
    by apply elem_of_nil in Hin.
  - set (t0 := fresh (dom (threads σ))).
    set (σ1 := with_threads <[t0 := mkThread (WorkerLoop p) Unstarted]> σ).
    set (σ2 := with_pools <[p := set__pool (_pool P0 ++ [t0]) P0]> σ1).
    set (σ3 := with_threads <[t0 := mkThread (WorkerLoop p) Alive]> σ2).
    assert (pools σ3 !! p = Some (set__pool (_pool P0 ++ [t0]) P0)) as HP3
      by apply lookup_insert_eq.
    assert (threads σ !! t0 = None) as Hfresh by apply not_elem_of_dom, is_fresh.
    assert (∀ t, threads σ3 !! t =
                 (if decide (t = t0) then Some (mkThread (WorkerLoop p) Alive)
                  else threads σ !! t)) as Hth3.
    { intros t. subst σ3 σ2 σ1. simpl. destruct (decide (t = t0)) as [-> |].
      - apply lookup_insert_eq.
      - by rewrite !lookup_insert_ne. }
    destruct (IH σ3 _ HP3) as (σ' & ts & Hrun & Hq & Htr & Hp & Hlen & Hnd & Hnone & Hth).
    assert (t0 ∉ ts) as Ht0.
    { intros Hin. rewrite Forall_forall in Hnone. specialize (Hnone t0 Hin).
      rewrite Hth3 in Hnone. by destruct (decide (t0 = t0)). }
    exists σ', (t0 :: ts). split.
    { simpl spawn_workers. rewrite bind_run. unfold alloc_thread. cbv beta iota zeta.
      fold t0. fold σ1.
      rewrite bind_run, (update_pool_run p _ P0 σ1 HP). cbv beta iota. fold σ2.
      rewrite bind_run. unfold Thread_start.
      replace (threads σ2 !! t0) with (Some (mkThread (WorkerLoop p) Unstarted))
        by (symmetry; apply lookup_insert_eq).
      cbv beta iota. fold σ3. exact Hrun. }
    split; [by rewrite Hq |]. split; [by rewrite Htr |]. split.
    { rewrite Hp. simpl. rewrite insert_insert_eq.
      by rewrite set__pool_set__pool, <- app_assoc. }
    split; [simpl; by rewrite Hlen |]. split; [by constructor |]. split.
    { constructor; [exact Hfresh |]. rewrite Forall_forall in Hnone |- *.
      intros t Hin. specialize (Hnone t Hin). rewrite Hth3 in Hnone.
      by destruct (decide (t = t0)). }
    intros t. rewrite Hth, Hth3.
    destruct (decide (t ∈ ts)) as [Hin | Hin].
    + destruct (decide (t ∈ t0 :: ts)) as [| Hn]; [reflexivity |].
      exfalso. apply Hn. by right.
    + destruct (decide (t = t0)) as [-> |].
      * destruct (decide (t0 ∈ t0 :: ts)) as [| Hn]; [reflexivity |].
        exfalso. apply Hn. left.
      * destruct (decide (t ∈ t0 :: ts)) as [Hin' |]; [| reflexivity].
        apply elem_of_cons in Hin' as [-> | Hin']; done.
Qed.

Lemma run_spec (now : Z) (p : loc) (σ : heap) (P : ThreadPool) :
  pools σ !! p = Some P →
  ∃ σ' ts cs,
    run now p σ = (Ok p, σ') ∧
    queues σ' = queues σ ∧
    pools σ' = <[p := set__pool (ts ++ cs) (set__start_time now P)]> (pools σ) ∧
    length ts = Z.to_nat (_pool_size P) ∧
    length cs = (if is_none (_source P) then 0 else 1)%nat ∧
    NoDup (ts ++ cs) ∧
    Forall (λ t, threads σ !! t = None) (ts ++ cs) ∧
    (∀ t, threads σ' !! t =
          (if decide (t ∈ ts) then Some (mkThread (WorkerLoop p) Alive)
           else if decide (t ∈ cs) then Some (mkThread (ConsumeStart p) Alive)
           else threads σ !! t)).
Proof.
  intros HP.
  set (σ1 := with_trace (λ tr, tr ++ [ELog "Starting."])
               (with_pools <[p := set__start_time now P]> σ)).
  set (σ2 := with_pools <[p := set__pool [] (set__start_time now P)]> σ1).
  assert (pools σ1 !! p = Some (set__start_time now P)) as HP1 by apply lookup_insert_eq.
  assert (pools σ2 !! p = Some (set__pool [] (set__start_time now P))) as HP2
    by apply lookup_insert_eq.
  destruct (spawn_workers_fresh (Z.to_nat (_pool_size P)) p σ2 _ HP2)
    as (σs & ts & Hrun & Hq & _ & Hp & Hlen & Hnd & Hnone & Hth).
  assert (pools σs = <[p := set__pool ts (set__start_time now P)]> (pools σ)) as Hps.
  { rewrite Hp. subst σ2 σ1. simpl. by rewrite !insert_insert_eq. }
  assert (pools σs !! p = Some (set__pool ts (set__start_time now P))) as HPs
    by (rewrite Hps; apply lookup_insert_eq).
  assert (run now p σ =
          ((if is_none (_source P) then mret tt
            else
              consumer ← alloc_thread (mkThread (ConsumeStart p) Unstarted);
              update_pool p (λ P, set__pool (_pool P ++ [consumer]) P);;
              Thread_start consumer);; mret p) σs) as Hrun'.
  { unfold run, start, _build_pool.
    rewrite ?bind_run, (update_pool_run _ _ _ _ HP). cbv beta iota.
    unfold log at 1. cbv beta iota. fold σ1.
    rewrite ?bind_run, (update_pool_run p _ _ σ1 HP1). cbv beta iota. fold σ2.
    rewrite ?bind_run, (get_pool_run _ _ _ HP2). cbv beta iota.
    change (_pool_size (set__pool [] (set__start_time now P))) with (_pool_size P).
    rewrite ?bind_run, Hrun. cbv beta iota.
    unfold mret at 1, M_ret at 1. cbv beta iota.
    rewrite ?bind_run, (get_pool_run _ _ _ HPs). cbv beta iota.
    reflexivity. }
  destruct (is_none (_source P)) eqn:Hsrc.
  - exists σs, ts, []. rewrite app_nil_r.
    split; [by rewrite Hrun' |]. split; [by rewrite Hq |].
    split; [exact Hps |]. split; [exact Hlen |]. split; [reflexivity |].
    split; [exact Hnd |]. split; [exact Hnone |].
    intros t. rewrite Hth. destruct (decide (t ∈ ts)); [reflexivity |].
    destruct (decide (t ∈ [])) as [Hin |]; [by apply elem_of_nil in Hin | reflexivity].
  - set (c := fresh (dom (threads σs))).
    set (σa := with_threads <[c := mkThread (ConsumeStart p) Unstarted]> σs).
    set (σb := with_pools
                 <[p := set__pool (ts ++ [c]) (set__start_time now P)]> σa).
    set (σc := with_threads <[c := mkThread (ConsumeStart p) Alive]> σb).
    assert (threads σs !! c = None) as Hc by apply not_elem_of_dom, is_fresh.
    assert (c ∉ ts) as Hcts.
    { intros Hin. rewrite Hth in Hc. by destruct (decide (c ∈ ts)). }
    assert (threads σ !! c = None) as Hc0.
    { rewrite Hth in Hc. by destruct (decide (c ∈ ts)). }
    exists σc, ts, [c].
    split.
    { rewrite Hrun'. rewrite bind_run. rewrite bind_run.
      unfold alloc_thread at 1. cbv beta iota zeta. fold c. fold σa.
      rewrite bind_run, (update_pool_run p _ _ σa HPs). cbv beta iota.
      change (set__pool (_pool (set__pool ts (set__start_time now P)) ++ [c])
                (set__pool ts (set__start_time now P)))
        with (set__pool (ts ++ [c]) (set__start_time now P)).
      fold σb. unfold Thread_start.
      replace (threads σb !! c) with (Some (mkThread (ConsumeStart p) Unstarted))
        by (symmetry; apply lookup_insert_eq).
      reflexivity. }
    split; [exact Hq |].
    split; [subst σc σb σa; simpl; by rewrite Hps, insert_insert_eq |].
    split; [exact Hlen |]. split; [reflexivity |].
    split.
    { apply NoDup_app. split; [exact Hnd |]. split; [| apply NoDup_singleton].
      intros t Hin Hin'. apply list_elem_of_singleton in Hin'. by subst. }
    split; [apply Forall_app; split; [exact Hnone | by constructor] |].
    intros t. subst σc σb σa. simpl.
    destruct (decide (t ∈ ts)) as [Hin | Hin].
    + assert (c ≠ t) by (by intros ->).
      rewrite !lookup_insert_ne by done. rewrite Hth.
      by destruct (decide (t ∈ ts)).
    + destruct (decide (t ∈ [c])) as [Hin' | Hin'].
      * apply list_elem_of_singleton in Hin' as ->. apply lookup_insert_eq.
      * assert (c ≠ t) by (intros ->; apply Hin', list_elem_of_singleton; reflexivity).
        rewrite !lookup_insert_ne by done. rewrite Hth.
        by destruct (decide (t ∈ ts)).
Qed.

(** X11: [run] on any pool of the store returns the pool, having recorded
    the start time and replaced the pool's thread list by fresh threads, all
    alive: [pool_size] workers (none when [pool_size] is not positive), and
    after them one consumer exactly when the pool has a source. The threads
    that existed before and the queues are as they were. *)
Theorem run_starts_workers_and_consumer (now : Z) (p : loc) (σ : heap)
    (P : ThreadPool) :
  pools σ !! p = Some P →
  ∃ σ' ts cs,
    run now p σ = (Ok p, σ') ∧
    queues σ' = queues σ ∧
    pools σ' = <[p := set__pool (ts ++ cs) (set__start_time now P)]> (pools σ) ∧
    length ts = Z.to_nat (_pool_size P) ∧
    length cs = (if is_none (_source P) then 0 else 1)%nat ∧
    NoDup (ts ++ cs) ∧
    Forall (λ t, threads σ !! t = None) (ts ++ cs) ∧
    (∀ t, threads σ' !! t =
          (if decide (t ∈ ts) then Some (mkThread (WorkerLoop p) Alive)
           else if decide (t ∈ cs) then Some (mkThread (ConsumeStart p) Alive)
           else threads σ !! t)).
Proof. exact (run_spec now p σ P). Qed.

(** X12: [run] called twice on a pool. The second call builds a new list
    of as many threads; every thread that the first call started is still
    alive in the store, but none of them is in the pool's list any more. *)
Theorem second_run_forgets_first_threads (now now2 : Z) (p : loc) (σ : heap)
    (P : ThreadPool) :
  pools σ !! p = Some P →
  ∃ σ1 σ2 l1 l2,
    run now p σ = (Ok p, σ1) ∧
    run now2 p σ1 = (Ok p, σ2) ∧
    pools σ1 !! p = Some (set__pool l1 (set__start_time now P)) ∧
    pools σ2 !! p = Some (set__pool l2 (set__start_time now2 P)) ∧
    length l1 = length l2 ∧
    Forall (λ t, (t ∉ l2) ∧ is_alive σ2 t = true) l1.
Proof.
  intros HP.
  destruct (run_spec now p σ P HP)
    as (σ1 & ts1 & cs1 & Hrun1 & _ & Hp1 & Hlen1 & Hc1 & _ & _ & Hth1).
  set (P1 := set__pool (ts1 ++ cs1) (set__start_time now P)).
  assert (pools σ1 !! p = Some P1) as HP1 by (rewrite Hp1; apply lookup_insert_eq).
  destruct (run_spec now2 p σ1 P1 HP1)
    as (σ2 & ts2 & cs2 & Hrun2 & _ & Hp2 & Hlen2 & Hc2 & _ & Hnone2 & Hth2).
  exists σ1, σ2, (ts1 ++ cs1), (ts2 ++ cs2).
  split; [exact Hrun1 |]. split; [exact Hrun2 |]. split; [exact HP1 |].
  split; [rewrite Hp2; apply lookup_insert_eq |].
  split; [rewrite !length_app; simpl in *; congruence |].
  apply Forall_forall. intros t Hin.
  assert (∃ fr, threads σ1 !! t = Some (mkThread fr Alive)) as [fr Ht1].
  { rewrite Hth1. apply elem_of_app in Hin.
    destruct (decide (t ∈ ts1)); [eauto |].
    destruct (decide (t ∈ cs1)); [eauto |]. by destruct Hin. }
  assert (t ∉ ts2 ++ cs2) as Hnot.
  { intros Hin2. rewrite Forall_forall in Hnone2. rewrite (Hnone2 t Hin2) in Ht1. done. }
  split; [exact Hnot |].
  unfold is_alive. rewrite Hth2.
  destruct (decide (t ∈ ts2)) as [Hin2 |]; [reflexivity |].
  destruct (decide (t ∈ cs2)) as [Hin2 |]; [reflexivity |].
  by rewrite Ht1.
Qed.

(** ** [_clean_pool] after a worker has quit *)

(** X13: a live worker [t] of pool [p] finds the queue empty and quits;
    then [_clean_pool] is called. The pool's thread list becomes the list it
    was without [t] and without the threads that were not alive, in the
    same order; nothing else changes. *)
Theorem clean_pool_drops_quit_worker
    (call_fun : nat → list value → list (string * value) → value + exn)
    (σ : heap) (t p : loc) (P : ThreadPool) (Q : Queue) :
  threads σ !! t = Some (mkThread (WorkerLoop p) Alive) →
  pools σ !! p = Some P →
  queues σ !! _queue P = Some Q →
  queue Q = [] →
  0 ≤ _queue_timeout P →
  _clean_pool p (sched call_fun t σ).2 =
  (Ok p,
   with_pools
     <[p := set__pool (filter (λ t', t' ≠ t ∧ is_alive σ t' = true) (_pool P)) P]>
     (sched call_fun t σ).2).
Proof.
  intros Ht HP HQ Hq Hto.
  rewrite (sched_worker call_fun σ t p Ht).
  rewrite (worker_iter_on_empty call_fun σ p P Q HP HQ Hq Hto). cbn [snd].
  set (σ1 := with_threads _ (with_trace _ σ)).
  unfold _clean_pool.
  rewrite bind_run, (update_pool_run p _ P σ1 HP). cbv beta iota.
  unfold mret, M_ret.
  assert (filter (λ t', is_alive σ1 t' = true) (_pool P)
          = filter (λ t', t' ≠ t ∧ is_alive σ t' = true) (_pool P)) as ->;
    [| reflexivity].
  apply list_filter_iff. intros t'. unfold is_alive. subst σ1. simpl.
  destruct (decide (t' = t)) as [-> |].
  - rewrite lookup_insert_eq. split; [done | by intros [? _]].
  - rewrite lookup_insert_ne by done. split; [by split | by intros [_ ?]].
Qed.

(** ** [wait] on a started pool *)

(** X14: [wait] on a pool that was started. With no unfinished task on the
    input queue it returns the pool after recording the end time and logging
    the duration, and touches nothing else: the threads are left running.
    With unfinished tasks it blocks and the store is as it was. *)
Theorem wait_returns_when_drained (σ : heap) (p : loc) (P : ThreadPool)
    (Q : Queue) (now started : Z) :
  pools σ !! p = Some P →
  _start_time P = Some started →
  queues σ !! _queue P = Some Q →
  wait now p σ =
  if unfinished_tasks Q =? 0
  then (Ok p,
        with_trace (λ tr, tr ++ [ELog "Finished in %s."])
          (with_pools <[p := set__end_time now P]> σ))
  else (Blocked, σ).
Proof.
  intros HP Hs HQ. unfold wait, Queue_join, finish.
  rewrite !bind_run, (get_pool_run _ _ _ HP).
  rewrite !bind_run, (get_queue_run _ _ _ HQ).
  destruct (unfinished_tasks Q =? 0); [| reflexivity]. simpl.
  rewrite !bind_run, (update_pool_run _ _ _ _ HP).
  rewrite !bind_run. unfold get_pool. simpl. rewrite lookup_insert_eq. simpl.
  by rewrite Hs.
Qed.

(** ** Capacities and timeouts that are not positive *)

Lemma add_unbounded (σ : heap) (p : loc) (P : ThreadPool) (Q : Queue)
    (callback : value) (args : list value) (kwargs : list (string * value)) :
  has_key "self" kwargs || has_key "callback" kwargs = false →
  pools σ !! p = Some P →
  queues σ !! _queue P = Some Q →
  maxsize Q ≤ 0 →
  add p callback args kwargs σ =
  (Ok p,
   with_trace (λ tr, tr ++ [EPut (_queue P) (job_tuple callback args kwargs)])
     (with_queues
        <[_queue P := mkQueue (maxsize Q) (queue Q ++ [job_tuple callback args kwargs])
                        (unfinished_tasks Q + 1)]> σ)).
Proof.
  intros Hk HP HQ Hm. unfold add. rewrite Hk.
  rewrite !bind_run, (get_pool_run _ _ _ HP). cbv beta iota.
  rewrite bind_run. unfold Queue_put. rewrite HQ. unfold full.
  by replace (0 <? maxsize Q) with false by (symmetry; apply Z.ltb_ge; lia).
Qed.

(** X15: the input queue of pool [p] was built with a capacity that is not
    positive. Then it has no bound: any number of jobs added one after the
    other, with keywords that [add] can take, are all accepted, whatever the
    timeout, and the queue holds what it held followed by all of them in
    order. *)
Theorem unbounded_queue_accepts_every_add
    (call_fun : nat → list value → list (string * value) → value + exn)
    (jobs : list (value * list value * list (string * value)))
    (σ : heap) (p : loc) (P : ThreadPool) (Q : Queue) :
  pools σ !! p = Some P →
  queues σ !! _queue P = Some Q →
  maxsize Q ≤ 0 →
  Forall (λ j, clash_free j = true) jobs →
  pools (exec_ops call_fun (adds p jobs) σ) !! p = Some P ∧
  queues (exec_ops call_fun (adds p jobs) σ) !! _queue P =
    Some (mkQueue (maxsize Q) (queue Q ++ (job_of <$> jobs))
            (unfinished_tasks Q + Z.of_nat (length jobs))).
Proof.
  revert σ Q. induction jobs as [| j js IH]; intros σ Q HP HQ Hm Hfree.
  - simpl. split; [exact HP |]. rewrite app_nil_r, Z.add_0_r, HQ. by destruct Q.
  - apply Forall_cons in Hfree as [Hj Hfree].
    unfold clash_free in Hj. apply negb_true_iff in Hj.
    assert (exec_ops call_fun (adds p (j :: js)) σ
            = exec_ops call_fun (adds p js) (add p j.1.1 j.1.2 j.2 σ).2) as ->
      by reflexivity.
    rewrite (add_unbounded _ _ _ _ _ _ _ Hj HP HQ Hm). cbn [snd].
    set (Q1 := mkQueue (maxsize Q) (queue Q ++ [job_tuple j.1.1 j.1.2 j.2])
                 (unfinished_tasks Q + 1)).
    set (σ1 := with_trace _ (with_queues _ σ)).
    assert (queues σ1 !! _queue P = Some Q1) as HQ1 by apply lookup_insert_eq.
    destruct (IH σ1 Q1 HP HQ1 Hm Hfree) as [HP' HQ'].
    split; [exact HP' |]. rewrite HQ'. subst Q1. simpl.
    rewrite <- app_assoc. do 2 f_equal. lia.
Qed.

(** X16: the timeout of pool [p] is negative. A live worker that takes its
    turn dies of [ValueError] at once, whatever the queue holds, and the
    store is otherwise as it was; and [add], called with keywords that it
    can take, raises [ValueError], not [Full], on a bounded queue even when
    it has room (on an unbounded one it succeeds). *)
Theorem negative_timeout_kills_worker
    (call_fun : nat → list value → list (string * value) → value + exn)
    (σ : heap) (t p : loc) (P : ThreadPool) (Q : Queue)
    (callback : value) (args : list value) (kwargs : list (string * value)) :
  threads σ !! t = Some (mkThread (WorkerLoop p) Alive) →
  pools σ !! p = Some P →
  queues σ !! _queue P = Some Q →
  _queue_timeout P < 0 →
  has_key "self" kwargs || has_key "callback" kwargs = false →
  sched call_fun t σ =
    (Ok tt, with_threads <[t := mkThread (WorkerLoop p) (Died ValueError)]> σ) ∧
  (add p callback args kwargs σ).1 =
    (if 0 <? maxsize Q then Raise ValueError else Ok p) ∧
  (if 0 <? maxsize Q
   then (add p callback args kwargs σ).2 = σ
   else queue_ends_with (_queue P) (job_tuple callback args kwargs)
          (add p callback args kwargs σ).2).
Proof.
  intros Ht HP HQ Hto Hk.
  assert ((_queue_timeout P <? 0) = true) as Hneg by (by apply Z.ltb_lt).
  split.
  - rewrite (sched_worker call_fun σ t p Ht).
    unfold _thread_run_iter, try_except.
    rewrite !bind_run, (get_pool_run _ _ _ HP). cbv beta iota.
    rewrite bind_run. unfold Queue_get. by rewrite HQ, Hneg.
  - destruct (0 <? maxsize Q) eqn:Hm.
    + unfold add. rewrite Hk, !bind_run, (get_pool_run _ _ _ HP). cbv beta iota.
      rewrite bind_run. unfold Queue_put. by rewrite HQ, Hm, Hneg.
    + apply Z.ltb_ge in Hm.
      rewrite (add_unbounded _ _ _ _ _ _ _ Hk HP HQ Hm). split; [reflexivity |].
      eexists _, (queue Q). split; [apply lookup_insert_eq | reflexivity].
Qed.

(** ** Items that the consumer cannot feed, and how it repacks the others *)

(** X19: the consumer thread [t] is about to enqueue a job triple whose
    keyword arguments have a key named [self] or [callback], the names of
    [add]'s own parameters. The call of [add] raises [TypeError] before
    anything is put: the store is as it was, the consumer's thread has died
    of it, and it stays dead whatever is called afterwards. *)
Theorem consumer_dies_on_keyword_clash
    (call_fun : nat → list value → list (string * value) → value + exn)
    (σ : heap) (t p : loc) callback args kwargs (rest : list value) :
  threads σ !! t
    = Some (mkThread (ConsumeTry p (job_tuple callback args kwargs) rest) Alive) →
  has_key "self" kwargs || has_key "callback" kwargs = true →
  sched call_fun t σ =
    (Ok tt,
     with_threads
       <[t := mkThread (ConsumeTry p (job_tuple callback args kwargs) rest)
                (Died TypeError)]> σ) ∧
  ∀ os, threads (exec_ops call_fun os (sched call_fun t σ).2) !! t
        = Some (mkThread (ConsumeTry p (job_tuple callback args kwargs) rest)
                  (Died TypeError)).
Proof.
  intros Ht Hclash.
  assert (sched call_fun t σ =
          (Ok tt,
           with_threads
             <[t := mkThread (ConsumeTry p (job_tuple callback args kwargs) rest)
                      (Died TypeError)]> σ)) as Hsched.
  { rewrite (sched_consumer call_fun σ t _ Ht) by done.
    unfold consume_step, try_except. rewrite bind_run, call_add_job_tuple.
    by rewrite (add_clash _ _ _ _ _ Hclash). }
  split; [exact Hsched |].
  intros os. apply over_exec_ops; [reflexivity |]. rewrite Hsched.
  unfold thread_is. simpl. apply lookup_insert_eq.
Qed.

(** X20: a source item of length 3 whose second component can be iterated
    and whose third is a dict (keys clashing with no parameter of [add]) is
    not enqueued as it is: what the consumer, running alone with room in the
    queue, puts at the end of the queue after two steps is the tuple of the
    first component, the tuple of the items of the second, and the dict. *)
Theorem consumer_repacks_job (σ : heap) (p : loc) (P : ThreadPool) (Q : Queue)
    (item callback star : value) (args : list value)
    (kwargs : list (string * value)) (rest : list value) :
  pools σ !! p = Some P →
  queues σ !! _queue P = Some Q →
  0 ≤ _queue_timeout P →
  full Q = false →
  py_len item = Ok 3 →
  py_getitem item 0 = Ok callback →
  py_getitem item 1 = Ok star →
  py_iter star = Ok args →
  py_getitem item 2 = Ok (VDict kwargs) →
  has_key "self" kwargs || has_key "callback" kwargs = false →
  consume_run (alone 2) (ConsumeNext p (item :: rest)) σ =
  (Ok (Some (ConsumeNext p rest)),
   with_trace (λ tr, tr ++ [EPut (_queue P) (job_tuple callback args kwargs)])
     (with_queues
        <[_queue P := mkQueue (maxsize Q) (queue Q ++ [job_tuple callback args kwargs])
                        (unfinished_tasks Q + 1)]> σ)).
Proof.
  intros HP HQ Hto Hroom Hlen H0 H1 Hit H2 Hclash.
  rewrite !alone_S, consume_run_cons.
  assert (consume_step (ConsumeNext p (item :: rest)) σ
          = (Ok (Some (ConsumeTry p item rest)), σ)) as ->.
  { unfold consume_step. rewrite bind_run. unfold lift. by rewrite Hlen. }
  cbv beta iota. rewrite consume_run_cons.
  assert (consume_step (ConsumeTry p item rest) σ
          = (Ok (Some (ConsumeNext p rest)),
             with_trace (λ tr, tr ++ [EPut (_queue P) (job_tuple callback args kwargs)])
               (with_queues
                  <[_queue P := mkQueue (maxsize Q)
                                  (queue Q ++ [job_tuple callback args kwargs])
                                  (unfinished_tasks Q + 1)]> σ))) as ->;
    [| reflexivity].
  unfold consume_step, try_except, call_add.
  rewrite !bind_run. unfold lift. rewrite H0. cbv beta iota.
  rewrite !bind_run, H1. cbv beta iota.
  rewrite !bind_run, H2. cbv beta iota.
  rewrite !bind_run. simpl py_mapping. cbv beta iota.
  rewrite !bind_run, Hit. cbv beta iota.
  by rewrite (add_run _ _ _ _ _ _ _ Hclash HP HQ Hto), Hroom.
Qed.

(** ** A dequeued item that is no job *)

Lemma py_getitem_not_Empty (v : value) (i : nat) (e : exn) :
  py_getitem v i = Raise e → exn_eqb e Empty = false.
Proof.
  destruct v; simpl; try (by intros [= <-]).
  - destruct (chars s !! i); by intros [= <-].
  - destruct (items !! i); by intros [= <-].
  - destruct (items !! i); by intros [= <-].
Qed.

(** X21: a live worker takes from the queue an item that cannot be
    subscripted at 0 (for instance [None] or an integer that the previous
    pool of a pipeline returned, or an empty tuple). No callable is called;
    [task_done] is called; the worker's thread dies of the error of the
    subscript, and the item is gone from the queue. *)
Theorem worker_dies_on_item_that_is_no_job
    (call_fun : nat → list value → list (string * value) → value + exn)
    (σ : heap) (t p : loc) (P : ThreadPool) (Q : Queue)
    (job : value) (rest : list value) (e : exn) :
  threads σ !! t = Some (mkThread (WorkerLoop p) Alive) →
  pools σ !! p = Some P →
  queues σ !! _queue P = Some Q →
  queue Q = job :: rest →
  0 ≤ _queue_timeout P →
  1 ≤ unfinished_tasks Q →
  py_getitem job 0 = Raise e →
  sched call_fun t σ =
    (Ok tt,
     with_threads <[t := mkThread (WorkerLoop p) (Died e)]>
       (turn_store (_queue P) Q rest
          [EGet (_queue P) job; ELog "Running job."; ETaskDone (_queue P)] σ)).
Proof.
  intros Ht HP HQ Hq Hto Hu Hget.
  rewrite (sched_worker _ _ _ _ Ht).
  rewrite (worker_iter_after_get _ _ _ _ _ _ _ HP HQ Hq Hto).
  set (σ1 := with_trace _ (with_queues _ σ)).
  unfold try_finally.
  rewrite bind_run. unfold log at 1. cbv beta iota.
  rewrite bind_run. unfold call_job. rewrite bind_run. unfold lift at 1.
  rewrite Hget. cbv beta iota.
  set (σ2 := with_trace _ σ1).
  assert (queues σ2 !! _queue P
          = Some (mkQueue (maxsize Q) rest (unfinished_tasks Q))) as HQ2
    by (subst σ2 σ1; simpl; by rewrite lookup_insert_eq).
  rewrite bind_run, (get_pool_run p P σ2 HP). cbv beta iota.
  rewrite (Queue_task_done_run _ _ _ HQ2 Hu).
  rewrite (py_getitem_not_Empty _ _ _ Hget).
  unfold turn_store, with_threads, with_queues, with_trace. simpl.
  by rewrite insert_insert_eq, <- !app_assoc.
Qed.

(** ** The count of unfinished tasks, with workers that run step by step *)

(** *** One iteration of the worker loop is its steps in a row *)

Section TurnInSteps.

Context (call_fun : nat → list value → list (string * value) → value + exn).

Lemma ws_loop (p : loc) (σ : heap) :
  worker_step call_fun (WorkerLoop p) σ =
  match pools σ !! p with
  | Some P => (Ok (Some (WorkerGet p (_queue P) (_queue_timeout P))), σ)
  | None => (Raise DanglingRef, σ)
  end.
Proof.
  unfold worker_step. rewrite bind_run. unfold get_pool.
  by destruct (pools σ !! p).
Qed.

Lemma ws_get (p q : loc) (timeout : Z) (σ : heap) :
  worker_step call_fun (WorkerGet p q timeout) σ =
  match Queue_get q timeout σ with
  | (Ok job, σ') => (Ok (Some (WorkerCall p job)), σ')
  | (Raise e, σ') => except_Empty e σ'
  | (Blocked, σ') => (Blocked, σ')
  end.
Proof.
  unfold worker_step, try_except, except_Empty. rewrite bind_run.
  by destruct (Queue_get q timeout σ) as [[job | e |] σ'].
Qed.

Lemma ws_call (p : loc) (job : value) (σ : heap) :
  worker_step call_fun (WorkerCall p job) σ =
  match call_job call_fun job (with_trace (λ tr, tr ++ [ELog "Running job."]) σ) with
  | (Ok result, σ') =>
      match pools σ' !! p with
      | Some P1 =>
          (Ok (Some match _queue_out P1 with
                    | Some qo => WorkerPut p qo (_queue_timeout P1) result
                    | None => WorkerFinally p None
                    end), σ')
      | None => (Ok (Some (WorkerFinally p (Some DanglingRef))), σ')
      end
  | (Raise e, σ') => (Ok (Some (WorkerFinally p (Some e))), σ')
  | (Blocked, σ') => (Blocked, σ')
  end.
Proof.
  unfold worker_step, rescue. rewrite bind_run.
  rewrite bind_run. unfold log at 1. cbv beta iota.
  rewrite bind_run.
  destruct (call_job call_fun job _) as [[result | e |] σ']; try reflexivity.
  cbv beta iota. rewrite bind_run. unfold get_pool.
  destruct (pools σ' !! p) as [P1 |]; [| reflexivity]. cbv beta iota.
  unfold mret at 1, M_ret at 1. cbv beta iota.
  by destruct (_queue_out P1).
Qed.

Lemma ws_put (p qo : loc) (timeout : Z) (result : value) (σ : heap) :
  worker_step call_fun (WorkerPut p qo timeout result) σ =
  match Queue_put qo result timeout σ with
  | (Ok _, σ') => (Ok (Some (WorkerFinally p None)), σ')
  | (Raise e, σ') => (Ok (Some (WorkerFinally p (Some e))), σ')
  | (Blocked, σ') => (Blocked, σ')
  end.
Proof.
  unfold worker_step, rescue. rewrite bind_run.
  by destruct (Queue_put qo result timeout σ) as [[[] | e |] σ'].
Qed.

Lemma ws_finally (p : loc) (raised : option exn) (σ : heap) :
  worker_step call_fun (WorkerFinally p raised) σ =
  match pools σ !! p with
  | Some P2 =>
      match Queue_task_done (_queue P2) σ with
      | (Ok _, σ') =>
          match raised with
          | Some e => except_Empty e σ'
          | None => (Ok (Some (WorkerLoop p)), σ')
          end
      | (Raise e', σ') => except_Empty e' σ'
      | (Blocked, σ') => (Blocked, σ')
      end
  | None => (Raise DanglingRef, σ)
  end.
Proof.
  unfold worker_step, try_except, except_Empty. rewrite bind_run. unfold get_pool.
  destruct (pools σ !! p) as [P2 |]; [| reflexivity]. cbv beta iota.
  rewrite bind_run.
  destruct (Queue_task_done (_queue P2) σ) as [[[] | e' |] σ']; cbv beta iota.
  - destruct raised as [e |]; [| reflexivity].
    unfold raise. by destruct (exn_eqb e Empty).
  - by destruct (exn_eqb e' Empty).
  - reflexivity.
Qed.

Lemma try_finally_run {A} (body : M A) (fin : M unit) (σ : heap) :
  try_finally body fin σ =
  match body σ with
  | (Blocked, σ') => (Blocked, σ')
  | (r, σ') =>
      match fin σ' with
      | (Ok _, σ'') => (r, σ'')
      | (Raise e, σ'') => (Raise e, σ'')
      | (Blocked, σ'') => (Blocked, σ'')
      end
  end.
Proof. reflexivity. Qed.

Lemma job_body_eq (p : loc) (job : value) (σ : heap) :
  job_body call_fun p job σ =
  match call_job call_fun job (with_trace (λ tr, tr ++ [ELog "Running job."]) σ) with
  | (Ok result, σ2) =>
      match pools σ2 !! p with
      | Some P1 =>
          match _queue_out P1 with
          | Some qo => Queue_put qo result (_queue_timeout P1) σ2
          | None => (Ok tt, σ2)
          end
      | None => (Raise DanglingRef, σ2)
      end
  | (Raise e, σ2) => (Raise e, σ2)
  | (Blocked, σ2) => (Blocked, σ2)
  end.
Proof.
  unfold job_body. rewrite bind_run. unfold log at 1. cbv beta iota.
  rewrite bind_run.
  destruct (call_job call_fun job _) as [[result | e |] σ2]; try reflexivity.
  cbv beta iota. rewrite bind_run. unfold get_pool.
  destruct (pools σ2 !! p) as [P1 |]; [| reflexivity]. cbv beta iota.
  by destruct (_queue_out P1).
Qed.

Lemma thread_run_iter_eq (p : loc) (σ : heap) :
  _thread_run_iter call_fun p σ =
  match pools σ !! p with
  | None => (Raise DanglingRef, σ)
  | Some P =>
      match Queue_get (_queue P) (_queue_timeout P) σ with
      | (Ok job, σ1) => finally_done p (job_body call_fun p job σ1)
      | (Raise e, σ1) => except_Empty e σ1
      | (Blocked, σ1) => (Blocked, σ1)
      end
  end.
Proof.
  unfold _thread_run_iter, try_except.
  rewrite bind_run. unfold get_pool at 1.
  destruct (pools σ !! p) as [P |]; [| reflexivity]. cbv beta iota.
  rewrite bind_run.
  destruct (Queue_get (_queue P) (_queue_timeout P) σ) as [[job | e |] σ1];
    [| reflexivity | reflexivity].
  cbv beta iota. rewrite bind_run, try_finally_run.
  change (log (ELog "Running job.") ≫= _) with (job_body call_fun p job).
  unfold finally_done.
  destruct (job_body call_fun p job σ1) as [[[] | e |] σ3]; [| | reflexivity].
  - rewrite bind_run. unfold get_pool.
    destruct (pools σ3 !! p) as [P2 |]; [| reflexivity]. cbv beta iota.
    by destruct (Queue_task_done (_queue P2) σ3) as [[[] | e' |] σ4].
  - rewrite bind_run. unfold get_pool.
    destruct (pools σ3 !! p) as [P2 |]; [| reflexivity]. cbv beta iota.
    by destruct (Queue_task_done (_queue P2) σ3) as [[[] | e' |] σ4].
Qed.

Lemma turn_is_steps (p : loc) (σ : heap) :
  _thread_run_iter call_fun p σ = turn_in_steps call_fun p σ.
Proof.
  rewrite thread_run_iter_eq. unfold turn_in_steps, and_then.
  rewrite ws_loop. destruct (pools σ !! p) as [P |]; [| reflexivity].
  rewrite ws_get.
  destruct (Queue_get (_queue P) (_queue_timeout P) σ) as [[job | e |] σ1];
    [| unfold except_Empty; by destruct (exn_eqb e Empty) | reflexivity].
  rewrite ws_call, job_body_eq. unfold finally_done.
  destruct (call_job call_fun job _) as [[result | e |] σ2].
  - destruct (pools σ2 !! p) as [P1 |] eqn:HP1.
    + destruct (_queue_out P1) as [qo |].
      * rewrite ws_put.
        destruct (Queue_put qo result (_queue_timeout P1) σ2) as [[[] | e |] σ3];
          try reflexivity; by rewrite ws_finally.
      * by rewrite ws_finally, HP1.
    + by rewrite ws_finally, HP1.
  - by rewrite ws_finally.
  - reflexivity.
Qed.

End TurnInSteps.

(** *** What the store owes each queue *)

Lemma owed_on_nonneg ps ts q : 0 ≤ owed_on ps ts q.
Proof. unfold owed_on. lia. Qed.

Lemma owed_on_insert ps ts t T T' q :
  ts !! t = Some T →
  owed_on ps (<[t := T']> ts) q
  = owed_on ps ts q - (if holds ps q T then 1 else 0) + (if holds ps q T' then 1 else 0).
Proof.
  intros Ht. unfold owed_on.
  set (Pq := λ tT : loc * Thread, holds ps q tT.2 = true).
  assert (size (filter Pq (delete t ts))
          = (size (filter Pq ts) - (if holds ps q T then 1 else 0))%nat) as Hdel.
  { rewrite map_filter_delete, map_size_delete.
    destruct (filter Pq ts !! t) as [T0 |] eqn:E.
    - apply map_lookup_filter_Some in E as [E1 E2]. unfold Pq in E2. simpl in E2.
      assert (T0 = T) as -> by congruence. rewrite E2. simpl. lia.
    - destruct (holds ps q T) eqn:Hh; [| simpl; lia]. exfalso.
      assert (filter Pq ts !! t = Some T) as E'
        by (apply map_lookup_filter_Some; by split).
      congruence. }
  assert (0 < size (filter Pq ts) ∨ holds ps q T = false)%nat as Hpos.
  { destruct (holds ps q T) eqn:Hh; [left | by right].
    assert (filter Pq ts !! t = Some T) as E'
      by (apply map_lookup_filter_Some; by split).
    destruct (decide (size (filter Pq ts) = 0%nat)) as [E0 |]; [| lia].
    apply map_size_empty_inv in E0. rewrite E0 in E'. by rewrite lookup_empty in E'. }
  rewrite map_filter_insert.
  destruct (decide (Pq (t, T'))) as [Hp | Hp]; unfold Pq in Hp; simpl in Hp.
  - rewrite Hp. rewrite <- insert_delete_eq, <- map_filter_delete.
    rewrite map_size_insert_None.
    + rewrite Hdel. destruct Hpos as [? | ->]; destruct (holds ps q T); lia.
    + apply map_lookup_filter_None. left. apply lookup_delete_eq.
  - apply not_true_is_false in Hp. rewrite Hp, Hdel.
    destruct Hpos as [? | ->]; destruct (holds ps q T); lia.
Qed.

Lemma owed_on_alloc ps ts t T' q :
  ts !! t = None →
  owed_on ps (<[t := T']> ts) q = owed_on ps ts q + (if holds ps q T' then 1 else 0).
Proof.
  intros Ht. unfold owed_on. rewrite map_filter_insert.
  destruct (decide (holds ps q (t, T').2 = true)) as [Hp | Hp]; simpl in Hp.
  - rewrite Hp, map_size_insert_None; [lia |].
    apply map_lookup_filter_None. by left.
  - apply not_true_is_false in Hp. rewrite Hp, delete_id by done. lia.
Qed.

Lemma owed_on_ext ps ps' ts q :
  (∀ t T, ts !! t = Some T → holds ps' q T = holds ps q T) →
  owed_on ps' ts q = owed_on ps ts q.
Proof.
  intros H. unfold owed_on. do 2 f_equal. apply map_filter_ext.
  intros t T Ht. simpl. by rewrite (H t T Ht).
Qed.

Lemma owed_on_holder ps ts t T q :
  ts !! t = Some T → holds ps q T = true → 1 ≤ owed_on ps ts q.
Proof.
  intros Ht Hh.
  pose proof (owed_on_insert ps ts t T (mkThread (WorkerLoop 0%nat) Returned) q Ht) as E.
  rewrite Hh in E. simpl in E.
  pose proof (owed_on_nonneg ps (<[t := mkThread (WorkerLoop 0%nat) Returned]> ts) q).
  unfold holds in E. simpl in E. lia.
Qed.

Lemma holds_same ps ps' q T :
  (∀ P, ps !! frame_pool (thread_frame T) = Some P →
        ∃ P', ps' !! frame_pool (thread_frame T) = Some P' ∧ _queue P' = _queue P) →
  is_Some (ps !! frame_pool (thread_frame T)) →
  holds ps' q T = holds ps q T.
Proof.
  intros H [P HP]. unfold holds. destruct (H P HP) as (P' & HP' & E).
  by rewrite HP, HP', E.
Qed.

Lemma settled_on_pools qs ps ps' ts :
  settled_on qs ps ts →
  (∀ p P, ps !! p = Some P → ∃ P', ps' !! p = Some P' ∧ _queue P' = _queue P) →
  settled_on qs ps' ts.
Proof.
  intros (K1 & K2 & K3) H.
  assert (∀ q, owed_on ps' ts q = owed_on ps ts q) as Ho.
  { intros q. apply owed_on_ext. intros t T Ht. apply holds_same; eauto. }
  split; [| split].
  - intros t T Ht. destruct (K1 t T Ht) as [P HP]. destruct (H _ _ HP) as (P' & HP' & _).
    eauto.
  - intros t p q timeout st Ht Hst. destruct (K2 t p q timeout st Ht Hst) as (P & HP & E).
    destruct (H _ _ HP) as (P' & HP' & E'). exists P'. split; [done | congruence].
  - intros q. rewrite Ho. apply K3.
Qed.

Lemma settled_on_queues qs qs' ps ts :
  settled_on qs ps ts →
  (∀ q, match qs' !! q with
        | Some Q' =>
            match qs !! q with
            | Some Q => qsize Q' - unfinished_tasks Q' ≤ qsize Q - unfinished_tasks Q
            | None => qsize Q' ≤ unfinished_tasks Q'
            end
        | None => qs !! q = None
        end) →
  settled_on qs' ps ts.
Proof.
  intros (K1 & K2 & K3) H. split; [exact K1 |]. split; [exact K2 |].
  intros q. specialize (K3 q). specialize (H q).
  destruct (qs' !! q) as [Q' |].
  - destruct (qs !! q) as [Q |]; lia.
  - by rewrite H in K3.
Qed.

Lemma settled_on_put qs ps ts q Q x :
  settled_on qs ps ts → qs !! q = Some Q →
  settled_on (<[q := mkQueue (maxsize Q) (queue Q ++ [x]) (unfinished_tasks Q + 1)]> qs)
    ps ts.
Proof.
  intros K HQ. apply (settled_on_queues qs); [exact K |]. intros q'.
  destruct (decide (q = q')) as [<- |].
  - rewrite lookup_insert_eq, HQ. unfold qsize. simpl. rewrite length_app. simpl. lia.
  - rewrite lookup_insert_ne by done. destruct (qs !! q'); [lia | done].
Qed.

Lemma settled_on_get qs ps ts q Q x rest :
  settled_on qs ps ts → qs !! q = Some Q → queue Q = x :: rest →
  settled_on (<[q := mkQueue (maxsize Q) rest (unfinished_tasks Q)]> qs) ps ts.
Proof.
  intros K HQ Hq. apply (settled_on_queues qs); [exact K |]. intros q'.
  destruct (decide (q = q')) as [<- |].
  - rewrite lookup_insert_eq, HQ. unfold qsize. rewrite Hq. simpl. lia.
  - rewrite lookup_insert_ne by done. destruct (qs !! q'); [lia | done].
Qed.

Lemma settled_on_new_queue qs ps ts q n :
  settled_on qs ps ts → qs !! q = None →
  settled_on (<[q := Queue_new n]> qs) ps ts.
Proof.
  intros K HQ. apply (settled_on_queues qs); [exact K |]. intros q'.
  destruct (decide (q = q')) as [<- |].
  - rewrite lookup_insert_eq, HQ. unfold qsize. simpl. lia.
  - rewrite lookup_insert_ne by done. destruct (qs !! q'); [lia | done].
Qed.

Lemma settled_on_new_pool qs ps ts p P :
  settled_on qs ps ts → ps !! p = None → settled_on qs (<[p := P]> ps) ts.
Proof.
  intros K HP. apply (settled_on_pools qs ps); [exact K |]. intros p' P' HP'.
  exists P'. split; [| done]. rewrite lookup_insert_ne; [done |]. congruence.
Qed.

Lemma settled_on_update_pool qs ps ts p P P' :
  settled_on qs ps ts → ps !! p = Some P → _queue P' = _queue P →
  settled_on qs (<[p := P']> ps) ts.
Proof.
  intros K HP E. apply (settled_on_pools qs ps); [exact K |]. intros p0 P0 HP0.
  destruct (decide (p = p0)) as [<- |].
  - exists P'. rewrite lookup_insert_eq. split; [done | congruence].
  - exists P0. by rewrite lookup_insert_ne.
Qed.

Lemma idle_has_no_job b ts t T :
  at_rest b ts → ts !! t = Some T → frame_pool (thread_frame T) = b →
  has_job T = false ∧ in_get T = false.
Proof.
  intros Hidle Ht Hb. specialize (Hidle t T Ht). unfold engaged in Hidle.
  rewrite Hb, Nat.eqb_refl, andb_true_r in Hidle. by apply orb_false_iff in Hidle as [? ?].
Qed.

Lemma settled_on_rewire qs ps ts b P P' :
  settled_on qs ps ts → ps !! b = Some P → at_rest b ts →
  settled_on qs (<[b := P']> ps) ts.
Proof.
  intros (K1 & K2 & K3) HP Hidle.
  assert (∀ q, owed_on (<[b := P']> ps) ts q = owed_on ps ts q) as Ho.
  { intros q. apply owed_on_ext. intros t T Ht. unfold holds.
    destruct (decide (frame_pool (thread_frame T) = b)) as [E | E].
    - destruct (idle_has_no_job b ts t T Hidle Ht E) as [-> _]. done.
    - by rewrite lookup_insert_ne. }
  split; [| split].
  - intros t T Ht. destruct (decide (b = frame_pool (thread_frame T))) as [<- |].
    + rewrite lookup_insert_eq. eauto.
    + rewrite lookup_insert_ne by done. eauto.
  - intros t p q timeout st Ht Hst. destruct (decide (b = p)) as [<- |].
    + destruct (idle_has_no_job b ts t _ Hidle Ht eq_refl) as [_ Hg].
      unfold in_get in Hg. simpl in Hg. rewrite Hst in Hg. done.
    + rewrite lookup_insert_ne by done. eauto.
  - intros q. rewrite Ho. apply K3.
Qed.

Lemma settled_on_new_thread qs ps ts t T' :
  settled_on qs ps ts → ts !! t = None →
  has_job T' = false → in_get T' = false →
  is_Some (ps !! frame_pool (thread_frame T')) →
  settled_on qs ps (<[t := T']> ts).
Proof.
  intros (K1 & K2 & K3) Ht Hj Hg HP.
  assert (∀ q, owed_on ps (<[t := T']> ts) q = owed_on ps ts q) as Ho.
  { intros q. rewrite (owed_on_alloc ps ts t T' q Ht). unfold holds. rewrite Hj. simpl. lia. }
  split; [| split].
  - intros t0 T0 Ht0. destruct (decide (t = t0)) as [<- |].
    + rewrite lookup_insert_eq in Ht0. by injection Ht0 as <-.
    + rewrite lookup_insert_ne in Ht0 by done. eauto.
  - intros t0 p q timeout st Ht0 Hst. destruct (decide (t = t0)) as [<- |].
    + rewrite lookup_insert_eq in Ht0. injection Ht0 as ->.
      unfold in_get in Hg. simpl in Hg. by rewrite Hst in Hg.
    + rewrite lookup_insert_ne in Ht0 by done. eauto.
  - intros q. rewrite Ho. apply K3.
Qed.

(** A thread moves between two frames of the same pool, both with a job in
    hand or both without. *)
Lemma settled_on_move qs ps ts t T T' :
  settled_on qs ps ts → ts !! t = Some T →
  frame_pool (thread_frame T') = frame_pool (thread_frame T) →
  has_job T' = has_job T →
  (∀ p q timeout st, T' = mkThread (WorkerGet p q timeout) st → is_over st = false →
                     ∃ P, ps !! p = Some P ∧ _queue P = q) →
  settled_on qs ps (<[t := T']> ts).
Proof.
  intros (K1 & K2 & K3) Ht Hp Hj Hg.
  assert (∀ q, owed_on ps (<[t := T']> ts) q = owed_on ps ts q) as Ho.
  { intros q. rewrite (owed_on_insert ps ts t T T' q Ht). unfold holds.
    rewrite Hp, Hj. destruct (has_job T && _); lia. }
  split; [| split].
  - intros t0 T0 Ht0. destruct (decide (t = t0)) as [<- |].
    + rewrite lookup_insert_eq in Ht0. injection Ht0 as <-. rewrite Hp. eauto.
    + rewrite lookup_insert_ne in Ht0 by done. eauto.
  - intros t0 p q timeout st Ht0 Hst. destruct (decide (t = t0)) as [<- |].
    + rewrite lookup_insert_eq in Ht0. injection Ht0 as E. eauto.
    + rewrite lookup_insert_ne in Ht0 by done. eauto.
  - intros q. rewrite Ho. apply K3.
Qed.

(** A worker without a job takes the first item of the input queue of its
    pool. *)
Lemma settled_on_take qs ps ts t T T' P Q job rest :
  settled_on qs ps ts → ts !! t = Some T →
  has_job T = false →
  frame_pool (thread_frame T') = frame_pool (thread_frame T) →
  has_job T' = true → in_get T' = false →
  ps !! frame_pool (thread_frame T) = Some P →
  qs !! _queue P = Some Q → queue Q = job :: rest →
  settled_on (<[_queue P := mkQueue (maxsize Q) rest (unfinished_tasks Q)]> qs) ps
    (<[t := T']> ts).
Proof.
  intros (K1 & K2 & K3) Ht Hj Hp Hj' Hg HP HQ Hq.
  assert (∀ q, owed_on ps (<[t := T']> ts) q
               = owed_on ps ts q + (if decide (_queue P = q) then 1 else 0)) as Ho.
  { intros q. rewrite (owed_on_insert ps ts t T T' q Ht). unfold holds.
    rewrite Hp, Hj, Hj', HP. simpl.
    destruct (decide (_queue P = q)) as [E | E].
    - rewrite bool_decide_eq_true_2 by done. lia.
    - rewrite bool_decide_eq_false_2 by done. lia. }
  split; [| split].
  - intros t0 T0 Ht0. destruct (decide (t = t0)) as [<- |].
    + rewrite lookup_insert_eq in Ht0. injection Ht0 as <-. rewrite Hp. eauto.
    + rewrite lookup_insert_ne in Ht0 by done. eauto.
  - intros t0 p q timeout st Ht0 Hst. destruct (decide (t = t0)) as [<- |].
    + rewrite lookup_insert_eq in Ht0. injection Ht0 as ->.
      unfold in_get in Hg. simpl in Hg. by rewrite Hst in Hg.
    + rewrite lookup_insert_ne in Ht0 by done. eauto.
  - intros q. rewrite Ho. specialize (K3 q).
    destruct (decide (_queue P = q)) as [<- | E].
    + rewrite lookup_insert_eq. rewrite HQ in K3.
      unfold qsize in *. rewrite Hq in K3. simpl in *. lia.
    + rewrite lookup_insert_ne by done. destruct (qs !! q); lia.
Qed.

(** A worker with a job calls [task_done] on the input queue of its pool:
    the call succeeds, and the worker has no job any more. *)
Lemma settled_on_done qs ps ts t T P :
  settled_on qs ps ts → ts !! t = Some T →
  has_job T = true →
  ps !! frame_pool (thread_frame T) = Some P →
  ∃ Q, qs !! _queue P = Some Q ∧ 1 ≤ unfinished_tasks Q ∧
       ∀ T', frame_pool (thread_frame T') = frame_pool (thread_frame T) →
             has_job T' = false → in_get T' = false →
             settled_on
               (<[_queue P := mkQueue (maxsize Q) (queue Q) (unfinished_tasks Q - 1)]> qs)
               ps (<[t := T']> ts).
Proof.
  intros (K1 & K2 & K3) Ht Hj HP.
  assert (holds ps (_queue P) T = true) as Hh.
  { unfold holds. rewrite Hj, HP. simpl. by apply bool_decide_eq_true_2. }
  pose proof (owed_on_holder ps ts t T _ Ht Hh) as Hpos.
  pose proof (K3 (_queue P)) as K3q.
  destruct (qs !! _queue P) as [Q |] eqn:HQ; [| lia].
  assert (0 ≤ qsize Q) by (unfold qsize; lia).
  exists Q. split; [done |]. split; [lia |].
  intros T' Hp Hj' Hg.
  assert (∀ q, owed_on ps (<[t := T']> ts) q
               = owed_on ps ts q - (if decide (_queue P = q) then 1 else 0)) as Ho.
  { intros q. rewrite (owed_on_insert ps ts t T T' q Ht). unfold holds.
    rewrite Hp, Hj, Hj', HP. simpl.
    destruct (decide (_queue P = q)) as [E | E].
    - rewrite bool_decide_eq_true_2 by done. lia.
    - rewrite bool_decide_eq_false_2 by done. lia. }
  split; [| split].
  - intros t0 T0 Ht0. destruct (decide (t = t0)) as [<- |].
    + rewrite lookup_insert_eq in Ht0. injection Ht0 as <-. rewrite Hp. eauto.
    + rewrite lookup_insert_ne in Ht0 by done. eauto.
  - intros t0 p q timeout st Ht0 Hst. destruct (decide (t = t0)) as [<- |].
    + rewrite lookup_insert_eq in Ht0. injection Ht0 as ->.
      unfold in_get in Hg. simpl in Hg. by rewrite Hst in Hg.
    + rewrite lookup_insert_ne in Ht0 by done. eauto.
  - intros q. rewrite Ho. specialize (K3 q).
    destruct (decide (_queue P = q)) as [<- | E].
    + rewrite lookup_insert_eq. unfold qsize in *. simpl. lia.
    + rewrite lookup_insert_ne by done. destruct (qs !! q); lia.
Qed.

Lemma call_job_store call_fun (job : value) (σ : heap) :
  (call_job call_fun job σ).1 ≠ Blocked ∧
  queues (call_job call_fun job σ).2 = queues σ ∧
  pools (call_job call_fun job σ).2 = pools σ.
Proof.
  split; [by apply quiet_call_job |].
  assert (preserves (λ s, queues s = queues σ ∧ pools s = pools σ)
            (call_job call_fun job)) as H.
  { unfold call_job. ipres ltac:(by intros ? ?). }
  by apply H.
Qed.

Section WorkerSteps.

Context (call_fun : nat → list value → list (string * value) → value + exn).
Context (t p : loc) (ts : gmap loc Thread).

Lemma good_over (fr : frame) (σ : heap) (st : run_state) (fr0 : frame) :
  good t p ts fr σ → has_job (mkThread fr Alive) = false → is_over st = true →
  frame_pool fr0 = p →
  settled_on (queues σ) (pools σ) (<[t := mkThread fr0 st]> ts).
Proof.
  intros (K & Hp & _) Hj Hst Hp0.
  rewrite <- (insert_insert_eq ts t _ (mkThread fr Alive)).
  apply (settled_on_move _ _ _ t (mkThread fr Alive)); [done | apply lookup_insert_eq | ..].
  - simpl. congruence.
  - rewrite Hj. unfold has_job. simpl. by rewrite Hst.
  - intros p0 q0 timeout0 st0 [= _ <-] Hst0. congruence.
Qed.

Lemma good_except (fr : frame) (σ σ' : heap) (e : exn) :
  good t p ts fr σ → has_job (mkThread fr Alive) = false →
  queues σ' = queues σ → pools σ' = pools σ →
  good_outcome t p ts (except_Empty e σ').
Proof.
  intros Hg Hj Hq Hp. unfold except_Empty.
  assert (good t p ts fr σ') as Hg'.
  { destruct Hg as (K & ? & ?). split; [| done]. by rewrite Hq, Hp. }
  destruct (exn_eqb e Empty); simpl; intros fr0 Hfr0.
  - by apply (good_over fr σ').
  - by apply (good_over fr σ').
Qed.

Lemma step_good (fr : frame) (σ : heap) :
  good t p ts fr σ → good_outcome t p ts (worker_step call_fun fr σ).
Proof.
  intros Hg. pose proof Hg as (K & Hp & Hc).
  assert (<[t := mkThread fr Alive]> ts !! t = Some (mkThread fr Alive)) as Ht
    by apply lookup_insert_eq.
  destruct fr as [p' | p' q timeout | p' job | p' qo timeout result | p' raised | | |];
    try done; simpl in Hp; subst p'.
  - (* at the head of the loop *)
    rewrite ws_loop. destruct (pools σ !! p) as [P |] eqn:HP.
    + split; [| done].
      rewrite <- (insert_insert_eq ts t _ (mkThread (WorkerLoop p) Alive)).
      apply (settled_on_move _ _ _ t (mkThread (WorkerLoop p) Alive)); try done.
      intros p0 q0 timeout0 st0 [= <- <- _ _] _. eauto.
    + intros fr0 Hfr0. by apply (good_over (WorkerLoop p) σ).
  - (* in get *)
    rewrite ws_get. unfold Queue_get.
    destruct (queues σ !! q) as [Q |] eqn:HQ;
      [| by apply (good_except (WorkerGet p q timeout) σ)].
    destruct (timeout <? 0); [by apply (good_except (WorkerGet p q timeout) σ) |].
    destruct (queue Q) as [| job rest] eqn:Hq;
      [by apply (good_except (WorkerGet p q timeout) σ) |].
    destruct K as (K1 & K2 & K3).
    destruct (K2 t p q timeout Alive Ht eq_refl) as (P & HP & E). subst q.
    split; [| done]. simpl.
    rewrite <- (insert_insert_eq ts t _ (mkThread (WorkerGet p (_queue P) timeout) Alive)).
    by apply (settled_on_take _ _ _ t (mkThread (WorkerGet p (_queue P) timeout) Alive)
                _ P Q job rest).
  - (* with a job in hand *)
    rewrite ws_call.
    destruct (call_job_store call_fun job
                (with_trace (λ tr, tr ++ [ELog "Running job."]) σ)) as (Hnb & Hq & Hpo).
    destruct (call_job call_fun job _) as [[result | e |] σ']; simpl in *; [| | done].
    + assert (∀ fr', frame_pool fr' = p → in_consume fr' = false →
                     has_job (mkThread fr' Alive) = true → good t p ts fr' σ') as Hnext.
      { intros fr' Hp' Hc' Hj'. split; [| done]. rewrite Hq, Hpo.
        rewrite <- (insert_insert_eq ts t _ (mkThread (WorkerCall p job) Alive)).
        apply (settled_on_move _ _ _ t (mkThread (WorkerCall p job) Alive)); try done.
        intros p0 q0 timeout0 st0 [= -> _]. done. }
      destruct (pools σ' !! p) as [P1 |]; [| by apply Hnext].
      destruct (_queue_out P1); by apply Hnext.
    + split; [| done]. rewrite Hq, Hpo.
      rewrite <- (insert_insert_eq ts t _ (mkThread (WorkerCall p job) Alive)).
      by apply (settled_on_move _ _ _ t (mkThread (WorkerCall p job) Alive)).
  - (* in put *)
    rewrite ws_put.
    assert (∀ σ' raised, settled_on (queues σ') (pools σ')
                           (<[t := mkThread (WorkerPut p qo timeout result) Alive]> ts) →
                         good t p ts (WorkerFinally p raised) σ') as Hnext.
    { intros σ' raised K'. split; [| done].
      rewrite <- (insert_insert_eq ts t _ (mkThread (WorkerPut p qo timeout result) Alive)).
      by apply (settled_on_move _ _ _ t (mkThread (WorkerPut p qo timeout result) Alive)). }
    unfold Queue_put.
    destruct (queues σ !! qo) as [Qo |] eqn:HQo; [| by apply Hnext].
    destruct ((0 <? maxsize Qo) && (timeout <? 0)); [by apply Hnext |].
    destruct (full Qo); [by apply Hnext |].
    apply Hnext. simpl. by apply settled_on_put.
  - (* at the finally clause *)
    rewrite ws_finally.
    destruct K as (K1 & K2 & K3). destruct (K1 t _ Ht) as [P2 HP2]. simpl in HP2.
    rewrite HP2.
    destruct (settled_on_done _ _ _ t (mkThread (WorkerFinally p raised) Alive) P2
                (conj K1 (conj K2 K3)) Ht eq_refl HP2) as (Q & HQ & Hu & Hdone).
    rewrite (Queue_task_done_run σ (_queue P2) Q HQ Hu).
    set (σ' := with_queues _ (with_trace _ σ)).
    assert (∀ T', frame_pool (thread_frame T') = p →
                  has_job T' = false → in_get T' = false →
                  settled_on (queues σ') (pools σ') (<[t := T']> ts)) as Hnext.
    { intros T' ? ? ?.
      rewrite <- (insert_insert_eq ts t _ (mkThread (WorkerFinally p raised) Alive)).
      by apply Hdone. }
    destruct raised as [e |].
    + unfold except_Empty. destruct (exn_eqb e Empty); simpl; intros fr0 Hfr0;
        by apply Hnext.
    + split; [| done]. by apply Hnext.
Qed.

Lemma and_then_good (m : M (option frame)) (k : frame → M (option frame)) (σ : heap) :
  good_outcome t p ts (m σ) →
  (∀ fr' σ', good t p ts fr' σ' → good_outcome t p ts (k fr' σ')) →
  good_outcome t p ts (and_then m k σ).
Proof.
  intros Hm Hk. unfold and_then.
  destruct (m σ) as [[[fr' |] | e |] σ']; try exact Hm. by apply Hk.
Qed.

Lemma turn_good (σ : heap) :
  good t p ts (WorkerLoop p) σ → good_outcome t p ts (_thread_run_iter call_fun p σ).
Proof.
  intros Hg. rewrite turn_is_steps. unfold turn_in_steps.
  apply and_then_good; [by apply step_good |]. intros fr1 σ1 H1.
  apply and_then_good; [by apply step_good |]. intros fr2 σ2 H2.
  apply and_then_good; [by apply step_good |]. intros fr3 σ3 H3.
  destruct fr3; try (by apply step_good).
  apply and_then_good; [by apply step_good |]. intros fr4 σ4 H4. by apply step_good.
Qed.

End WorkerSteps.

(** *** The methods keep the store settled *)

Section SettledMethods.

Context (pre idle : list loc).

Lemma sw_log e : preserves (settled_with pre idle) (log e).
Proof. intros σ H. exact H. Qed.

Lemma sw_alloc_queue n : preserves (settled_with pre idle) (alloc_queue (Queue_new n)).
Proof.
  intros σ (K & Hpre & Hidle). split; [| done].
  apply settled_on_new_queue; [exact K |].
  apply not_elem_of_dom. apply is_fresh.
Qed.

Lemma sw_alloc_pool P : preserves (settled_with pre idle) (alloc_pool P).
Proof.
  intros σ (K & Hpre & Hidle).
  assert (pools σ !! fresh (dom (pools σ)) = None) as Hf
    by (apply not_elem_of_dom; apply is_fresh).
  split; [| split; [| done]].
  - by apply settled_on_new_pool.
  - eapply Forall_impl; [exact Hpre |]. intros p [P0 HP0]. simpl.
    rewrite lookup_insert_ne; [eauto | congruence].
Qed.

Lemma sw_update_pool p f :
  (∀ P, _queue (f P) = _queue P) → preserves (settled_with pre idle) (update_pool p f).
Proof.
  intros Hf σ (K & Hpre & Hidle). unfold update_pool.
  destruct (pools σ !! p) as [P |] eqn:HP; [| done].
  split; [| split; [| done]].
  - by apply (settled_on_update_pool _ _ _ p P).
  - eapply Forall_impl; [exact Hpre |]. intros p0 [P0 HP0]. simpl.
    destruct (decide (p = p0)) as [-> | Hne].
    + rewrite lookup_insert_eq. eauto.
    + rewrite lookup_insert_ne; eauto.
Qed.

Lemma sw_rewire b f : b ∈ idle → preserves (settled_with pre idle) (update_pool b f).
Proof.
  intros Hb σ (K & Hpre & Hidle). unfold update_pool.
  destruct (pools σ !! b) as [P |] eqn:HP; [| done].
  split; [| split; [| done]].
  - apply (settled_on_rewire _ _ _ b P); [done | done |].
    by apply (proj1 (Forall_forall _ _) Hidle).
  - eapply Forall_impl; [exact Hpre |]. intros p0 [P0 HP0]. simpl.
    destruct (decide (b = p0)) as [-> | Hne].
    + rewrite lookup_insert_eq. eauto.
    + rewrite lookup_insert_ne; eauto.
Qed.

Lemma sw_put q x timeout : preserves (settled_with pre idle) (Queue_put q x timeout).
Proof.
  intros σ (K & Hpre & Hidle). unfold Queue_put.
  destruct (queues σ !! q) as [Q |] eqn:HQ; [| done].
  destruct ((0 <? maxsize Q) && (timeout <? 0)); [done |].
  destruct (full Q); [done |].
  split; [| done]. by apply settled_on_put.
Qed.

Lemma sw_get q timeout : preserves (settled_with pre idle) (Queue_get q timeout).
Proof.
  intros σ (K & Hpre & Hidle). unfold Queue_get.
  destruct (queues σ !! q) as [Q |] eqn:HQ; [| done].
  destruct (timeout <? 0); [done |].
  destruct (queue Q) as [| x rest] eqn:Hq; [done |].
  split; [| done]. by apply (settled_on_get _ _ _ q Q x rest).
Qed.

Lemma sw_alloc_thread fr :
  frame_pool fr ∈ pre →
  has_job (mkThread fr Unstarted) = false → in_get (mkThread fr Unstarted) = false →
  preserves (settled_with pre idle) (alloc_thread (mkThread fr Unstarted)).
Proof.
  intros Hp Hj Hg σ (K & Hpre & Hidle).
  assert (threads σ !! fresh (dom (threads σ)) = None) as Hf
    by (apply not_elem_of_dom; apply is_fresh).
  split; [| split; [done |]].
  - apply settled_on_new_thread; try done.
    by apply (proj1 (Forall_forall _ _) Hpre).
  - eapply Forall_impl; [exact Hidle |]. intros b Hb t T. simpl.
    destruct (decide (t = fresh (dom (threads σ)))) as [-> | Hne].
    + rewrite lookup_insert_eq. intros [= <-]. unfold engaged. by rewrite Hj, Hg.
    + rewrite lookup_insert_ne; [apply Hb | congruence].
Qed.

Lemma sw_thread_start t : preserves (settled_with pre idle) (Thread_start t).
Proof.
  intros σ (K & Hpre & Hidle). unfold Thread_start.
  destruct (threads σ !! t) as [[fr st] |] eqn:Ht; [| done].
  destruct st; try done.
  split; [| split; [done |]].
  - apply (settled_on_move _ _ _ t (mkThread fr Unstarted)); try done.
    intros p q timeout st [= -> <-] _.
    destruct K as (_ & K2 & _). by apply (K2 t p q timeout Unstarted).
  - eapply Forall_impl; [exact Hidle |]. intros b Hb t0 T. simpl.
    destruct (decide (t0 = t)) as [-> | Hne].
    + rewrite lookup_insert_eq. intros [= <-]. exact (Hb t _ Ht).
    + rewrite lookup_insert_ne; [apply Hb | congruence].
Qed.

End SettledMethods.

Ltac sw_leaf :=
  first [ apply sw_log | apply sw_alloc_queue | apply sw_alloc_pool
        | apply sw_put | apply sw_get | apply sw_thread_start
        | apply sw_update_pool; intros ?; reflexivity
        | apply sw_rewire; set_solver
        | apply sw_alloc_thread; [set_solver | reflexivity | reflexivity] ].

Section SettledOps.

Context (pre idle : list loc).

Lemma sw_add p f a k : preserves (settled_with pre idle) (add p f a k).
Proof. unfold add. ipres sw_leaf. Qed.

Lemma sw_call_add p job : preserves (settled_with pre idle) (call_add p job).
Proof. pose proof sw_add. unfold call_add. ipres ltac:(solve [auto]). Qed.

Lemma sw_consume_step fr : preserves (settled_with pre idle) (consume_step fr).
Proof.
  pose proof sw_call_add. unfold consume_step.
  destruct fr as [p | p q to | p job | p qo to r | p e | p | p [| job rest] | p job rest];
    ipres ltac:(first [sw_leaf | solve [auto]]).
Qed.

Lemma sw_finish now p : preserves (settled_with pre idle) (finish now p).
Proof. unfold finish. ipres sw_leaf. Qed.

Lemma sw_wait now p : preserves (settled_with pre idle) (wait now p).
Proof.
  pose proof sw_finish. unfold wait, Queue_join. ipres ltac:(first [sw_leaf | solve [auto]]).
Qed.

Lemma sw_start now p : preserves (settled_with pre idle) (start now p).
Proof. unfold start. ipres sw_leaf. Qed.

Lemma sw_jobs_count p : preserves (settled_with pre idle) (jobs_count p).
Proof. unfold jobs_count, Queue_qsize. ipres sw_leaf. Qed.

Lemma sw_clean_pool p : preserves (settled_with pre idle) (_clean_pool p).
Proof.
  intros σ H. unfold _clean_pool.
  set (f := λ P, set__pool (filter (λ t, is_alive σ t = true) (_pool P)) P).
  assert (Hp : preserves (settled_with pre idle) (update_pool p f ≫= λ _, mret p))
    by (subst f; ipres sw_leaf).
  exact (Hp σ H).
Qed.

Lemma sw_set_source_nonpool p s :
  p ∈ idle → preserves (settled_with pre idle) (set_source_nonpool p s).
Proof. intros Hp. unfold set_source_nonpool. ipres sw_leaf. Qed.

Lemma sw_forward p o : o ∈ idle → preserves (settled_with pre idle) (forward p o).
Proof.
  intros Ho. pose proof (λ s, sw_set_source_nonpool o s Ho).
  unfold forward. ipres ltac:(first [sw_leaf | solve [auto]]).
Qed.

Lemma sw_set_source p s :
  (hands_queue s = true → p ∈ idle) →
  preserves (settled_with pre idle) (set_source p s).
Proof.
  intros Hp. unfold set_source.
  destruct s; try (unfold set_source_nonpool; ipres sw_leaf; fail).
  pose proof (sw_forward p0 p (Hp eq_refl)). ipres ltac:(solve [auto]).
Qed.

Lemma sw_spawn_workers n p :
  p ∈ pre → preserves (settled_with pre idle) (spawn_workers n p).
Proof. intros Hp. induction n as [| n IH]; simpl; ipres ltac:(first [sw_leaf | solve [auto]]). Qed.

Lemma sw_build_pool p : p ∈ pre → preserves (settled_with pre idle) (_build_pool p).
Proof.
  intros Hp. pose proof (λ n, sw_spawn_workers n p Hp).
  unfold _build_pool. ipres ltac:(first [sw_leaf | solve [auto]]).
Qed.

Lemma sw_run now p : p ∈ pre → preserves (settled_with pre idle) (run now p).
Proof.
  intros Hp. pose proof (sw_build_pool p Hp). pose proof (sw_start now p).
  unfold run. ipres ltac:(first [sw_leaf | solve [auto]]).
Qed.

End SettledOps.

(** *** Every call of an orderly history keeps the store settled *)

Lemma settled_with_intro (pre idle : list loc) (σ : heap) :
  settled σ → Forall (λ p, is_Some (pools σ !! p)) pre →
  Forall (λ b, at_rest b (threads σ)) idle → settled_with pre idle σ.
Proof. by intros ? ? ?. Qed.

Lemma consume_step_frame (fr fr' : frame) (σ σ' : heap) :
  in_consume fr = true → consume_step fr σ = (Ok (Some fr'), σ') →
  frame_pool fr' = frame_pool fr ∧ in_consume fr' = true.
Proof.
  intros Hc H.
  destruct fr as [p | p q to | p job | p qo to r | p e | p | p [| job rest] | p job rest];
    try done; simpl in H.
  - rewrite bind_run in H. unfold get_pool in H.
    destruct (pools σ !! p) as [P |]; [| done]. cbv beta iota in H.
    rewrite bind_run in H. unfold lift in H.
    destruct (py_iter (_source P)); by inversion H.
  - rewrite bind_run in H. unfold lift in H.
    destruct (py_len job) as [n | |]; [| done | done].
    destruct (negb (n =? 3)); by inversion H.
  - unfold try_except in H. rewrite bind_run in H.
    destruct (call_add p job σ) as [[a | e |] σ1]; [by inversion H | | done].
    destruct (exn_eqb e Full); by inversion H.
Qed.

Section SettledHistory.

Context (call_fun : nat → list value → list (string * value) → value + exn).

Lemma settled_run now p σ : settled σ → settled (exec (run now p) σ).
Proof.
  intros K. destruct (pools σ !! p) as [P |] eqn:HP.
  - apply (sw_run [p] [] now p); [set_solver |].
    apply settled_with_intro; [done | | done]. apply Forall_singleton. eauto.
  - unfold exec, run, start. rewrite !bind_run. unfold update_pool. by rewrite HP.
Qed.

Lemma settled_build_pool p σ : settled σ → settled (exec (_build_pool p) σ).
Proof.
  intros K. destruct (pools σ !! p) as [P |] eqn:HP.
  - apply (sw_build_pool [p] [] p); [set_solver |].
    apply settled_with_intro; [done | | done]. apply Forall_singleton. eauto.
  - unfold exec, _build_pool. rewrite !bind_run. unfold update_pool. by rewrite HP.
Qed.

Lemma settled_forward a b σ :
  settled σ → at_rest b (threads σ) → settled (exec (forward a b) σ).
Proof.
  intros K Hb. apply (sw_forward [] [b] a b); [set_solver |].
  apply settled_with_intro; [done | done |]. by apply Forall_singleton.
Qed.

Lemma settled_set_source p s σ :
  settled σ → (hands_queue s = true → at_rest p (threads σ)) →
  settled (exec (set_source p s) σ).
Proof.
  intros K Hp. destruct (hands_queue s) eqn:Hs.
  - apply (sw_set_source [] [p] p s); [set_solver |].
    apply settled_with_intro; [done | done |]. apply Forall_singleton. by apply Hp.
  - apply (sw_set_source [] [] p s); [by rewrite Hs |].
    by apply settled_with_intro.
Qed.

Lemma settled_init n s c timeout σ : settled σ → settled (exec (__init__ n s c timeout) σ).
Proof.
  intros K. unfold exec, __init__. rewrite bind_run. unfold alloc_queue at 1.
  cbv zeta beta iota. set (q := fresh (dom (queues σ))).
  rewrite bind_run. unfold alloc_pool at 1. cbv zeta beta iota.
  set (σ1 := with_queues _ σ). set (p := fresh (dom (pools σ1))).
  set (σ2 := with_pools _ σ1).
  assert (settled_with [] [p] σ2) as K2.
  { assert (settled_with [] [] σ2) as (K' & _ & _).
    { apply (sw_alloc_pool [] []). apply (sw_alloc_queue [] [] c).
      by apply settled_with_intro. }
    apply settled_with_intro; [done | done |]. apply Forall_singleton.
    intros t T Ht. unfold engaged.
    destruct K as (K1 & _). destruct (K1 t T Ht) as [P HP].
    assert (frame_pool (thread_frame T) ≠ p) as Hne.
    { intros E. apply (is_fresh (dom (pools σ1))). fold p. rewrite <- E.
      apply elem_of_dom. eauto. }
    apply Nat.eqb_neq in Hne. rewrite Hne. apply andb_false_r. }
  assert (preserves (settled_with [] [p]) (set_source p s ≫= λ _, mret p)) as Hs.
  { pose proof (sw_set_source [] [p] p s). ipres ltac:(solve [auto; set_solver]). }
  by apply Hs.
Qed.

Lemma settled_thread_end (σ σ' : heap) (t : loc) (fr fr' : frame) (st : run_state) :
  settled σ' → threads σ' !! t = Some (mkThread fr Alive) →
  in_consume fr = true → frame_pool fr' = frame_pool fr →
  (is_over st = true ∨ in_consume fr' = true) →
  settled (with_threads <[t := mkThread fr' st]> σ').
Proof.
  intros K Ht Hc Hp Hst.
  apply (settled_on_move _ _ _ t (mkThread fr Alive)); try done.
  - unfold has_job. simpl. destruct fr; try done; destruct Hst as [-> | Hc'];
      try done; destruct fr'; try done; by rewrite andb_false_r.
  - intros p q timeout st0 [= -> <-] Ho. destruct Hst; [congruence | done].
Qed.

Lemma settled_turn (small : bool) (t : loc) (σ : heap) :
  settled σ →
  settled (exec (if small then step call_fun t else sched call_fun t) σ).
Proof.
  intros K. unfold exec.
  set (run := if small then small_step call_fun else thread_step call_fun).
  assert ((if small then step call_fun t else sched call_fun t) σ
          = match threads σ !! t with
            | Some (mkThread fr Alive) =>
                match run fr σ with
                | (Ok (Some fr'), σ') => (Ok tt, with_threads <[t := mkThread fr' Alive]> σ')
                | (Ok None, σ') => (Ok tt, with_threads <[t := mkThread fr Returned]> σ')
                | (Raise e, σ') => (Ok tt, with_threads <[t := mkThread fr (Died e)]> σ')
                | (Blocked, σ') => (Ok tt, σ')
                end
            | _ => (Ok tt, σ)
            end) as -> by (by destruct small).
  destruct (threads σ !! t) as [[fr st] |] eqn:Ht; [| exact K].
  destruct st; try exact K.
  assert (threads (run fr σ).2 = threads σ) as Hts.
  { subst run. destruct small.
    - exact (queue_stable_small_step _ call_fun (threads_queue_stable (threads σ))
               fr σ eq_refl).
    - exact (queue_stable_thread_step _ call_fun (threads_queue_stable (threads σ))
               fr σ eq_refl). }
  destruct (in_consume fr) eqn:Hc.
  - (* a step of the consumer *)
    assert (run fr = consume_step fr) as Hrun
      by (subst run; destruct small, fr; done).
    rewrite Hrun in *.
    assert (settled (consume_step fr σ).2) as K'.
    { apply (sw_consume_step [] [] fr σ). by apply settled_with_intro. }
    destruct (consume_step fr σ) as [[[fr' |] | e |] σ'] eqn:E; simpl in *;
      [| | | exact K'].
    + destruct (consume_step_frame fr fr' σ σ' Hc E) as [Hp Hc'].
      apply (settled_thread_end σ' σ' t fr); try done; [congruence | by right].
    + apply (settled_thread_end σ' σ' t fr); try done; [congruence | by left].
    + apply (settled_thread_end σ' σ' t fr); try done; [congruence | by left].
  - (* a step or a turn of a worker *)
    assert (good t (frame_pool fr) (threads σ) fr σ) as Hg.
    { split; [| done]. by rewrite insert_id. }
    assert (good_outcome t (frame_pool fr) (threads σ) (run fr σ)) as Hout.
    { subst run. destruct small.
      - assert (small_step call_fun fr = worker_step call_fun fr) as ->
          by (by destruct fr).
        by apply step_good.
      - destruct fr; try done; try (by apply step_good).
        by apply turn_good. }
    destruct (run fr σ) as [[[fr' |] | e |] σ']; simpl in *; try done.
    + destruct Hout as (K' & _). unfold settled. simpl. by rewrite Hts.
    + unfold settled. simpl. rewrite Hts. by apply Hout.
    + unfold settled. simpl. rewrite Hts. by apply Hout.
Qed.

Lemma settled_exec_op (o : op) (σ : heap) :
  no_bare_task_done o →
  (∀ b, rewired o = Some b → at_rest b (threads σ)) →
  settled σ → settled (exec_op call_fun o σ).
Proof.
  intros Ho Hb K.
  assert (settled_with [] [] σ) as K0 by (by apply settled_with_intro).
  destruct o; simpl in *.
  - by apply settled_init.
  - by apply (sw_alloc_queue [] [] _ σ).
  - by apply (sw_add [] [] _ _ _ _ σ).
  - by apply (sw_wait [] [] _ _ σ).
  - by apply settled_run.
  - by apply (sw_start [] [] _ _ σ).
  - by apply (sw_finish [] [] _ _ σ).
  - apply settled_forward; [done |]. by apply Hb.
  - apply settled_set_source; [done |]. intros Hs. apply Hb. by rewrite Hs.
  - by apply (sw_jobs_count [] [] _ σ).
  - by apply settled_build_pool.
  - by apply (sw_clean_pool [] [] _ σ).
  - by apply (sw_put [] [] _ _ _ σ).
  - by apply (sw_get [] [] _ _ σ).
  - done.
  - by apply (settled_turn false).
  - by apply (settled_turn true).
Qed.

Lemma settled_exec_ops (os : list op) (σ : heap) :
  orderly call_fun os σ → settled σ → settled (exec_ops call_fun os σ).
Proof.
  revert σ. induction os as [| o os IH]; intros σ Hos K; [exact K |].
  destruct Hos as (Ho & Hb & Hos). simpl. apply IH; [exact Hos |].
  by apply settled_exec_op.
Qed.

End SettledHistory.

Lemma settled_empty : settled empty_heap.
Proof.
  split; [| split].
  - intros t T Ht. simpl in Ht. by rewrite lookup_empty in Ht.
  - intros t p q timeout st Ht. simpl in Ht. by rewrite lookup_empty in Ht.
  - intros q. simpl. rewrite lookup_empty. unfold owed_on.
    by rewrite map_filter_empty, map_size_empty.
Qed.

(** [at_rest] of a given thread table can be computed. *)
Lemma at_rest_decide (b : loc) (ts : gmap loc Thread) :
  bool_decide (map_Forall (λ _ T, engaged b T = false) ts) = true → at_rest b ts.
Proof. intros H. exact (bool_decide_eq_true_1 _ H). Qed.

(** X17: take any history of calls from the empty store (pools and queues
    built, jobs added or put, items taken, pools forwarded and run,
    consumers scheduled, workers given whole turns or single steps, in any
    order) in which [task_done] is left to the workers and a pool is given
    another input queue only while none of its workers waits in [get] or
    has a job in hand. Then every queue has at least as many unfinished
    tasks as it holds items plus the jobs that workers have taken from it
    and not yet marked done; so it never holds more items than it has
    unfinished tasks. *)
Theorem unfinished_covers_queued
    (call_fun : nat → list value → list (string * value) → value + exn)
    (os : list op) (q : loc) (Q : Queue) :
  orderly call_fun os empty_heap →
  queues (exec_ops call_fun os empty_heap) !! q = Some Q →
  qsize Q + owed (exec_ops call_fun os empty_heap) q ≤ unfinished_tasks Q ∧
  qsize Q ≤ unfinished_tasks Q.
Proof.
  intros Hos HQ.
  destruct (settled_exec_ops call_fun os empty_heap Hos settled_empty) as (_ & _ & K3).
  specialize (K3 q). rewrite HQ in K3.
  pose proof (owed_on_nonneg (pools (exec_ops call_fun os empty_heap))
                (threads (exec_ops call_fun os empty_heap)) q).
  unfold owed in *. lia.
Qed.



(** X23: what X17 and X18 assume of a history cannot be dropped. Pool 0 has
    one worker, which has taken a job and is running it when pool 1 is
    forwarded to pool 0; a second job is then added to pool 0, on the new
    queue, and the worker finishes the first. No call of the history is a
    bare [task_done], but the worker's [task_done] goes to the new queue:
    that queue holds the second job with no unfinished task, the old queue
    keeps one unfinished task for ever, and [wait] on pool 0 returns while
    the second job is queued. On its next turn the worker takes the second
    job and dies of [ValueError] at [task_done]. *)
Theorem rewiring_during_job_breaks_accounting :
  Forall no_bare_task_done Samples.rewired_mid_job_history ∧
  ¬ orderly Samples.funs Samples.rewired_mid_job_history empty_heap ∧
  thread_is 0%nat (mkThread (WorkerLoop 0%nat) Alive) Samples.rewired_mid_job ∧
  (∃ P, pools Samples.rewired_mid_job !! 0%nat = Some P ∧ _queue P = 2%nat) ∧
  queues Samples.rewired_mid_job !! 2%nat = Some (mkQueue 3 [Samples.second_job] 0) ∧
  queues Samples.rewired_mid_job !! 0%nat = Some (mkQueue 3 [] 1) ∧
  (wait 9 0%nat Samples.rewired_mid_job).1 = Ok 0%nat ∧
  thread_is 0%nat (mkThread (WorkerLoop 0%nat) (Died ValueError))
    (exec_ops Samples.funs [OSched 0%nat] Samples.rewired_mid_job).
Proof.
  split; [repeat constructor |]. split.
  - intros (_ & _ & _ & _ & _ & _ & _ & _ & _ & _ & _ & _ & _ & Hb & _).
    specialize (Hb 0%nat eq_refl 0%nat (mkThread (WorkerCall 0%nat Samples.one_job) Alive)
                  eq_refl).
    discriminate Hb.
  - split; [reflexivity |]. split; [eexists; split; reflexivity |].
    repeat split; reflexivity.
Qed.

(** * The further properties at sample runs *)

Lemma worker_dies_on_job_error_witness :
  threads (sched Samples.callables 0%nat (Samples.busy 1)).2 !! 0%nat
    = Some (mkThread (WorkerLoop 0%nat) (Died (JobError 7))) ∧
  queues (sched Samples.callables 0%nat (Samples.busy 1)).2 !! 0%nat
    = Some (mkQueue 3 [] 0).
Proof.
  destruct (worker_dies_on_job_error Samples.callables (Samples.busy 1) 0%nat 0%nat
              Samples.idle_pool (Samples.busy_queue 1) 1%nat [] [] [] (JobError 7)
              eq_refl eq_refl eq_refl eq_refl ltac:(simpl; lia) ltac:(simpl; lia)
              eq_refl eq_refl) as [Hs Hdead].
  split; [exact (Hdead []) |]. rewrite Hs. reflexivity.
Defined.

Lemma worker_quits_when_job_raises_Empty_witness :
  threads (sched Samples.callables 0%nat (Samples.busy 2)).2 !! 0%nat
    = Some (mkThread (WorkerLoop 0%nat) Returned).
Proof.
  destruct (worker_quits_when_job_raises_Empty Samples.callables (Samples.busy 2)
              0%nat 0%nat Samples.idle_pool (Samples.busy_queue 2) 2%nat [] [] []
              eq_refl eq_refl eq_refl eq_refl ltac:(simpl; lia) ltac:(simpl; lia)
              eq_refl) as [_ Hdead].
  exact (Hdead []).
Defined.

Lemma worker_dies_when_output_full_witness :
  threads (sched Samples.callables 0%nat Samples.clogged).2 !! 0%nat
    = Some (mkThread (WorkerLoop 0%nat) (Died Full)) ∧
  queues (sched Samples.callables 0%nat Samples.clogged).2 !! 2%nat
    = Some (mkQueue 1 [VNone] 1).
Proof.
  destruct (worker_dies_when_output_full Samples.callables Samples.clogged
              0%nat 0%nat 2%nat Samples.clogged_pool Samples.full_queue
              (mkQueue 1 [VNone] 1) 0%nat [VInt 1] [] [] (VInt 2)
              eq_refl eq_refl eq_refl eq_refl ltac:(simpl; lia) ltac:(simpl; lia)
              eq_refl eq_refl ltac:(simpl; lia) eq_refl eq_refl) as [Hs Hq].
  split; [rewrite Hs; reflexivity | exact Hq].
Defined.

Lemma add_then_worker_runs_job_witness :
  sched Samples.funs 0%nat (add 0%nat (VFun 0) [VInt 4] [] Samples.idle).2 =
    (Ok tt,
     with_trace
       (λ tr, tr ++ [EPut 0%nat (job_tuple (VFun 0) [VInt 4] []);
                     EGet 0%nat (job_tuple (VFun 0) [VInt 4] []);
                     ELog "Running job.";
                     ECall (job_tuple (VFun 0) [VInt 4] []);
                     ETaskDone 0%nat]) Samples.idle).
Proof.
  exact (proj2 (add_then_worker_runs_job Samples.funs Samples.idle 0%nat 0%nat
                  Samples.idle_pool (Queue_new 3) 0%nat [VInt 4] [] (VInt 8)
                  eq_refl eq_refl eq_refl eq_refl ltac:(simpl; lia) ltac:(simpl; lia)
                  eq_refl eq_refl eq_refl)).
Defined.

Lemma pipeline_hands_result_to_next_pool_witness :
  trace (sched Samples.callables 1%nat
           (sched Samples.callables 0%nat Samples.pipeline).2).2 =
    trace Samples.pipeline ++
    [EGet 0%nat (job_tuple (VFun 3) [] []); ELog "Running job.";
     ECall (job_tuple (VFun 3) [] []);
     EPut 2%nat (job_tuple (VFun 0) [VInt 21] []); ETaskDone 0%nat;
     EGet 2%nat (job_tuple (VFun 0) [VInt 21] []); ELog "Running job.";
     ECall (job_tuple (VFun 0) [VInt 21] []); ETaskDone 2%nat].
Proof.
  exact (proj1 (pipeline_hands_result_to_next_pool Samples.callables Samples.pipeline
                  0%nat 1%nat 0%nat 1%nat 2%nat
                  Samples.first_stage Samples.second_stage
                  (Samples.busy_queue 3) (Queue_new 3)
                  3%nat 0%nat [] [] [VInt 21] [] [] (VInt 42)
                  eq_refl eq_refl eq_refl eq_refl eq_refl eq_refl eq_refl
                  ltac:(simpl; lia) eq_refl eq_refl ltac:(simpl; lia)
                  eq_refl eq_refl ltac:(simpl; lia) ltac:(simpl; lia)
                  ltac:(simpl; lia) eq_refl eq_refl)).
Defined.

Lemma consumer_feeds_source_in_order_witness :
  consume_run (alone 6) (ConsumeStart 0%nat) Samples.sourced =
  (Ok None,
   with_trace (λ tr, tr ++ [EPut 0%nat Samples.one_job; EPut 0%nat Samples.one_job])
     (with_queues
        <[0%nat := mkQueue 3 [Samples.one_job; Samples.one_job] 2]> Samples.sourced)).
Proof.
  exact (consumer_feeds_source_in_order
           [(VFun 0, [VInt 1], []); (VFun 0, [VInt 1], [])]
           Samples.sourced 0%nat Samples.sourced_pool (Queue_new 3) 0%nat
           eq_refl eq_refl
           ltac:(repeat constructor) eq_refl ltac:(simpl; lia)
           ltac:(right; unfold qsize; simpl; lia)).
Defined.

Lemma second_forward_replaces_first_witness :
  ∃ σ' q1 q2,
    rshift_chain 0%nat 1%nat 2%nat Samples.three_pools = (Ok 0%nat, σ') ∧
    q1 ≠ q2 ∧
    pools σ' !! 0%nat = Some (set__queue_out (Some q2) Samples.pool0) ∧
    pools σ' !! 1%nat = Some (set__queue q1 Samples.pool1) ∧
    pools σ' !! 2%nat = Some (set__queue q2 Samples.pool2) ∧
    wired 0%nat 2%nat σ' = true ∧
    wired 0%nat 1%nat σ' = false.
Proof.
  exact (second_forward_replaces_first Samples.three_pools 0%nat 1%nat 2%nat
           Samples.pool0 Samples.pool1 Samples.pool2 eq_refl eq_refl eq_refl
           ltac:(lia) ltac:(lia) ltac:(lia)).
Defined.

Lemma forward_strands_queued_jobs_witness :
  threads Samples.one_waiting !! 0%nat
    = Some (mkThread (WorkerGet 1%nat 1%nat 500) Alive) ∧
  threads Samples.one_waiting !! 1%nat = Some (mkThread (WorkerLoop 1%nat) Alive) ∧
  ∃ σ1 q,
    forward 0%nat 1%nat Samples.one_waiting = (Ok 0%nat, σ1) ∧
    q ≠ 1%nat ∧
    threads (sched Samples.funs 1%nat σ1).2 !! 1%nat
      = Some (mkThread (WorkerLoop 1%nat) Returned) ∧
    threads (exec_ops Samples.funs [OStep 0%nat; OStep 0%nat; OStep 0%nat] σ1) !! 0%nat
      = Some (mkThread (WorkerFinally 1%nat None) (Died ValueError)) ∧
    queues (exec_ops Samples.funs [OStep 0%nat; OStep 0%nat; OStep 0%nat] σ1) !! 1%nat
      = Some (mkQueue 3 [] 1).
Proof.
  split; [reflexivity |]. split; [reflexivity |].
  destruct (forward_strands_queued_jobs Samples.funs Samples.one_waiting
              0%nat 1%nat Samples.upstream_pool Samples.two_workers_pool
              (mkQueue 3 [Samples.one_job] 1)
              eq_refl eq_refl ltac:(lia) eq_refl)
    as (σ1 & q & Hf & Hq & _ & _ & Hhead & Hwaiting).
  exists σ1, q. split; [exact Hf |]. split; [exact Hq |].
  destruct (Hhead 1%nat eq_refl ltac:(simpl; lia)) as [Hs _].
  pose proof (Hwaiting 0%nat 500 0%nat [VInt 1] [] [] (VInt 2)
                eq_refl ltac:(lia) eq_refl eq_refl eq_refl) as Hw.
  split; [rewrite Hs; simpl; apply lookup_insert_eq |].
  rewrite Hw. split; [simpl; apply lookup_insert_eq |].
  simpl. rewrite lookup_insert_eq. reflexivity.
Defined.

Lemma init_with_pool_source_witness :
  ∃ p q0 q σ',
    __init__ 4 (VPool 0%nat) 7 500 Samples.two_pools = (Ok p, σ') ∧
    queues σ' !! q0 = Some (Queue_new 7) ∧
    queues σ' !! q = Some (Queue_new 3) ∧
    pools σ' !! p = Some (mkPool 4 [] q 7 500 VNone None None None) ∧
    wired 0%nat p σ' = true.
Proof.
  destruct (init_with_pool_source Samples.two_pools 0%nat Samples.pool0 4 7 500
              eq_refl)
    as (p & q0 & q & σ' & Hi & _ & _ & _ & _ & Hq0 & Hq & Hp & _ & Hw).
  by exists p, q0, q, σ'.
Defined.

Lemma init_with_queue_source_witness :
  ∃ p σ',
    __init__ 4 (VQueue 0%nat) 7 500 Samples.two_pools = (Ok p, σ') ∧
    pools σ' !! p = Some (mkPool 4 [] 0%nat 7 500 VNone None None None) ∧
    queues (add p (VFun 0) [VInt 1] [] σ').2 !! 0%nat
      = Some (mkQueue 3 [job_tuple (VFun 0) [VInt 1] []] 1).
Proof.
  destruct (init_with_queue_source Samples.two_pools 0%nat (Queue_new 3) 4 7 500
              (VFun 0) [VInt 1] [] eq_refl eq_refl ltac:(lia) eq_refl)
    as (p & σ' & Hi & _ & Hp & _ & _ & Hq).
  by exists p, σ'.
Defined.

Lemma run_starts_workers_and_consumer_witness :
  ∃ σ' ts cs,
    run 5 0%nat Samples.sourced = (Ok 0%nat, σ') ∧
    length ts = 1%nat ∧ length cs = 1%nat ∧
    pools σ' = <[0%nat := set__pool (ts ++ cs) (set__start_time 5 Samples.sourced_pool)]>
                 (pools Samples.sourced).
Proof.
  destruct (run_starts_workers_and_consumer 5 0%nat Samples.sourced
              Samples.sourced_pool eq_refl)
    as (σ' & ts & cs & Hrun & _ & Hp & Hts & Hcs & _).
  by exists σ', ts, cs.
Defined.

Lemma second_run_forgets_first_threads_witness :
  ∃ σ1 σ2 l1 l2,
    run 5 0%nat Samples.two_pools = (Ok 0%nat, σ1) ∧
    run 6 0%nat σ1 = (Ok 0%nat, σ2) ∧
    pools σ1 !! 0%nat = Some (set__pool l1 (set__start_time 5 Samples.pool0)) ∧
    pools σ2 !! 0%nat = Some (set__pool l2 (set__start_time 6 Samples.pool0)) ∧
    length l1 = length l2 ∧
    Forall (λ t, (t ∉ l2) ∧ is_alive σ2 t = true) l1.
Proof.
  exact (second_run_forgets_first_threads 5 6 0%nat Samples.two_pools Samples.pool0
           eq_refl).
Defined.

Lemma clean_pool_drops_quit_worker_witness :
  _clean_pool 0%nat (sched Samples.funs 0%nat Samples.idle).2 =
  (Ok 0%nat,
   with_pools <[0%nat := set__pool [] Samples.idle_pool]>
     (sched Samples.funs 0%nat Samples.idle).2).
Proof.
  exact (clean_pool_drops_quit_worker Samples.funs Samples.idle 0%nat 0%nat
           Samples.idle_pool (Queue_new 3) eq_refl eq_refl eq_refl eq_refl
           ltac:(simpl; lia)).
Defined.

Lemma wait_returns_when_drained_witness :
  wait 9 0%nat Samples.idle =
  (Ok 0%nat,
   with_trace (λ tr, tr ++ [ELog "Finished in %s."])
     (with_pools <[0%nat := set__end_time 9 Samples.idle_pool]> Samples.idle)).
Proof.
  exact (wait_returns_when_drained Samples.idle 0%nat Samples.idle_pool
           (Queue_new 3) 9 0 eq_refl eq_refl eq_refl).
Defined.

Lemma unbounded_queue_accepts_every_add_witness :
  queues (exec_ops Samples.funs
            (adds 0%nat [(VFun 0, [VInt 1], []); (VFun 0, [VInt 2], [])])
            Samples.unbounded) !! 0%nat
  = Some (mkQueue 0 [job_tuple (VFun 0) [VInt 1] []; job_tuple (VFun 0) [VInt 2] []] 2).
Proof.
  exact (proj2 (unbounded_queue_accepts_every_add Samples.funs
                  [(VFun 0, [VInt 1], []); (VFun 0, [VInt 2], [])]
                  Samples.unbounded 0%nat Samples.unbounded_pool (Queue_new 0)
                  eq_refl eq_refl ltac:(simpl; lia) ltac:(repeat constructor))).
Defined.

Lemma negative_timeout_kills_worker_witness :
  sched Samples.funs 0%nat Samples.hasty =
    (Ok tt,
     with_threads <[0%nat := mkThread (WorkerLoop 0%nat) (Died ValueError)]>
       Samples.hasty) ∧
  (add 0%nat (VFun 0) [] [] Samples.hasty).1 = Raise ValueError.
Proof.
  destruct (negative_timeout_kills_worker Samples.funs Samples.hasty 0%nat 0%nat
              Samples.hasty_pool (Queue_new 3) (VFun 0) [] []
              eq_refl eq_refl eq_refl ltac:(simpl; lia) eq_refl) as (Hs & Ha & _).
  split; [exact Hs | exact Ha].
Defined.

Lemma consumer_dies_on_keyword_clash_witness :
  threads Samples.clashing !! 0%nat
    = Some (mkThread (ConsumeTry 0%nat Samples.clashing_job []) Alive) ∧
  sched Samples.funs 0%nat Samples.clashing =
    (Ok tt,
     with_threads
       <[0%nat := mkThread (ConsumeTry 0%nat Samples.clashing_job []) (Died TypeError)]>
       Samples.clashing).
Proof.
  split; [reflexivity |].
  exact (proj1 (consumer_dies_on_keyword_clash Samples.funs Samples.clashing
                  0%nat 0%nat (VFun 0) [] [("callback"%string, VInt 1)] []
                  eq_refl eq_refl)).
Defined.

Lemma consumer_repacks_job_witness :
  consume_run (alone 2)
    (ConsumeNext 0%nat [VList [VFun 0; VStr "ab"; VDict []]]) Samples.two_pools =
  (Ok (Some (ConsumeNext 0%nat [])),
   with_trace
     (λ tr, tr ++ [EPut 0%nat (job_tuple (VFun 0) [VStr "a"; VStr "b"] [])])
     (with_queues
        <[0%nat := mkQueue 3 [job_tuple (VFun 0) [VStr "a"; VStr "b"] []] 1]>
        Samples.two_pools)).
Proof.
  exact (consumer_repacks_job Samples.two_pools 0%nat Samples.pool0 (Queue_new 3)
           (VList [VFun 0; VStr "ab"; VDict []]) (VFun 0) (VStr "ab")
           [VStr "a"; VStr "b"] [] []
           eq_refl eq_refl ltac:(simpl; lia) eq_refl eq_refl eq_refl eq_refl
           eq_refl eq_refl eq_refl).
Defined.

Lemma worker_dies_on_item_that_is_no_job_witness :
  sched Samples.funs 0%nat Samples.fed_an_integer =
    (Ok tt,
     with_threads <[0%nat := mkThread (WorkerLoop 0%nat) (Died TypeError)]>
       (turn_store 0%nat (mkQueue 3 [VInt 8] 1) []
          [EGet 0%nat (VInt 8); ELog "Running job."; ETaskDone 0%nat]
          Samples.fed_an_integer)).
Proof.
  exact (worker_dies_on_item_that_is_no_job Samples.funs Samples.fed_an_integer
           0%nat 0%nat Samples.idle_pool (mkQueue 3 [VInt 8] 1) (VInt 8) [] TypeError
           eq_refl eq_refl eq_refl eq_refl ltac:(simpl; lia) ltac:(simpl; lia)
           eq_refl).
Defined.

Lemma unfinished_covers_queued_witness :
  queues Samples.job_in_hand !! 2%nat = Some (mkQueue 3 [Samples.second_job] 2) ∧
  owed Samples.job_in_hand 2%nat = 1 ∧
  qsize (mkQueue 3 [Samples.second_job] 2) + owed Samples.job_in_hand 2%nat
    ≤ unfinished_tasks (mkQueue 3 [Samples.second_job] 2).
Proof.
  split; [reflexivity |]. split; [reflexivity |].
  refine (proj1 (unfinished_covers_queued Samples.funs Samples.job_in_hand_history
                   2%nat (mkQueue 3 [Samples.second_job] 2) _ eq_refl)).
  repeat (split; [exact I |]; split;
          [intros b Hb; try discriminate Hb; injection Hb as <-;
           apply at_rest_decide; vm_compute; reflexivity |]).
  exact I.
Defined.

